(** * Table assignment for league schedules: a shallow embedding

    The repository holds four iterations of one program that assigns pool
    tables to the matches of a league schedule, week by week:

    - [tableAssignments.py]      (module [V0]): a global ledger of usage counts
      and bounded histories, tables picked from [itertools.combinations];
    - [tableAssignments_v1.py]   (module [V1]): the scored greedy assigner;
    - [tableAssignments_v2.py]   (module [V2]): the greedy assigner ranked by
      recent use and usage;
    - [tableAssignments_v3.py]   (module [V3]): first week shuffled, later
      weeks searched over [itertools.permutations].

    Python objects are mutable and shared; the embedding passes the state of
    the objects a function touches explicitly and returns it also when the
    function raises, so that what an exception leaves behind can be stated. *)

From Stdlib Require Import ZArith Lia Ascii String.
From stdpp Require Import gmap strings list fin_maps pretty.

Local Open Scope Z_scope.

(** ** Python results *)

Module Py.

(** The [ValueError]s of the repository, one constructor per raise site,
    carrying the values its message is formatted from. *)
Inductive value_error : Type :=
| BadFilename                               (* "Filename does not match the required pattern." *)
| NoConfiguration                           (* "No configuration found for ..." *)
| NotEnoughTables                           (* "Not enough tables (..) for .. teams" *)
| OddTeams                                  (* "Number of teams must be even ..." *)
| NoAvailableTable (home away : Z) (week : Z) (* "No available table for match .. in week .." *)
| NoValidTable (home away : Z)              (* "No valid table available for match .." *)
| EmptySequence                             (* min() / max() of an empty sequence *)
| BadUnpack                                 (* too many / not enough values to unpack *)
| BadInt.                                   (* int() of a string that is no integer *)

Inductive exn : Type :=
| AttributeError
| IndexError
| KeyError
| TypeError
| ZeroDivisionError
| FileNotFoundError
| ValueError (why : value_error).

Inductive result (A : Type) : Type :=
| Ok (a : A)
| Raise (e : exn).
Global Arguments Ok {A} a.
Global Arguments Raise {A} e.

Definition is_ok {A} (r : result A) : bool :=
  match r with Ok _ => true | Raise _ => false end.

(** The [ValueError] of a match for which no table is left. *)
Definition is_no_table (e : exn) : bool :=
  match e with
  | ValueError (NoAvailableTable _ _ _) => true
  | _ => false
  end.

(** Sequencing: the first exception ends the computation. *)
Global Instance result_bind : MBind result :=
  λ A B k r, match r with Ok a => k a | Raise e => Raise e end.
Global Instance result_ret : MRet result := λ A a, Ok a.

(** A dictionary in insertion order; assigning to a key that is present
    keeps its place. *)
Fixpoint dict_set {V} (k : string) (v : V) (d : list (string * V))
    : list (string * V) :=
  match d with
  | [] => [(k, v)]
  | (k', v') :: r =>
      if String.eqb k k' then (k, v) :: r else (k', v') :: dict_set k v r
  end.

(** [str.split('-')] *)
Fixpoint split_dash_aux (cur : string) (s : string) : list string :=
  match s with
  | EmptyString => [String.rev cur]
  | String c s' =>
      if Ascii.eqb c "-" then String.rev cur :: split_dash_aux EmptyString s'
      else split_dash_aux (String c cur) s'
  end.

Definition split_dash (s : string) : list string := split_dash_aux EmptyString s.

(** What a set gives when it is iterated: its elements, each once. *)
Definition enumerates (set_order : list nat → list nat) : Prop :=
  ∀ l, set_order l ≡ₚ l.

End Py.
Export Py.

(** ** The file name pattern

    [pattern = r"(\d+)-(\d+)-(\d+)-(\d+)-(\d+)-Schedule\.csv"], matched with
    [re.match], which anchors at the start of the string only.  Strings are
    sequences of 8-bit characters (code points below 256), where [\d] is
    exactly the ten ASCII digits. *)

Module Filename.

(** The pattern is a sequence of capturing [(\d+)] groups and literal
    characters. *)
Inductive item : Type :=
| Digits1               (* (\d+) *)
| Lit (c : ascii).      (* an ordinary or escaped character *)

Definition lits (s : string) : list item := Lit <$> String.list_ascii_of_string s.

Definition pattern : list item :=
  [Digits1; Lit "-"; Digits1; Lit "-"; Digits1; Lit "-"; Digits1; Lit "-";
   Digits1] ++ lits "-Schedule.csv".

Definition is_digit (c : ascii) : bool :=
  let n := nat_of_ascii c in (Nat.leb 48 n && Nat.leb n 57)%bool.

(** Length of the longest run of digits at the start of [s]. *)
Fixpoint digit_run (s : string) : nat :=
  match s with
  | String c s' => if is_digit c then S (digit_run s') else O
  | EmptyString => O
  end.

Fixpoint take_str (n : nat) (s : string) : string :=
  match n, s with
  | S n', String c s' => String c (take_str n' s')
  | _, _ => EmptyString
  end.

Fixpoint drop_str (n : nat) (s : string) : string :=
  match n, s with
  | S n', String _ s' => drop_str n' s'
  | _, _ => s
  end.

(** Backtracking matcher: [\d+] is greedy, it first takes the whole run of
    digits and gives characters back one at a time while the rest of the
    pattern fails.  The result is the list of captured groups. *)
Fixpoint match_items (items : list item) (s : string) : option (list string) :=
  match items with
  | [] => Some []
  | Lit c :: rest =>
      match s with
      | String c' s' => if Ascii.eqb c c' then match_items rest s' else None
      | EmptyString => None
      end
  | Digits1 :: rest =>
      (fix try (k : nat) : option (list string) :=
         match k with
         | O => None
         | S k' =>
             match match_items rest (drop_str k s) with
             | Some gs => Some (take_str k s :: gs)
             | None => try k'
             end
         end) (digit_run s)
  end.

(** [re.match(pattern, filename)]: [None] when there is no match at the start
    of the string, else the groups. *)
Definition re_match (filename : string) : option (list string) :=
  match_items pattern filename.

(** [parse_filename] of tableAssignments.py. *)
Definition parse_filename (filename : string) : result (list string) :=
  match re_match filename with
  | None => Raise (ValueError BadFilename)
  | Some groups => Ok groups
  end.

(** [TableAssignmentManager.validate_filename] of v1, v2 and v3: the same
    code over [self.filename]. *)
Definition validate_filename (self_filename : string) : result (list string) :=
  match re_match self_filename with
  | None => Raise (ValueError BadFilename)
  | Some groups => Ok groups
  end.

(** A non-empty string of digits: what [\d+] matches. *)
Definition digits (s : string) : Prop :=
  s ≠ EmptyString ∧ Forall (λ c, is_digit c = true) (String.list_ascii_of_string s).

(** A string that begins with a match of the pattern and goes on with
    [rest]. *)
Definition with_prefix (d1 d2 d3 d4 d5 rest : string) : string :=
  d1 +:+ "-" +:+ d2 +:+ "-" +:+ d3 +:+ "-" +:+ d4 +:+ "-" +:+ d5
     +:+ "-Schedule.csv" +:+ rest.

End Filename.

(** ** tableAssignments_v3.py *)

Module V3.

(** [Table] defines no [__eq__]: [proposed_table == tables_assigned[-1]]
    compares identities.  A table is its identity; the manager builds one
    object per entry of the configuration, so its list holds no table
    twice. *)
Definition Table : Type := nat.

(** [Team] objects are shared by the matches that refer to them, and only
    their [tables_assigned] field is ever written.  The state of all teams
    is the map from a team (its identity) to that field; a team absent from
    the map is one whose [tables_assigned] is [None], as [Team.__init__]
    leaves it. *)
Definition Team : Type := nat.
Abbreviation histories := (gmap Team (list Table)).

(** [Match]: the two teams, [table_assigned] and [candidate_tables], both
    [None] after [Match.__init__]. *)
Record Match : Type := mkMatch {
  home_team : Team;
  away_team : Team;
  table_assigned : option Table;
  candidate_tables : option (list Table)
}.

Definition Match_init (home away : Team) : Match :=
  mkMatch home away None None.

Definition set_table_assigned (v : option Table) (m : Match) : Match :=
  mkMatch (home_team m) (away_team m) v (candidate_tables m).

Definition set_candidate_tables (v : option (list Table)) (m : Match) : Match :=
  mkMatch (home_team m) (away_team m) (table_assigned m) v.

(** [team.tables_assigned.append(table)] *)
Definition tables_assigned_append (team : Team) (table : Table)
    (h : histories) : result histories :=
  match h !! team with
  | None => Raise AttributeError
  | Some l => Ok (<[team := l ++ [table]]> h)
  end.

(** [team.tables_assigned.pop()] *)
Definition tables_assigned_pop (team : Team) (h : histories) : result histories :=
  match h !! team with
  | None => Raise AttributeError
  | Some [] => Raise IndexError
  | Some l => Ok (<[team := removelast l]> h)
  end.

(** [Match.assign_table] *)
Definition assign_table (self : Match) (table : Table) (h : histories)
    : result unit * Match * histories :=
  let self := set_table_assigned (Some table) self in
  match tables_assigned_append (home_team self) table h with
  | Raise e => (Raise e, self, h)
  | Ok h1 =>
      match tables_assigned_append (away_team self) table h1 with
      | Raise e => (Raise e, self, h1)
      | Ok h2 => (Ok (), self, h2)
      end
  end.

(** [Match.assign_candidate_table] *)
Definition assign_candidate_table (self : Match) (table : Table) : result Match :=
  match candidate_tables self with
  | None => Raise AttributeError
  | Some c => Ok (set_candidate_tables (Some (c ++ [table])) self)
  end.

(** [Match.remove_table] *)
Definition remove_table (self : Match) (h : histories)
    : result unit * Match * histories :=
  let self := set_table_assigned None self in
  match tables_assigned_pop (home_team self) h with
  | Raise e => (Raise e, self, h)
  | Ok h1 =>
      match tables_assigned_pop (away_team self) h1 with
      | Raise e => (Raise e, self, h1)
      | Ok h2 => (Ok (), self, h2)
      end
  end.

(** [Week]: the fields the assignment reads.  [week_id] is the first cell of
    the CSV row, a string; [weeks_total] is 0 until [set_weeks_total]. *)
Record Week : Type := mkWeek {
  week_id : string;
  weeks_total : Z;
  matches : list Match
}.

Definition Week_init (week_id : string) (matches : list Match) : Week :=
  mkWeek week_id 0 matches.

Definition set_weeks_total (weeks_total : Z) (self : Week) : Week :=
  mkWeek (week_id self) weeks_total (matches self).

Definition set_matches (ms : list Match) (self : Week) : Week :=
  mkWeek (week_id self) (weeks_total self) ms.

(** The two calls of [random.shuffle] in [Week.assign_tables], each given by
    the rearrangement it makes. *)
Record shuffles : Type := mkShuffles {
  shuffle_tables : list Table → list Table;
  shuffle_matches : list Match → list Match
}.

(** What [random.shuffle] can do: rearrange. *)
Definition fair (rnd : shuffles) : Prop :=
  (∀ l, shuffle_tables rnd l ≡ₚ l) ∧ (∀ l, shuffle_matches rnd l ≡ₚ l).

Definition no_shuffle : shuffles := mkShuffles id id.
Definition reversing : shuffles := mkShuffles reverse reverse.

(** [list.pop()]: the last element and the list without it. *)
Definition pop {A} (l : list A) : option (A * list A) :=
  match reverse l with
  | [] => None
  | x :: r => Some (x, reverse r)
  end.

(** The loop of the first-week branch:
    [for match in self.matches: match.assign_table(available_tables.pop())]. *)
Fixpoint assign_first_week (ms : list Match) (available_tables : list Table)
    (h : histories) : result unit * list Match * histories :=
  match ms with
  | [] => (Ok (), [], h)
  | m :: rest =>
      match pop available_tables with
      | None => (Raise IndexError, m :: rest, h)
      | Some (assigned_table, available_tables) =>
          match assign_table m assigned_table h with
          | (Raise e, m', h') => (Raise e, m' :: rest, h')
          | (Ok _, m', h') =>
              let '(r, rest', h'') := assign_first_week rest available_tables h' in
              (r, m' :: rest', h'')
          end
      end
  end.

(** [math.ceil(a / b)] for [b > 0]: the quotient rounded up.  (The float
    quotient is exact enough for this below 2^53; [a] is the length of a
    list.) *)
Definition ceil_div (a b : Z) : Z := - ((- a) / b).

(** [max_usage_per_table = math.ceil(self.weeks_total / num_tables)] *)
Definition max_usage_per_table (self : Week) (available_tables : list Table)
    : result Z :=
  let num_tables := Z.of_nat (length available_tables) in
  if decide (num_tables = 0) then Raise ZeroDivisionError
  else Ok (ceil_div (weeks_total self) num_tables).

(** The condition of [populate_match_candidate_tables]: the proposed table
    is the last of [tables_assigned] of the home or of the away team, among
    the teams whose [tables_assigned] is neither [None] nor empty. *)
Definition played_last (h : histories) (team : Team) (table : Table) : bool :=
  match h !! team with
  | None => false
  | Some l =>
      match last l with
      | None => false
      | Some t => bool_decide (table = t)
      end
  end.

Definition repeats (h : histories) (m : Match) (proposed_table : Table) : bool :=
  played_last h (home_team m) proposed_table
  || played_last h (away_team m) proposed_table.

(** [populate_match_candidate_tables] over
    [zip(matches, table_permutation)].  It returns at the first repeating
    pair; the candidates appended before that stay. *)
Fixpoint populate_match_candidate_tables (h : histories) (ms : list Match)
    (table_permutation : list Table) : result bool * list Match :=
  match ms, table_permutation with
  | m :: ms', proposed_table :: perm' =>
      if repeats h m proposed_table then (Ok false, m :: ms')
      else
        match assign_candidate_table m proposed_table with
        | Raise e => (Raise e, m :: ms')
        | Ok m' =>
            let '(r, ms'') := populate_match_candidate_tables h ms' perm' in
            (r, m' :: ms'')
        end
  | _, _ => (Ok true, ms)
  end.

(** [itertools.permutations(iterable, r)]: the r-length arrangements of
    elements at distinct positions, in lexicographic order of positions. *)
Fixpoint selections {A} (l : list A) : list (A * list A) :=
  match l with
  | [] => []
  | x :: r => (x, r) :: ((λ p, (p.1, x :: p.2)) <$> selections r)
  end.

Fixpoint permutations {A} (r : nat) (l : list A) : list (list A) :=
  match r with
  | O => [[]]
  | S r' =>
      flat_map (λ p, (cons p.1) <$> permutations r' p.2) (selections l)
  end.

(** [get_permutations]: the first permutation accepted by
    [populate_match_candidate_tables] ends the search. *)
Fixpoint get_permutations (h : histories) (ms : list Match)
    (table_permutations : list (list Table)) : result bool * list Match :=
  match table_permutations with
  | [] => (Ok false, ms)
  | table_permutation :: rest =>
      match populate_match_candidate_tables h ms table_permutation with
      | (Raise e, ms') => (Raise e, ms')
      | (Ok true, ms') => (Ok true, ms')
      | (Ok false, ms') => get_permutations h ms' rest
      end
  end.

(** [reset_assignments] *)
Fixpoint reset_assignments (ms : list Match) (h : histories)
    : result unit * list Match * histories :=
  match ms with
  | [] => (Ok (), [], h)
  | m :: rest =>
      match table_assigned m with
      | None =>
          let '(r, rest', h') := reset_assignments rest h in (r, m :: rest', h')
      | Some _ =>
          match remove_table m h with
          | (Raise e, m', h') => (Raise e, m' :: rest, h')
          | (Ok _, m', h') =>
              let '(r, rest', h'') := reset_assignments rest h' in
              (r, m' :: rest', h'')
          end
      end
  end.

(** [Week.assign_tables_to_matches] *)
Definition assign_tables_to_matches (self : Week) (ms : list Match)
    (available_tables : list Table) (h : histories)
    : result bool * list Match * histories :=
  match max_usage_per_table self available_tables with
  | Raise e => (Raise e, ms, h)
  | Ok _ =>
      let perms := permutations (length ms) available_tables in
      match get_permutations h ms perms with
      | (Raise e, ms') => (Raise e, ms', h)
      | (Ok true, ms') => (Ok true, ms', h)
      | (Ok false, ms') =>
          match reset_assignments ms' h with
          | (Raise e, ms'', h') => (Raise e, ms'', h')
          | (Ok _, ms'', h') => (Ok false, ms'', h')
          end
      end
  end.

(** [Week.assign_tables].  In the branch of the later weeks a failed search
    prints a warning and the method returns normally. *)
Definition assign_tables (rnd : shuffles) (self : Week) (tables : list Table)
    (h : histories) : result unit * Week * histories :=
  let available_tables := tables in
  if String.eqb (week_id self) "1" then
    let available_tables := shuffle_tables rnd available_tables in
    let self := set_matches (shuffle_matches rnd (matches self)) self in
    let '(r, ms, h') := assign_first_week (matches self) available_tables h in
    (r, set_matches ms self, h')
  else
    let '(r, ms, h') :=
      assign_tables_to_matches self (matches self) available_tables h in
    (_ ← r; Ok (), set_matches ms self, h').

(** The loop of [TableAssignmentManager.assign_all_tables]; [rnd i] is the
    randomness met by the week at position [i].  (The CSV output written
    after the loop is outside the embedding.) *)
Fixpoint assign_weeks (rnd : nat → shuffles) (i : nat) (total : Z)
    (tables : list Table) (weeks : list Week) (h : histories)
    : result unit * list Week * histories :=
  match weeks with
  | [] => (Ok (), [], h)
  | week :: rest =>
      let week := set_weeks_total total week in
      match assign_tables (rnd i) week tables h with
      | (Raise e, week', h') => (Raise e, week' :: rest, h')
      | (Ok _, week', h') =>
          let '(r, rest', h'') := assign_weeks rnd (S i) total tables rest h' in
          (r, week' :: rest', h'')
      end
  end.

Definition assign_all_tables (rnd : nat → shuffles) (tables : list Table)
    (weeks : list Week) (h : histories) : result unit * list Week * histories :=
  assign_weeks rnd O (Z.of_nat (length weeks)) tables weeks h.

(** The tables held by the matches of a week. *)
Definition assigned (ms : list Match) : list Table :=
  omap table_assigned ms.

(** No match holds a table: the state [Match.__init__] leaves. *)
Definition unassigned (ms : list Match) : Prop :=
  Forall (λ m, table_assigned m = None) ms.

(** The search writes [candidate_tables] only. *)
Definition same_but_candidates (ms ms' : list Match) : Prop :=
  Forall2 (λ m m', home_team m' = home_team m ∧ away_team m' = away_team m
                   ∧ table_assigned m' = table_assigned m) ms ms'.

End V3.

(** ** tableAssignments_v1.py: tables, matches and the scored assigner *)

Module V1.

(** [Table]: [team_usage] is a [defaultdict(int)], read through
    [get_usage] with 0 for a team it does not hold. *)
Record Table : Type := mkTable {
  table_id : string;
  team_usage : gmap Z Z;
  last_used_by : list Z
}.

Definition Table_init (table_id : string) : Table := mkTable table_id ∅ [].

Global Instance Table_inhabited : Inhabited Table := populate (Table_init EmptyString).

Definition get_usage (self : Table) (team : Z) : Z :=
  default 0 (team_usage self !! team).

Definition add_team (team : Z) (self : Table) : Table :=
  mkTable (table_id self)
          (<[team := get_usage self team + 1]> (team_usage self))
          (last_used_by self ++ [team]).

Definition was_recently_used_by (self : Table) (team : Z) : bool :=
  bool_decide (team ∈ last_used_by self).

(** The [Table] objects are the values of the manager's dictionary, in
    insertion order; a table object is referred to by its position there. *)
Definition TableRef : Type := nat.

Record Match : Type := mkMatch {
  home_team : Z;
  away_team : Z;
  assigned_table : option TableRef
}.

Definition Match_init (home away : Z) : Match := mkMatch home away None.

(** [Match.assign_table] *)
Definition assign_table (self : Match) (table : TableRef) (tables : list Table)
    : Match * list Table :=
  (mkMatch (home_team self) (away_team self) (Some table),
   alter (λ t, add_team (away_team self) (add_team (home_team self) t))
         table tables).

(** [bye_team_id] comes from the JSON configuration (a number or a
    string), from [enumerate] (a number) or is [None]; teams are compared
    with it through [str]. *)
Inductive bye_id : Type :=
| ByeNone
| ByeInt (i : Z)
| ByeStr (s : string).

Definition str_bye (b : bye_id) : string :=
  match b with
  | ByeNone => "None"
  | ByeInt i => pretty i
  | ByeStr s => s
  end.

(** [str(team) == str(bye_team_id)] *)
Definition is_bye (bye : bye_id) (team : Z) : bool :=
  String.eqb (pretty team) (str_bye bye).

Definition truthy (b : bye_id) : bool :=
  match b with
  | ByeNone => false
  | ByeInt i => negb (i =? 0)
  | ByeStr s => negb (String.eqb s EmptyString)
  end.

Definition bye_match (bye : bye_id) (m : Match) : bool :=
  is_bye bye (home_team m) || is_bye bye (away_team m).

(** [Week].  [available_tables] is a set, kept as the list of its elements
    in iteration order.  [__init__] sets [global_usage], [team_least_used]
    and [total_tables] to [None], and sets no attribute named [tables]:
    [attr_tables] is the number of elements of [self.tables] when some
    caller has put that attribute on the object, and [None] when the object
    has no such attribute.  ([previous_week] is stored and never read by
    the assignment.) *)
Record Week : Type := mkWeek {
  week_id : Z;
  date : string;
  matches : list Match;
  available_tables : list TableRef;
  num_teams : Z;
  bye_team_id : bye_id;
  total_weeks : Z;
  global_usage : option (gmap Z (gmap string Z));
  team_least_used : option (gmap Z (list TableRef));
  total_tables : option Z;
  attr_tables : option Z
}.

Definition Week_init (week_id : Z) (date : string) (matches : list Match)
    (bye_team_id : bye_id) (num_teams total_weeks : Z) : Week :=
  mkWeek week_id date matches [] num_teams bye_team_id total_weeks
         None None None None.

Definition set_matches (ms : list Match) (w : Week) : Week :=
  mkWeek (week_id w) (date w) ms (available_tables w) (num_teams w)
         (bye_team_id w) (total_weeks w) (global_usage w) (team_least_used w)
         (total_tables w) (attr_tables w).

Definition set_available_tables (a : list TableRef) (w : Week) : Week :=
  mkWeek (week_id w) (date w) (matches w) a (num_teams w)
         (bye_team_id w) (total_weeks w) (global_usage w) (team_least_used w)
         (total_tables w) (attr_tables w).

Definition set_total_tables (n : Z) (w : Week) : Week :=
  mkWeek (week_id w) (date w) (matches w) (available_tables w) (num_teams w)
         (bye_team_id w) (total_weeks w) (global_usage w) (team_least_used w)
         (Some n) (attr_tables w).

(** What [week.tables = ...], done by a caller with a collection of [n]
    tables, leaves. *)
Definition set_attr_tables (n : Z) (w : Week) : Week :=
  mkWeek (week_id w) (date w) (matches w) (available_tables w) (num_teams w)
         (bye_team_id w) (total_weeks w) (global_usage w) (team_least_used w)
         (total_tables w) (Some n).

Definition set_usage_stats (gu : gmap Z (gmap string Z))
    (least : gmap Z (list TableRef)) (w : Week) : Week :=
  mkWeek (week_id w) (date w) (matches w) (available_tables w) (num_teams w)
         (bye_team_id w) (total_weeks w) (Some gu) (Some least)
         (total_tables w) (attr_tables w).

(** [range(1, n + 1)] *)
Definition range1 (n : Z) : list Z := Z.of_nat <$> seq 1 (Z.to_nat n).

(** The teams the statistics range over:
    [team in range(1, num_teams + 1)] with [str(team) != str(bye_team_id)]. *)
Definition counted_teams (n : Z) (bye : bye_id) : list Z :=
  filter (λ team, is_bye bye team = false) (range1 n).

(** [d[team][table_id]] on the nested dictionary: [KeyError] when absent. *)
Definition usage_at (gu : gmap Z (gmap string Z)) (team : Z) (tid : string)
    : result Z :=
  match default ∅ (gu !! team) !! tid with
  | Some u => Ok u
  | None => Raise KeyError
  end.

(** [min] and [max] of a sequence of integers. *)
Definition py_min (l : list Z) : result Z :=
  match l with
  | [] => Raise (ValueError EmptySequence)
  | x :: r => Ok (foldl Z.min x r)
  end.

Definition py_max (l : list Z) : result Z :=
  match l with
  | [] => Raise (ValueError EmptySequence)
  | x :: r => Ok (foldl Z.max x r)
  end.

(** The first loop of [calculate_usage_stats]: the row of one team, keyed
    by [table_id] (a later table with the same id overwrites). *)
Definition usage_row (tables : list Table) (team : Z) : gmap string Z :=
  foldl (λ row t, <[table_id t := get_usage t team]> row) ∅ tables.

Definition usage_stats (tables : list Table) (teams : list Z)
    : gmap Z (gmap string Z) :=
  foldl (λ gu team, <[team := usage_row tables team]> gu) ∅ teams.

(** The second loop, for one team: the tables whose recorded usage is the
    least. *)
Definition least_used (gu : gmap Z (gmap string Z)) (tables : list Table)
    (team : Z) : result (list TableRef) :=
  usages ← mapM (λ p : nat * Table,
                   u ← usage_at gu team (table_id p.2); Ok (p.1, u))
                (imap pair tables);
  min_usage ← py_min (usages.*2);
  Ok (filter (λ p : nat * Z, p.2 = min_usage) usages).*1.

Fixpoint least_used_all (gu : gmap Z (gmap string Z)) (tables : list Table)
    (teams : list Z) (acc : gmap Z (list TableRef))
    : result unit * gmap Z (list TableRef) :=
  match teams with
  | [] => (Ok (), acc)
  | team :: rest =>
      match least_used gu tables team with
      | Raise e => (Raise e, acc)
      | Ok s => least_used_all gu tables rest (<[team := s]> acc)
      end
  end.

(** [Week.calculate_usage_stats] *)
Definition calculate_usage_stats (self : Week) (tables : list Table)
    (bye_team_id : bye_id) : result unit * Week :=
  let teams := counted_teams (num_teams self) bye_team_id in
  let gu := usage_stats tables teams in
  let '(r, least) := least_used_all gu tables teams ∅ in
  (r, set_usage_stats gu least self).

(** The ranking key of a table: (penalties, usage spread, total usage),
    compared as Python compares tuples. *)
Definition score : Type := Z * Z * Z.

Definition score_lt (a b : score) : bool :=
  let '(a1, a2, a3) := a in
  let '(b1, b2, b3) := b in
  (a1 <? b1) || ((a1 =? b1) && ((a2 <? b2) || ((a2 =? b2) && (a3 <? b3)))).

(** [min(table_scores, key=lambda x: x[1])]: the first entry with the least
    key. *)
Definition min_by_score (best : TableRef * score)
    (rest : list (TableRef * score)) : TableRef * score :=
  foldl (λ b x, if score_lt x.2 b.2 then x else b) best rest.

(** [ideal_usage_per_table = self.total_weeks // len(self.tables)] *)
Definition ideal_usage_per_table (self : Week) : result Z :=
  match attr_tables self with
  | None => Raise AttributeError
  | Some total_tables =>
      if decide (total_tables = 0) then Raise ZeroDivisionError
      else Ok (total_weeks self `div` total_tables)
  end.

(** Component 1 of the score: the team that used the table last. *)
Definition consecutive_penalty (t : Table) (m : Match) : Z :=
  match last (last_used_by t) with
  | Some team =>
      if bool_decide (home_team m = team) || bool_decide (away_team m = team)
      then 100 else 0
  | None => 0
  end.

(** Component 2, for one team. *)
Definition least_used_penalty (self : Week) (table : TableRef) (team : Z)
    : result Z :=
  match team_least_used self with
  | None => Raise TypeError
  | Some least =>
      match least !! team with
      | None => Raise KeyError
      | Some s => Ok (if bool_decide (table ∈ s) then 0 else 50)
      end
  end.

(** [future_usages]: the recorded usage of the table by every counted team,
    one more for the two teams of the match. *)
Definition future_usages (self : Week) (m : Match) (bye_team_id : bye_id)
    (t : Table) : result (list (Z * Z)) :=
  mapM (λ team,
          match global_usage self with
          | None => Raise TypeError
          | Some gu =>
              u ← usage_at gu team (table_id t);
              Ok (team,
                  if bool_decide (team = home_team m)
                     || bool_decide (team = away_team m)
                  then u + 1 else u)
          end)
       (counted_teams (num_teams self) bye_team_id).

Definition spread_penalty (usage_spread : Z) : Z :=
  if 1 <? usage_spread then usage_spread * 10 else 0.

Definition deviation_penalty (ideal usage : Z) : Z :=
  let deviation := Z.abs (usage - ideal) in
  if 1 <? deviation then deviation * 5 else 0.

Definition sumZ (l : list Z) : Z := foldr Z.add 0 l.

(** The body of the loop of [find_best_table] for one table. *)
Definition score_table (self : Week) (m : Match) (bye_team_id : bye_id)
    (ideal : Z) (tables : list Table) (table : TableRef) : result score :=
  let t := tables !!! table in
  let p1 := consecutive_penalty t m in
  p2h ← least_used_penalty self table (home_team m);
  p2a ← least_used_penalty self table (away_team m);
  fu ← future_usages self m bye_team_id t;
  max_usage ← py_max (fu.*2);
  min_usage ← py_min (fu.*2);
  let usage_spread := max_usage - min_usage in
  let p3 := spread_penalty usage_spread in
  let p4 := sumZ (deviation_penalty ideal <$> fu.*2) in
  Ok (p1 + p2h + p2a + p3 + p4, usage_spread, sumZ (fu.*2)).

(** The loop of [find_best_table] over the available tables: a match with
    the bye team skips every table. *)
Definition table_scores (self : Week) (m : Match) (bye_team_id : bye_id)
    (ideal : Z) (tables : list Table) : result (list (TableRef * score)) :=
  if bye_match bye_team_id m then Ok []
  else mapM (λ table,
               s ← score_table self m bye_team_id ideal tables table;
               Ok (table, s))
            (available_tables self).

(** [Week.find_best_table] *)
Definition find_best_table (self : Week) (m : Match) (bye_team_id : bye_id)
    (tables : list Table) : result (option TableRef) :=
  match available_tables self with
  | [] => Ok None
  | _ =>
      ideal ← ideal_usage_per_table self;
      scores ← table_scores self m bye_team_id ideal tables;
      match scores with
      | [] => Raise (ValueError (NoValidTable (home_team m) (away_team m)))
      | x :: rest => Ok (Some (min_by_score x rest).1)
      end
  end.

(** The loop of [Week.assign_tables].  [set.remove] cannot fail here: the
    best table is taken from the set. *)
Fixpoint assign_matches (self : Week) (ms : list Match) (tables : list Table)
    : result unit * Week * list Match * list Table :=
  match ms with
  | [] => (Ok (), self, [], tables)
  | m :: rest =>
      if bye_match (bye_team_id self) m then
        let '(r, self', rest', tables') := assign_matches self rest tables in
        (r, self', m :: rest', tables')
      else
        match find_best_table self m (bye_team_id self) tables with
        | Raise e => (Raise e, self, m :: rest, tables)
        | Ok None =>
            (Raise (ValueError (NoAvailableTable (home_team m) (away_team m)
                                                 (week_id self))),
             self, m :: rest, tables)
        | Ok (Some best_table) =>
            let '(m', tables') := assign_table m best_table tables in
            let self' :=
              set_available_tables
                (filter (λ t, t ≠ best_table) (available_tables self)) self in
            let '(r, self'', rest', tables'') :=
              assign_matches self' rest tables' in
            (r, self'', m' :: rest', tables'')
        end
  end.

(** [Week.assign_tables]; [set_order] is the order in which the set built
    from the tables is iterated. *)
Definition assign_tables (set_order : list TableRef → list TableRef)
    (self : Week) (tables : list Table) : result unit * Week * list Table :=
  let self := set_available_tables (set_order (seq 0 (length tables))) self in
  let self := set_total_tables (Z.of_nat (length tables)) self in
  let '(r, self', ms, tables') := assign_matches self (matches self) tables in
  (r, set_matches ms self', tables').

(** The body of the loop of [TableAssignmentManager.assign_all_tables]:
    the statistics, then the assignment of the week. *)
Definition assign_week (set_order : list TableRef → list TableRef)
    (bye_team_id : bye_id) (week : Week) (tables : list Table)
    : result unit * Week * list Table :=
  match calculate_usage_stats week tables bye_team_id with
  | (Raise e, week) => (Raise e, week, tables)
  | (Ok _, week) => assign_tables set_order week tables
  end.

(** The loop of [TableAssignmentManager.assign_all_tables]. *)
Fixpoint assign_weeks (set_order : nat → list TableRef → list TableRef)
    (i : nat) (bye_team_id : bye_id) (weeks : list Week) (tables : list Table)
    : result unit * list Week * list Table :=
  match weeks with
  | [] => (Ok (), [], tables)
  | week :: rest =>
      match assign_week (set_order i) bye_team_id week tables with
      | (Raise e, week', tables') => (Raise e, week' :: rest, tables')
      | (Ok _, week', tables') =>
          let '(r, rest', tables'') :=
            assign_weeks set_order (S i) bye_team_id rest tables' in
          (r, week' :: rest', tables'')
      end
  end.

(** The tables held by the matches of a week. *)
Definition assigned (ms : list Match) : list TableRef :=
  omap assigned_table ms.

(** No match holds a table: the state [Match.__init__] leaves. *)
Definition unassigned (ms : list Match) : Prop :=
  Forall (λ m, assigned_table m = None) ms.

(** The ledger of the tables only grows: usage counts do not decrease and
    [last_used_by] is extended at its end. *)
Definition grows1 (t t' : Table) : Prop :=
  table_id t' = table_id t
  ∧ (∀ team, get_usage t team ≤ get_usage t' team)
  ∧ last_used_by t `prefix_of` last_used_by t'.

Definition grows (tables tables' : list Table) : Prop :=
  Forall2 grows1 tables tables'.

(** Some match of the list is played: neither of its teams is the bye team. *)
Definition plays (bye : bye_id) (ms : list Match) : Prop :=
  Exists (λ m, bye_match bye m = false) ms.

(** How often a team occurs in [last_used_by]. *)
Definition times_used (t : Table) (team : Z) : Z :=
  Z.of_nat (length (filter (λ x, x = team) (last_used_by t))).

(** The two records of a table agree: the usage count of every team is the
    number of its entries in [last_used_by]. *)
Definition consistent (t : Table) : Prop :=
  ∀ team, get_usage t team = times_used t team.

(** *** The manager of v1: configuration and schedule

    The configuration file and the schedule file are given by what
    [json.load] and [csv.reader] return for them.  In the configuration,
    table ids and keys are strings and team ids are numbers. *)

Record division_config : Type := mkConfig {
  cfg_table_ids : option (list string);
  cfg_table_keys : option (list string);
  cfg_team_ids : option (list Z);
  cfg_team_keys : option (list string);
  cfg_bye_team_id : option bye_id
}.

(** [not config]: a dictionary without keys. *)
Definition cfg_empty (c : division_config) : bool :=
  match cfg_table_ids c, cfg_table_keys c, cfg_team_ids c, cfg_team_keys c,
        cfg_bye_team_id c with
  | None, None, None, None, None => true
  | _, _, _, _, _ => false
  end.

Record files : Type := mkFiles {
  config_file : option (gmap string (gmap string division_config));
  schedule_file : option (list (list string))
}.

Record TableAssignmentManager : Type := mkManager {
  filename : string;
  schedule : list Week;
  m_num_teams : Z;
  m_bye_team_id : bye_id;
  tables : list (string * Table);
  team_names : list (Z * string);
  location_id : string;
  year : string;
  month : string;
  division : string;
  session : string;
  m_total_weeks : option Z
}.

Definition lower_ascii (c : ascii) : ascii :=
  let n := nat_of_ascii c in
  if (Nat.leb 65 n && Nat.leb n 90)%bool then ascii_of_nat (n + 32) else c.

(** [key.lower() == "bye"] *)
Definition is_bye_key (key : string) : bool :=
  String.eqb
    (String.string_of_list_ascii (lower_ascii <$> String.list_ascii_of_string key))
    "bye".

(** [next((i for i, key in enumerate(keys) if key.lower() == "bye"), None)] *)
Fixpoint find_bye (i : Z) (keys : list string) : bye_id :=
  match keys with
  | [] => ByeNone
  | key :: r => if is_bye_key key then ByeInt i else find_bye (i + 1) r
  end.

Section Manager.

(** [int] applied to a string, [None] when it raises [ValueError]. *)
Variable py_int : string → option Z.

Definition int_of (s : string) : result Z :=
  match py_int s with
  | Some i => Ok i
  | None => Raise (ValueError BadInt)
  end.

(** [Match.__init__]: split, unpack, then convert. *)
Definition Match_of_string (match_str : string) : result Match :=
  match split_dash match_str with
  | [home_team; away_team] =>
      h ← int_of home_team;
      a ← int_of away_team;
      Ok (Match_init h a)
  | _ => Raise (ValueError BadUnpack)
  end.

(** [home, away = map(int, match.split('-'))]: the conversions are made one
    by one while unpacking, a third one to see that nothing is left. *)
Definition teams_of_string (match_str : string) : result (Z * Z) :=
  match split_dash match_str with
  | [] => Raise (ValueError BadUnpack)
  | [a] => _ ← int_of a; Raise (ValueError BadUnpack)
  | [a; b] => h ← int_of a; w ← int_of b; Ok (h, w)
  | a :: b :: c :: _ =>
      _ ← int_of a; _ ← int_of b; _ ← int_of c; Raise (ValueError BadUnpack)
  end.

(** [TableAssignmentManager.get_table_config] *)
Definition get_table_config (fs : files) (self : TableAssignmentManager)
    : result division_config :=
  match config_file fs with
  | None => Raise FileNotFoundError
  | Some configs =>
      match configs !! location_id self with
      | None => Raise (ValueError NoConfiguration)
      | Some location_config =>
          if bool_decide (size location_config = O)
          then Raise (ValueError NoConfiguration)
          else
            match location_config !! division self with
            | None => Raise (ValueError NoConfiguration)
            | Some division_config =>
                if cfg_empty division_config
                then Raise (ValueError NoConfiguration)
                else Ok division_config
            end
      end
  end.

Definition with_team_names (names : list (Z * string)) (bye : bye_id)
    (m : TableAssignmentManager) : TableAssignmentManager :=
  mkManager (filename m) (schedule m) (m_num_teams m) bye (tables m) names
            (location_id m) (year m) (month m) (division m) (session m)
            (m_total_weeks m).

Definition with_tables (t : list (string * Table))
    (m : TableAssignmentManager) : TableAssignmentManager :=
  mkManager (filename m) (schedule m) (m_num_teams m) (m_bye_team_id m) t
            (team_names m) (location_id m) (year m) (month m) (division m)
            (session m) (m_total_weeks m).

Definition with_schedule (weeks : list Week) (n : Z) (total : Z)
    (m : TableAssignmentManager) : TableAssignmentManager :=
  mkManager (filename m) weeks n (m_bye_team_id m) (tables m)
            (team_names m) (location_id m) (year m) (month m) (division m)
            (session m) (Some total).

(** [TableAssignmentManager.initialize_team_names] *)
Definition initialize_team_names (fs : files) (self : TableAssignmentManager)
    : result TableAssignmentManager :=
  config ← get_table_config fs self;
  let names :=
    match cfg_team_ids config, cfg_team_keys config with
    | Some ids, Some keys => zip ids keys
    | _, _ => team_names self
    end in
  match cfg_bye_team_id config with
  | Some bye => Ok (with_team_names names bye self)
  | None =>
      match cfg_team_keys config with
      | None => Raise KeyError
      | Some keys => Ok (with_team_names names (find_bye 0 keys) self)
      end
  end.

(** [TableAssignmentManager.initialize_tables].  It reads [self.num_teams]
    as it is when the method runs. *)
Definition initialize_tables (fs : files) (self : TableAssignmentManager)
    : result TableAssignmentManager :=
  config ← get_table_config fs self;
  let tableByeOffset := if truthy (m_bye_team_id self) then 1 else 0 in
  match cfg_table_ids config with
  | None => Raise KeyError
  | Some table_ids =>
      if Z.of_nat (length table_ids) + tableByeOffset <? m_num_teams self `div` 2
      then Raise (ValueError NotEnoughTables)
      else
        match cfg_table_keys config with
        | None => Raise KeyError
        | Some table_keys =>
            Ok (with_tables
                  (foldl (λ d kv, dict_set kv.1 (Table_init kv.2) d)
                         (tables self) (zip table_keys table_ids))
                  self)
        end
  end.

(** The rows [read_schedule] keeps. *)
Definition kept_row (row : list string) : bool :=
  match row with
  | _ :: cell :: _ =>
      negb (String.eqb cell "No Play" || String.eqb cell "Playoff Week")
  | _ => false
  end.

(** The teams named by the matches of the kept rows, in order of
    appearance. *)
Definition teams_of_rows (rows : list (list string)) : result (list Z) :=
  pairs ← mapM teams_of_string (concat (drop 2 <$> rows));
  Ok (concat ((λ p : Z * Z, [p.1; p.2]) <$> pairs)).

(** The second pass: one [Week] per kept row. *)
Definition week_of_row (bye : bye_id) (num_teams total_weeks : Z)
    (row : list string) : result Week :=
  match row with
  | week_id :: date :: matches =>
      id ← int_of week_id;
      ms ← mapM Match_of_string matches;
      Ok (Week_init id date ms bye num_teams total_weeks)
  | _ => Raise (ValueError BadUnpack)
  end.

(** [TableAssignmentManager.read_schedule] *)
Definition read_schedule (fs : files) (self : TableAssignmentManager)
    : result TableAssignmentManager :=
  match schedule_file fs with
  | None => Raise FileNotFoundError
  | Some lines =>
      let rows := filter (λ row, kept_row row = true) lines in
      teams ← teams_of_rows rows;
      let num_teams := Z.of_nat (length (remove_dups teams)) in
      if negb (num_teams `mod` 2 =? 0) then Raise (ValueError OddTeams)
      else
        let total_weeks := Z.of_nat (length rows) + 1 in
        weeks ← mapM (week_of_row (m_bye_team_id self) num_teams total_weeks)
                     rows;
        Ok (with_schedule (schedule self ++ weeks) num_teams total_weeks self)
  end.

(** [TableAssignmentManager.__init__]: the object exists only when no step
    raises. *)
Definition Manager_init (fs : files) (filename : string)
    : result TableAssignmentManager :=
  groups ← Filename.validate_filename filename;
  match groups with
  | [location_id; year; month; division; session] =>
      let self :=
        mkManager filename [] 0 ByeNone [] [] location_id year month division
                  session None in
      self ← initialize_team_names fs self;
      self ← initialize_tables fs self;
      read_schedule fs self
  | _ => Raise (ValueError BadUnpack)
  end.

End Manager.

(** [TableAssignmentManager.assign_all_tables] *)
Definition assign_all_tables (set_order : nat → list TableRef → list TableRef)
    (self : TableAssignmentManager)
    : result unit * TableAssignmentManager :=
  let '(r, weeks, values) :=
    assign_weeks set_order O (m_bye_team_id self) (schedule self)
                 (tables self).*2 in
  (r, mkManager (filename self) weeks (m_num_teams self) (m_bye_team_id self)
                (zip (tables self).*1 values) (team_names self)
                (location_id self) (year self) (month self) (division self)
                (session self) (m_total_weeks self)).

(** A plain decimal reading for the strings of digits of the examples. *)
Definition digit_value (c : ascii) : option Z :=
  if Filename.is_digit c then Some (Z.of_nat (nat_of_ascii c) - 48) else None.

Fixpoint decimal_aux (acc : Z) (s : string) : option Z :=
  match s with
  | EmptyString => Some acc
  | String c s' => d ← digit_value c; decimal_aux (10 * acc + d) s'
  end.

Definition decimal (s : string) : option Z :=
  match s with
  | EmptyString => None
  | _ => decimal_aux 0 s
  end.

(** [TableAssignmentManager.get_team_name]:
    [self.team_names.get(team_id, str(team_id))].  Of two entries of the
    configuration with the same id the dictionary holds the later one. *)
Definition get_team_name (team_names : list (Z * string)) (team_id : Z)
    : string :=
  default (pretty team_id)
          (foldl (λ acc (p : Z * string),
                    if bool_decide (p.1 = team_id) then Some p.2 else acc)
                 None team_names).

(** [sep.join(l)] *)
Fixpoint join (sep : string) (l : list string) : string :=
  match l with
  | [] => EmptyString
  | [x] => x
  | x :: r => x +:+ sep +:+ join sep r
  end.

(** One element of the list comprehension of [write_assignments]:
    [f"{home}-{away}: {match.assigned_table.table_id}"], the names first. *)
Definition assignment_text (team_names : list (Z * string))
    (tables : list Table) (m : Match) : result string :=
  match assigned_table m with
  | None => Raise AttributeError
  | Some table =>
      Ok (get_team_name team_names (home_team m) +:+ "-"
          +:+ get_team_name team_names (away_team m) +:+ ": "
          +:+ table_id (tables !!! table))
  end.

(** The loop of [write_assignments] over the weeks, each given by its
    [week_id], [date] and [matches]: the rows handed to [csv.writer].  The
    comprehension of a week is evaluated before its row is written, so the
    week of an exception leaves no row. *)
Fixpoint write_weeks (team_names : list (Z * string)) (tables : list Table)
    (weeks : list (Z * string * list Match))
    : result unit * list (list string) :=
  match weeks with
  | [] => (Ok (), [])
  | (week_id, date, ms) :: rest =>
      match mapM (assignment_text team_names tables) ms with
      | Raise e => (Raise e, [])
      | Ok texts =>
          let '(r, rows) := write_weeks team_names tables rest in
          (r, [pretty week_id; date; join ", " texts] :: rows)
      end
  end.

(** [TableAssignmentManager.write_assignments]: the result and the rows
    written to the file, the header first. *)
Definition write_assignments (self : TableAssignmentManager)
    : result unit * list (list string) :=
  let '(r, rows) :=
    write_weeks (team_names self) (tables self).*2
                ((λ w, (week_id w, date w, matches w)) <$> schedule self) in
  (r, ["Week"; "MatchDate"; "Assignments"] :: rows).

(** Every match of the week holds a table. *)
Definition all_assigned (ms : list Match) : Prop :=
  Forall (λ m, is_Some (assigned_table m)) ms.

End V1.

(** ** tableAssignments_v2.py: the assigner ranked by recent use

    [Table.__init__], [add_team], [get_usage], [Match] and
    [Match.assign_table] are the code of v1. *)

Module V2.

Abbreviation Table := V1.Table.
Abbreviation TableRef := V1.TableRef.
Abbreviation Match := V1.Match.
Abbreviation bye_id := V1.bye_id.

(** [Table.get_total_usage]: [sum(self.team_usage.values())] *)
Definition get_total_usage (self : Table) : Z :=
  map_fold (λ _ v acc, v + acc) 0 (V1.team_usage self).

(** The loop of [was_recently_used_by] over [last_used_by] from its end:
    it counts while the entry is [team], and indexes past the start of the
    list when every entry is. *)
Fixpoint count_back (team : Z) (used_backwards : list Z) : result Z :=
  match used_backwards with
  | [] => Raise IndexError
  | x :: r =>
      if bool_decide (team = x) then n ← count_back team r; Ok (n + 1)
      else Ok 0
  end.

(** [Table.was_recently_used_by] *)
Definition was_recently_used_by (self : Table) (team : Z) : result Z :=
  match V1.last_used_by self with
  | [] => Ok 0
  | l => count_back team (reverse l)
  end.

(** [Week]: [available_tables] is a set, kept as the list of its elements
    in iteration order.  ([previous_week] is stored and never read by the
    assignment.) *)
Record Week : Type := mkWeek {
  week_id : Z;
  date : string;
  matches : list Match;
  available_tables : list TableRef;
  num_teams : Z;
  bye_team_id : bye_id
}.

Definition Week_init (week_id : Z) (date : string) (matches : list Match)
    (bye_team_id : bye_id) (num_teams : Z) : Week :=
  mkWeek week_id date matches [] num_teams bye_team_id.

Definition set_matches (ms : list Match) (w : Week) : Week :=
  mkWeek (week_id w) (date w) ms (available_tables w) (num_teams w)
         (bye_team_id w).

Definition set_available_tables (a : list TableRef) (w : Week) : Week :=
  mkWeek (week_id w) (date w) (matches w) a (num_teams w) (bye_team_id w).

(** The first loop of [find_best_table]: the share of the table's use that
    is the two teams'. *)
Definition match_usage (t : Table) (m : Match) : Z :=
  let home_usage := V1.get_usage t (V1.home_team m) in
  let away_usage := V1.get_usage t (V1.away_team m) in
  if 0 <? get_total_usage t
  then (home_usage + away_usage) `div` get_total_usage t
  else 0.

(** The ranking key of the second loop:
    [(recently_used, match_usage, total_usage)]. *)
Definition table_value (t : Table) (m : Match) : result V1.score :=
  rh ← was_recently_used_by t (V1.home_team m);
  ra ← was_recently_used_by t (V1.away_team m);
  let recently_used := rh + ra in
  let total_usage :=
    V1.get_usage t (V1.home_team m) + V1.get_usage t (V1.away_team m) in
  Ok (recently_used, match_usage t m, total_usage).

(** The second loop: the best table so far changes only on a strictly
    smaller key. *)
Fixpoint best_of (tables : list Table) (m : Match)
    (best : option (TableRef * V1.score)) (valid_tables : list TableRef)
    : result (option TableRef) :=
  match valid_tables with
  | [] => Ok (fst <$> best)
  | table :: rest =>
      current_value ← table_value (tables !!! table) m;
      match best with
      | None => best_of tables m (Some (table, current_value)) rest
      | Some (_, min_value) =>
          if V1.score_lt current_value min_value
          then best_of tables m (Some (table, current_value)) rest
          else best_of tables m best rest
      end
  end.

(** [Week.find_best_table] *)
Definition find_best_table (self : Week) (m : Match) (tables : list Table)
    : result (option TableRef) :=
  match available_tables self with
  | [] => Ok None
  | valid_tables => best_of tables m None valid_tables
  end.

(** The loop of [Week.assign_tables].  [set.remove] cannot fail here: the
    best table is taken from the set. *)
Fixpoint assign_matches (self : Week) (ms : list Match) (tables : list Table)
    : result unit * Week * list Match * list Table :=
  match ms with
  | [] => (Ok (), self, [], tables)
  | m :: rest =>
      if V1.bye_match (bye_team_id self) m then
        let '(r, self', rest', tables') := assign_matches self rest tables in
        (r, self', m :: rest', tables')
      else
        match find_best_table self m tables with
        | Raise e => (Raise e, self, m :: rest, tables)
        | Ok None =>
            (Raise (ValueError (NoAvailableTable (V1.home_team m)
                                  (V1.away_team m) (week_id self))),
             self, m :: rest, tables)
        | Ok (Some best_table) =>
            let '(m', tables') := V1.assign_table m best_table tables in
            let self' :=
              set_available_tables
                (filter (λ t, t ≠ best_table) (available_tables self)) self in
            let '(r, self'', rest', tables'') :=
              assign_matches self' rest tables' in
            (r, self'', m' :: rest', tables'')
        end
  end.

(** [Week.assign_tables]: the tables are shuffled and put in a set;
    [set_order] is the order in which that set is then iterated. *)
Definition assign_tables (set_order : list TableRef → list TableRef)
    (self : Week) (tables : list Table) : result unit * Week * list Table :=
  let self := set_available_tables (set_order (seq 0 (length tables))) self in
  let '(r, self', ms, tables') := assign_matches self (matches self) tables in
  (r, set_matches ms self', tables').

(** [TableAssignmentManager.assign_all_tables] over the weeks of the
    schedule and the tables of the manager. *)
Fixpoint assign_weeks (set_order : nat → list TableRef → list TableRef)
    (i : nat) (weeks : list Week) (tables : list Table)
    : result unit * list Week * list Table :=
  match weeks with
  | [] => (Ok (), [], tables)
  | week :: rest =>
      match assign_tables (set_order i) week tables with
      | (Raise e, week', tables') => (Raise e, week' :: rest, tables')
      | (Ok _, week', tables') =>
          let '(r, rest', tables'') :=
            assign_weeks set_order (S i) rest tables' in
          (r, week' :: rest', tables'')
      end
  end.

Definition assign_all_tables (set_order : nat → list TableRef → list TableRef)
    (weeks : list Week) (tables : list Table)
    : result unit * list Week * list Table :=
  assign_weeks set_order O weeks tables.

(** The total usage of a table is the number of its entries. *)
Definition total_consistent (t : Table) : Prop :=
  get_total_usage t = Z.of_nat (length (V1.last_used_by t)).

(** The last two entries of [last_used_by] are different teams (or the table
    was never used): what [Match.assign_table] leaves for a match between
    two different teams. *)
Definition settled (t : Table) : Prop :=
  V1.last_used_by t = [] ∨
  ∃ l a b, V1.last_used_by t = l ++ [a; b] ∧ a ≠ b.

(** The matches of a list that are played. *)
Definition played (bye : bye_id) (ms : list Match) : list Match :=
  filter (λ m, V1.bye_match bye m = false) ms.

(** The played matches are between two different teams. *)
Definition distinct_teams (bye : bye_id) (ms : list Match) : Prop :=
  Forall (λ m, V1.home_team m ≠ V1.away_team m) (played bye ms).

(** What a week without exception leaves of a match: a bye match as it was,
    a played match with one of the given tables. *)
Definition assigned_from (bye : bye_id) (available : list TableRef)
    (m m' : Match) : Prop :=
  if V1.bye_match bye m then m' = m
  else ∃ t, t ∈ available
            ∧ m' = V1.mkMatch (V1.home_team m) (V1.away_team m) (Some t).

(** [TableAssignmentManager.write_assignments] of v2, the code of v1, over
    the team names, the weeks and the tables of the manager. *)
Definition write_assignments (team_names : list (Z * string))
    (weeks : list Week) (tables : list Table)
    : result unit * list (list string) :=
  let '(r, rows) :=
    V1.write_weeks team_names tables
                   ((λ w, (week_id w, date w, matches w)) <$> weeks) in
  (r, ["Week"; "MatchDate"; "Assignments"] :: rows).

(** Some match of the week is with the bye team. *)
Definition has_bye (w : Week) : Prop :=
  Exists (λ m, V1.bye_match (bye_team_id w) m = true) (matches w).

(** The tables suffice for a week: it has no more played matches than there
    are tables. *)
Definition suffices (tables : list Table) (w : Week) : Prop :=
  (length (played (bye_team_id w) (matches w)) ≤ length tables)%nat.

End V2.

(** ** tableAssignments_v3.py: the manager *)

Module V3Manager.
Import V3.

(** The entry of a division in the configuration file, as [json.load]
    returns it.  Ids are given by their [str()]: the ids of a configuration
    are all numbers or all strings, so that two ids are equal exactly when
    their [str()] are. *)
Record division_config : Type := mkConfig {
  cfg_table_ids : option (list string);
  cfg_table_values : option (list string);
  cfg_team_ids : option (list string);
  cfg_team_values : option (list string);
  cfg_bye_team_id : option string
}.

(** [not division_config]: a dictionary without keys. *)
Definition cfg_empty (c : division_config) : bool :=
  match cfg_table_ids c, cfg_table_values c, cfg_team_ids c,
        cfg_team_values c, cfg_bye_team_id c with
  | None, None, None, None, None => true
  | _, _, _, _, _ => false
  end.

Record files : Type := mkFiles {
  config_file : option (gmap string (gmap string division_config));
  schedule_file : option (list (list string))
}.

(** The manager.  A [Team] is its position in [teams] and a [Table] its
    position in [tables]; the lists hold the id and the value of each
    object.  The [date] of a week, which the assignment does not read, is
    kept beside the week.  ([bye_team_id] is stored and never read.) *)
Record TableAssignmentManager : Type := mkManager {
  teams : list (string * string);
  tables : list (string * string);
  schedule : list (string * Week)
}.

(** [TableAssignmentManager.initialize_from_config]: the tables and the
    teams of the division, [dict.get] giving [[]] for an absent list. *)
Definition initialize_from_config (fs : files) (league_id division : string)
    : result (list (string * string) * list (string * string)) :=
  match config_file fs with
  | None => Raise FileNotFoundError
  | Some configs =>
      match configs !! league_id with
      | None => Raise (ValueError NoConfiguration)
      | Some league_config =>
          if bool_decide (size league_config = O)
          then Raise (ValueError NoConfiguration)
          else
            match league_config !! division with
            | None => Raise (ValueError NoConfiguration)
            | Some c =>
                if cfg_empty c then Raise (ValueError NoConfiguration)
                else
                  Ok (zip (default [] (cfg_table_ids c))
                          (default [] (cfg_table_values c)),
                      zip (default [] (cfg_team_ids c))
                          (default [] (cfg_team_values c)))
            end
      end
  end.

(** [next((team for team in self.teams if str(team.team_id) == id), None)] *)
Definition find_team (teams : list (string * string)) (id : string)
    : option Team :=
  fst <$> list_find (λ team, team.1 = id) teams.

(** The body of the loop over [match_strings]: [None] where the match is
    left out, because a team is not found or because the unpacking raised
    (the exception is caught and printed). *)
Definition Match_of_string (teams : list (string * string))
    (match_str : string) : option Match :=
  match split_dash match_str with
  | [home_id; away_id] =>
      match find_team teams home_id, find_team teams away_id with
      | Some home_team, Some away_team => Some (Match_init home_team away_team)
      | _, _ => None
      end
  | _ => None
  end.

(** The body of the loop over the rows: [None] for a row that is skipped. *)
Definition week_of_row (teams : list (string * string)) (row : list string)
    : option (string * Week) :=
  match row with
  | week_id :: date :: match_strings =>
      if String.eqb date "No Play" || String.eqb date "Playoff Week" then None
      else Some (date,
                 Week_init week_id (omap (Match_of_string teams) match_strings))
  | _ => None
  end.

(** [TableAssignmentManager.read_schedule] *)
Definition read_schedule (fs : files) (teams : list (string * string))
    : result (list (string * Week)) :=
  match schedule_file fs with
  | None => Raise FileNotFoundError
  | Some lines => Ok (omap (week_of_row teams) lines)
  end.

(** [TableAssignmentManager.__init__] *)
Definition Manager_init (fs : files) (filename : string)
    : result TableAssignmentManager :=
  groups ← Filename.validate_filename filename;
  match groups with
  | [league_id; year; session; division; location_id] =>
      config ← initialize_from_config fs league_id division;
      schedule ← read_schedule fs config.2;
      Ok (mkManager config.2 config.1 schedule)
  | _ => Raise (ValueError BadUnpack)
  end.

(** The condition of [output_table_stats] on a match:
    [m.home_team.team_id == team.team_id or
     m.away_team.team_id == team.team_id]. *)
Definition plays_in (teams : list (string * string)) (team_id : string)
    (m : Match) : bool :=
  bool_decide ((teams !!! home_team m).1 = team_id)
  || bool_decide ((teams !!! away_team m).1 = team_id).

(** The cell of a team in the row of a week: the value of the table of the
    first match of the team, empty without such a match or without a
    table. *)
Definition table_cell (self : TableAssignmentManager) (week : Week)
    (team : string * string) : string :=
  match list_find (λ m, plays_in (teams self) team.1 m = true)
                  (matches week) with
  | Some (_, m) =>
      match table_assigned m with
      | Some t => (tables self !!! t).2
      | None => EmptyString
      end
  | None => EmptyString
  end.

(** [TableAssignmentManager.output_table_stats]: the rows handed to
    [csv.writer]. *)
Definition output_table_stats (self : TableAssignmentManager)
    : list (list string) :=
  (EmptyString :: EmptyString :: (teams self).*2)
  :: ((λ dw : string * Week,
         week_id dw.2 :: dw.1 :: (table_cell self dw.2 <$> teams self))
      <$> schedule self).

(** [TableAssignmentManager.assign_all_tables]: the loop over the weeks,
    then the output.  No [Team] has been given a list of tables: the
    histories are empty.  The result, the manager, the histories and the
    rows written. *)
Definition assign_all_tables (rnd : nat → shuffles)
    (self : TableAssignmentManager)
    : result unit * TableAssignmentManager * histories * list (list string) :=
  let '(r, weeks, h) :=
    V3.assign_all_tables rnd (seq 0 (length (tables self)))
                         (schedule self).*2 ∅ in
  let self' :=
    mkManager (teams self) (tables self) (zip (schedule self).*1 weeks) in
  match r with
  | Raise e => (Raise e, self', h, [])
  | Ok _ => (Ok (), self', h, output_table_stats self')
  end.

End V3Manager.

(** ** tableAssignments.py: the first assigner

    Teams, tables and matches are the strings of the CSV cells.  The two
    global dictionaries form the ledger: [table_usage_count[team][table]]
    and [table_history[team]], a [deque(maxlen=20)]. *)

Module V0.

Record ledger : Type := mkLedger {
  table_usage_count : gmap (string * string) Z;
  table_history : gmap string (list string)
}.

Definition empty_ledger : ledger := mkLedger ∅ ∅.

Definition table_pairs : list string := ["1-2"; "3-4"; "5-6"; "7-8"].

Definition usage_count (L : ledger) (team table : string) : Z :=
  default 0 (table_usage_count L !! (team, table)).

Definition history (L : ledger) (team : string) : list string :=
  default [] (table_history L !! team).

(** [deque.append] with [maxlen=20]: a full deque drops its oldest entry. *)
Definition deque_append (x : string) (d : list string) : list string :=
  if decide (length d < 20)%nat then d ++ [x] else drop 1 d ++ [x].

Definition incr_usage (team table : string) (L : ledger) : ledger :=
  mkLedger (<[(team, table) := usage_count L team table + 1]> (table_usage_count L))
           (table_history L).

Definition push_history (team table : string) (L : ledger) : ledger :=
  mkLedger (table_usage_count L)
           (<[team := deque_append table (history L team)]> (table_history L)).

(** [len(h) == 0 or table != h[-1]] *)
Definition not_last (h : list string) (table : string) : bool :=
  match last h with
  | None => true
  | Some t => negb (String.eqb table t)
  end.

(** The test of one table for one match. *)
Definition acceptable (L : ledger) (home_team away_team table : string) : bool :=
  not_last (history L home_team) table
  && not_last (history L away_team) table
  && (Z.abs (usage_count L home_team table - usage_count L away_team table) <=? 3).

(** The four updates of the ledger, in the order of the code. *)
Definition record (home_team away_team table : string) (L : ledger) : ledger :=
  push_history away_team table
    (push_history home_team table
       (incr_usage away_team table (incr_usage home_team table L))).

(** [for table in combo]: the match is split anew for every table; the
    first acceptable table is recorded and ends the loop. *)
Fixpoint try_combo (match_ : string) (combo : list string) (L : ledger)
    : result (option string) * ledger :=
  match combo with
  | [] => (Ok None, L)
  | table :: rest =>
      match split_dash match_ with
      | [home_team; away_team] =>
          if acceptable L home_team away_team table
          then (Ok (Some table), record home_team away_team table L)
          else try_combo match_ rest L
      | _ => (Raise (ValueError BadUnpack), L)
      end
  end.

(** [for combo in available_tables_combo]: every combination that is left
    in the iterator is visited; each may assign the match again. *)
Fixpoint try_combos (match_ : string) (combos : list (list string))
    (week_assignments : list (string * string)) (used_table : option string)
    (L : ledger)
    : result unit * list (string * string) * option string * ledger :=
  match combos with
  | [] => (Ok (), week_assignments, used_table, L)
  | combo :: rest =>
      match try_combo match_ combo L with
      | (Raise e, L') => (Raise e, week_assignments, used_table, L')
      | (Ok None, L') => try_combos match_ rest week_assignments used_table L'
      | (Ok (Some table), L') =>
          try_combos match_ rest (dict_set match_ table week_assignments)
                     (Some table) L'
      end
  end.

(** [itertools.combinations(iterable, r)] *)
Fixpoint combinations {A} (r : nat) (l : list A) : list (list A) :=
  match r, l with
  | O, _ => [[]]
  | S _, [] => []
  | S r', x :: l' => (cons x <$> combinations r' l') ++ combinations r l'
  end.

Definition assignment : Type := string * string * list (string * string).

(** [for match in matches].  [combos] is what is left in the iterator
    [available_tables_combo]: after the first match nothing.  The iterator
    has no method [remove]: once a table has been used the next match
    raises.  The dictionary appended for a match is the one object
    [week_assignments]; it does not change after it is first appended. *)
Fixpoint assign_matches (week_number match_date : string) (ms : list string)
    (combos : list (list string)) (week_assignments : list (string * string))
    (used_table : option string) (L : ledger) (assignments : list assignment)
    : result unit * ledger * list assignment :=
  match ms with
  | [] => (Ok (), L, assignments)
  | match_ :: rest =>
      match used_table with
      | Some _ => (Raise AttributeError, L, assignments)
      | None =>
          match try_combos match_ combos week_assignments used_table L with
          | (Raise e, _, _, L') => (Raise e, L', assignments)
          | (Ok _, week_assignments, used_table, L') =>
              assign_matches week_number match_date rest []
                week_assignments used_table L'
                (assignments ++ [(week_number, match_date, week_assignments)])
          end
      end
  end.

(** [while schedule: week = schedule.pop(0) ...] *)
Fixpoint assign_weeks (schedule : list (list string)) (L : ledger)
    (assignments : list assignment)
    : result (list assignment) * ledger :=
  match schedule with
  | [] => (Ok assignments, L)
  | week :: schedule' =>
      match week with
      | week_number :: match_date :: matches =>
          let available_tables_combo :=
            combinations (length matches) table_pairs in
          match assign_matches week_number match_date matches
                  available_tables_combo [] None L assignments with
          | (Raise e, L', _) => (Raise e, L')
          | (Ok _, L', assignments') => assign_weeks schedule' L' assignments'
          end
      | _ => (Raise (ValueError BadUnpack), L)
      end
  end.

(** [assign_tables(schedule)]: the ledger starts empty. *)
Definition assign_tables (schedule : list (list string))
    : result (list assignment) * ledger :=
  assign_weeks schedule empty_ledger [].

(** A week's dictionary holds at most one match. *)
Definition single (match_ : option string) (wa : list (string * string)) : Prop :=
  wa = [] ∨ ∃ m t, match_ = Some m ∧ wa = [(m, t)].

Definition small (a : assignment) : Prop := (length a.2 ≤ 1)%nat.

(** What a run records for a week: one entry per match, all with the one
    dictionary of the week. *)
Definition entries_of (week : list string) (week_assignments : list (string * string))
    : list assignment :=
  match week with
  | week_number :: match_date :: matches =>
      replicate (length matches) (week_number, match_date, week_assignments)
  | _ => []
  end.

(** No history is longer than the [maxlen] of its deque. *)
Definition bounded (L : ledger) : Prop :=
  ∀ team, (length (history L team) ≤ 20)%nat.

(** No usage count has gone down. *)
Definition counts_grow (L L' : ledger) : Prop :=
  ∀ team table, usage_count L team table ≤ usage_count L' team table.

(** What every step of a run keeps. *)
Definition kept (L L' : ledger) : Prop :=
  (bounded L → bounded L') ∧ counts_grow L L'.

End V0.

(** ** Schedules and configurations used in the examples *)

Module Examples.

(** Two tables, the teams 1 to 4, every [tables_assigned] an empty list. *)
Definition two_tables : list V3.Table := [0%nat; 1%nat].
Definition one_table : list V3.Table := [0%nat].

Definition histories_empty : gmap V3.Team (list V3.Table) :=
  list_to_map [(1%nat, []); (2%nat, []); (3%nat, []); (4%nat, [])].

Definition v3_matches : list V3.Match :=
  [V3.Match_init 1%nat 2%nat; V3.Match_init 3%nat 4%nat].

Definition v3_week (week_id : string) : V3.Week :=
  V3.Week_init week_id v3_matches.

(** A shuffle that reverses the tables and leaves the matches. *)
Definition tables_reversed : V3.shuffles := V3.mkShuffles reverse id.

(** Matches whose [candidate_tables] is a list. *)
Definition v3_matches_listed : list V3.Match :=
  [V3.mkMatch 1%nat 2%nat None (Some []); V3.mkMatch 3%nat 4%nat None (Some [])].

(** Teams 1 and 2 played on table 0, teams 3 and 4 on table 1. *)
Definition histories_after_one : gmap V3.Team (list V3.Table) :=
  list_to_map [(1%nat, [0%nat]); (2%nat, [0%nat]);
               (3%nat, [1%nat]); (4%nat, [1%nat])].

(** A match that holds table 0, its teams with that one entry. *)
Definition v3_played : V3.Match := V3.mkMatch 1%nat 2%nat (Some 0%nat) None.

Definition histories_played : gmap V3.Team (list V3.Table) :=
  list_to_map [(1%nat, [0%nat]); (2%nat, [0%nat])].

(** v1 and v2: the tables "A", "B" and weeks of the matches 1-2 and 3-4. *)
Definition table_A : list V1.Table := [V1.Table_init "A"].
Definition tables_AB : list V1.Table := [V1.Table_init "A"; V1.Table_init "B"].

Definition v2_week_one_match (week_id : Z) : V2.Week :=
  V2.Week_init week_id "d" [V1.Match_init 1 2] V1.ByeNone 2.

Definition v2_week (week_id : Z) : V2.Week :=
  V2.Week_init week_id "d" [V1.Match_init 1 2; V1.Match_init 3 4] V1.ByeNone 4.

Definition v1_week (week_id : Z) : V1.Week :=
  V1.Week_init week_id "d" [V1.Match_init 1 2; V1.Match_init 3 4] V1.ByeNone 4 3.

(** Table "A" after the match 1-2 was played on it. *)
Definition table_A_used : list V1.Table :=
  (V1.assign_table (V1.Match_init 1 2) 0%nat table_A).2.

(** Configurations and schedule files for the manager of v1. *)
Definition config_of (table_ids table_keys : list string) (bye : option V1.bye_id)
    : V1.division_config :=
  V1.mkConfig (Some table_ids) (Some table_keys) None (Some []) bye.

Definition files_of (c : V1.division_config) (lines : list (list string))
    : V1.files :=
  V1.mkFiles (Some {[ "787" := {[ "705" := c ]} ]}) (Some lines).

Definition the_filename : string := "787-2025-01-705-02-Schedule.csv".

(** One table for four teams. *)
Definition files_small_pool : V1.files :=
  files_of (config_of ["A"] ["k1"] None)
           [["1"; "d1"; "1-2"; "3-4"]; ["2"; "d2"; "1-3"; "2-4"]].

(** Five teams and the bye team 6, three tables. *)
Definition files_with_bye : V1.files :=
  files_of (config_of ["A"; "B"; "C"] ["k1"; "k2"; "k3"] (Some (V1.ByeInt 6)))
           [["1"; "d1"; "1-2"; "3-4"; "5-6"]; ["2"; "d2"; "1-3"; "2-5"; "4-6"]].

(** Three teams. *)
Definition files_odd : V1.files :=
  files_of (config_of ["A"; "B"] ["k1"; "k2"] None)
           [["1"; "d1"; "1-2"]; ["2"; "d2"; "1-3"]].

(** Four weeks, three tables. *)
Definition files_four_weeks : V1.files :=
  files_of (config_of ["A"; "B"; "C"] ["k1"; "k2"; "k3"] None)
           [["1"; "d1"; "1-2"]; ["2"; "d2"; "1-2"]; ["3"; "d3"; "1-2"];
            ["4"; "d4"; "1-2"]].

Definition first_week (r : result V1.TableAssignmentManager) : V1.Week :=
  match r with
  | Ok m => default (V1.Week_init 0 EmptyString [] V1.ByeNone 0 0) (head (V1.schedule m))
  | Raise _ => V1.Week_init 0 EmptyString [] V1.ByeNone 0 0
  end.

(** The first assigner: six weeks of the one match 1-2. *)
Definition v0_weeks (n : nat) : list (list string) :=
  (λ i, [pretty i; "d"; "1-2"]) <$> seq 1 n.

(** A week of v2 in which team 4 is the bye team. *)
Definition v2_week_with_bye (week_id : Z) : V2.Week :=
  V2.Week_init week_id "d" [V1.Match_init 1 2; V1.Match_init 3 4]
               (V1.ByeInt 4) 4.

(** Team 1 and the bye team 2, one table. *)
Definition files_only_bye : V1.files :=
  files_of (config_of ["A"] ["k1"] (Some (V1.ByeInt 2)))
           [["1"; "d1"; "1-2"]; ["2"; "d2"; "2-1"]].

(** v3: six teams, two tables; a week "2" of three matches, and a week "1"
    of two. *)
Definition v3_config : V3Manager.division_config :=
  V3Manager.mkConfig (Some ["1"; "2"]) (Some ["A"; "B"])
                     (Some ["1"; "2"; "3"; "4"; "5"; "6"])
                     (Some ["a"; "b"; "c"; "d"; "e"; "f"]) None.

Definition v3_files (lines : list (list string)) : V3Manager.files :=
  V3Manager.mkFiles (Some {[ "787" := {[ "705" := v3_config ]} ]}) (Some lines).

Definition v3_files_crowded : V3Manager.files :=
  v3_files [["2"; "d2"; "1-2"; "3-4"; "5-6"]; ["3"; "No Play"]].

Definition v3_files_first_week : V3Manager.files :=
  v3_files [["1"; "d1"; "1-2"; "3-4"; "7-8"; "5"]].

(** A week of v1 after [calculate_usage_stats] over table "A" used by the
    match 1-2 and a new table "B", given the attribute [tables] and both
    tables available. *)
Definition v1_scoring_week : result unit * V1.Week :=
  let '(r, w) :=
    V1.calculate_usage_stats (v1_week 2) (table_A_used ++ [V1.Table_init "B"])
                             V1.ByeNone in
  (r, V1.set_available_tables [0%nat; 1%nat] (V1.set_attr_tables 2 w)).

End Examples.

(** * Theorems *)

(** ** The file name pattern *)

Section FilenameFacts.
Import Filename.

Lemma take_str_app (d r : string) : take_str (String.length d) (d +:+ r) = d.
Proof. induction d as [|c d IH]; simpl; [by destruct r | by rewrite IH]. Qed.

Lemma drop_str_app (d r : string) : drop_str (String.length d) (d +:+ r) = r.
Proof. induction d as [|c d IH]; simpl; [by destruct r | done]. Qed.

Lemma digit_run_app (d : string) (c : ascii) (r : string) :
  Forall (λ c, is_digit c = true) (String.list_ascii_of_string d) →
  is_digit c = false →
  digit_run (d +:+ String c r) = String.length d.
Proof.
  intros Hd Hc. induction d as [|a d IH]; simpl.
  - by rewrite Hc.
  - simpl in Hd. inversion Hd as [|? ? Ha Hd']; subst.
    rewrite Ha. f_equal. by apply IH.
Qed.

(** A run of digits followed by a character that is no digit is captured
    whole by [(\d+)]. *)
Lemma match_items_digits (rest : list item) (d : string) (c : ascii)
    (r : string) (gs : list string) :
  digits d →
  is_digit c = false →
  match_items rest (String c r) = Some gs →
  match_items (Digits1 :: rest) (d +:+ String c r) = Some (d :: gs).
Proof.
  intros [Hne Hd] Hc Hrest. simpl.
  rewrite digit_run_app by done.
  destruct (String.length d) as [|k] eqn:Hlen.
  { destruct d; [done | discriminate]. }
  rewrite <- Hlen, drop_str_app, Hrest, take_str_app. done.
Qed.

Lemma match_items_lit (rest : list item) (c : ascii) (r : string) :
  match_items (Lit c :: rest) (String c r) = match_items rest r.
Proof. simpl. by rewrite Ascii.eqb_refl. Qed.

Lemma re_match_with_prefix (d1 d2 d3 d4 d5 rest : string) :
  digits d1 → digits d2 → digits d3 → digits d4 → digits d5 →
  re_match (with_prefix d1 d2 d3 d4 d5 rest) = Some [d1; d2; d3; d4; d5].
Proof.
  intros H1 H2 H3 H4 H5. unfold re_match, with_prefix, pattern.
  change ("-Schedule.csv" +:+ rest) with
    (String "-" ("Schedule.csv" +:+ rest)).
  repeat change ("-" +:+ ?s) with (String "-" s).
  cbn [app].
  do 4 (apply match_items_digits; [assumption | reflexivity | ];
        rewrite match_items_lit).
  apply match_items_digits; [assumption | reflexivity | reflexivity].
Qed.

End FilenameFacts.

(** C10. Filename validation is prefix-only: every string that begins with
    digits-digits-digits-digits-digits-Schedule.csv is accepted by
    [parse_filename] and by [validate_filename], whatever follows
    "Schedule.csv", and the result is the five captured digit groups. *)
Theorem filename_prefix_only (d1 d2 d3 d4 d5 rest : string) :
  Filename.digits d1 → Filename.digits d2 → Filename.digits d3 →
  Filename.digits d4 → Filename.digits d5 →
  Filename.parse_filename (Filename.with_prefix d1 d2 d3 d4 d5 rest)
    = Ok [d1; d2; d3; d4; d5] ∧
  Filename.validate_filename (Filename.with_prefix d1 d2 d3 d4 d5 rest)
    = Ok [d1; d2; d3; d4; d5].
Proof.
  intros H1 H2 H3 H4 H5.
  unfold Filename.parse_filename, Filename.validate_filename.
  by rewrite re_match_with_prefix.
Qed.

Lemma filename_prefix_only_witness :
  Filename.parse_filename "787-2025-01-705-02-Schedule.csv.old"
    = Ok ["787"; "2025"; "01"; "705"; "02"] ∧
  Filename.validate_filename "787-2025-01-705-02-Schedule.csv.old"
    = Ok ["787"; "2025"; "01"; "705"; "02"].
Proof.
  apply (filename_prefix_only "787" "2025" "01" "705" "02" ".old");
    (split; [discriminate | repeat constructor]).
Defined.

(** ** Facts about v3 *)

Section V3Facts.
Import V3.

Implicit Types (m : Match) (ms : list Match) (h : histories) (t : Table).

Lemma assigned_unassigned ms : unassigned ms → assigned ms = [].
Proof.
  induction 1 as [|m ms Hm _ IH]; [done|].
  unfold assigned in *. cbn. by rewrite Hm.
Qed.

Lemma pop_Some {A} (l l' : list A) (x : A) :
  pop l = Some (x, l') → l = l' ++ [x].
Proof.
  unfold pop. destruct (reverse l) as [|y r] eqn:E; [done|].
  intros [= -> <-].
  rewrite <- (reverse_involutive l), E. by rewrite reverse_cons.
Qed.

Lemma pop_None {A} (l : list A) : pop l = None → l = [].
Proof.
  unfold pop. destruct (reverse l) as [|y r] eqn:E; [|done].
  intros _. rewrite <- (reverse_involutive l), E. done.
Qed.

Lemma assign_table_match m t h r m' h' :
  assign_table m t h = (r, m', h') →
  m' = set_table_assigned (Some t) m.
Proof.
  unfold assign_table. cbn.
  destruct (tables_assigned_append _ _ h) as [h1|e]; [|by intros [= <- <- <-]].
  destruct (tables_assigned_append _ _ h1) as [h2|e]; by intros [= <- <- <-].
Qed.

(** The first-week loop hands out tables from the end of the list, each
    once. *)
Lemma assign_first_week_assigned ms : ∀ available h r ms' h',
  unassigned ms →
  NoDup available →
  assign_first_week ms available h = (r, ms', h') →
  NoDup (assigned ms') ∧ assigned ms' ⊆ available.
Proof.
  induction ms as [|m ms IH]; intros available h r ms' h' Hfresh Hnd; cbn.
  { intros [= <- <- <-]. split; [constructor | set_solver]. }
  apply Forall_cons in Hfresh as [Hm Hfresh].
  destruct (pop available) as [[t available']|] eqn:Hpop.
  2:{ intros [= <- <- <-]. rewrite assigned_unassigned.
      - split; [constructor | set_solver].
      - by constructor. }
  apply pop_Some in Hpop as ->.
  apply NoDup_app in Hnd as (Hnd & Hnot & _).
  destruct (assign_table m t h) as [[r1 m1] h1] eqn:Hat.
  apply assign_table_match in Hat as ->.
  destruct r1 as [[]|e].
  - destruct (assign_first_week ms available' h1) as [[r2 ms2] h2] eqn:Hrec.
    intros [= <- <- <-].
    destruct (IH _ _ _ _ _ Hfresh Hnd Hrec) as [IH1 IH2].
    unfold assigned in *. cbn. split.
    + constructor; [|done]. intros Hin. apply IH2 in Hin.
      apply (Hnot t Hin). apply list_elem_of_here.
    + intros x [->|Hx]%elem_of_cons; apply elem_of_app;
        [right; apply list_elem_of_here | left; by apply IH2].
  - intros [= <- <- <-]. unfold assigned. cbn.
    fold (assigned ms). rewrite assigned_unassigned by done.
    split; [apply NoDup_singleton|].
    intros x ->%list_elem_of_singleton. apply elem_of_app. right.
    apply list_elem_of_here.
Qed.

Lemma same_but_candidates_refl ms : same_but_candidates ms ms.
Proof. unfold same_but_candidates. induction ms; constructor; auto. Qed.

Lemma same_but_candidates_trans ms1 ms2 ms3 :
  same_but_candidates ms1 ms2 → same_but_candidates ms2 ms3 →
  same_but_candidates ms1 ms3.
Proof.
  unfold same_but_candidates. intros H12. revert ms3.
  induction H12 as [|a b l1 l2 (?&?&?) _ IH]; intros ms3 H23;
    inversion H23 as [|? c ? l3 (?&?&?) ?]; subst; constructor.
  - repeat split; congruence.
  - by apply IH.
Qed.

Lemma same_but_candidates_unassigned ms ms' :
  same_but_candidates ms ms' → unassigned ms → unassigned ms'.
Proof.
  unfold unassigned. induction 1 as [|a b l1 l2 (?&?&?) _ IH]; [done|].
  intros [? ?]%Forall_cons. constructor; [congruence | auto].
Qed.

Lemma same_but_candidates_assigned ms ms' :
  same_but_candidates ms ms' → assigned ms' = assigned ms.
Proof.
  unfold assigned. induction 1 as [|a b l1 l2 (?&?&Ht) _ IH]; [done|].
  cbn. by rewrite Ht, IH.
Qed.

Lemma populate_same h ms : ∀ perm r ms',
  populate_match_candidate_tables h ms perm = (r, ms') →
  same_but_candidates ms ms'.
Proof.
  induction ms as [|m ms IH]; intros perm r ms'; cbn.
  { intros [= <- <-]. constructor. }
  destruct perm as [|t perm].
  { intros [= <- <-]. apply same_but_candidates_refl. }
  destruct (repeats h m t).
  { intros [= <- <-]. apply same_but_candidates_refl. }
  unfold assign_candidate_table.
  destruct (candidate_tables m) as [c|]; cbn.
  2:{ intros [= <- <-]. apply same_but_candidates_refl. }
  destruct (populate_match_candidate_tables h ms perm) as [r1 ms1] eqn:Hrec.
  intros [= <- <-]. constructor; [done | by eapply IH].
Qed.

Lemma get_permutations_same h perms : ∀ ms r ms',
  get_permutations h ms perms = (r, ms') → same_but_candidates ms ms'.
Proof.
  induction perms as [|p perms IH]; intros ms r ms'; cbn.
  { intros [= <- <-]. apply same_but_candidates_refl. }
  destruct (populate_match_candidate_tables h ms p) as [r1 ms1] eqn:Hp.
  apply populate_same in Hp.
  destruct r1 as [[]|e]; try by intros [= <- <-].
  intros Hrec. eapply same_but_candidates_trans; [done | by eapply IH].
Qed.

(** Nothing to reset where nothing is assigned. *)
Lemma reset_assignments_unassigned ms h :
  unassigned ms → reset_assignments ms h = (Ok (), ms, h).
Proof.
  induction 1 as [|m ms Hm _ IH]; cbn; [done|]. by rewrite Hm, IH.
Qed.

(** After a reset that returns, no match holds a table. *)
Lemma reset_assignments_clears ms : ∀ h ms' h',
  reset_assignments ms h = (Ok (), ms', h') → unassigned ms'.
Proof.
  induction ms as [|m ms IH]; intros h ms' h'; cbn.
  { intros [= <- <-]. constructor. }
  destruct (table_assigned m) eqn:Hm.
  - destruct (remove_table m h) as [[r1 m1] h1] eqn:Hrm.
    destruct r1 as [[]|e]; [|done].
    destruct (reset_assignments ms h1) as [[r2 ms2] h2] eqn:Hrec.
    intros [= -> <- <-]. constructor; [|by eapply IH].
    unfold remove_table in Hrm. cbn in Hrm.
    destruct (tables_assigned_pop _ h) as [h3|]; [|done].
    destruct (tables_assigned_pop _ h3) as [h4|]; [|done].
    by injection Hrm as <- <-.
  - destruct (reset_assignments ms h) as [[r2 ms2] h2] eqn:Hrec.
    intros [= -> <- <-]. constructor; [done | by eapply IH].
Qed.

Lemma assign_tables_to_matches_unassigned w ms tables h r ms' h' :
  unassigned ms →
  assign_tables_to_matches w ms tables h = (r, ms', h') →
  unassigned ms' ∧ h' = h.
Proof.
  intros Hfresh. unfold assign_tables_to_matches.
  destruct (max_usage_per_table w tables); [|by intros [= <- <- <-]].
  destruct (get_permutations h ms _) as [r1 ms1] eqn:Hgp.
  apply get_permutations_same in Hgp.
  pose proof (same_but_candidates_unassigned _ _ Hgp Hfresh) as Hfresh1.
  destruct r1 as [[]|e]; try by intros [= <- <- <-].
  rewrite reset_assignments_unassigned by done.
  by intros [= <- <- <-].
Qed.

(** Exclusivity in v3, whatever the outcome of the call. *)
Lemma v3_assign_tables_exclusive rnd w tables h r w' h' :
  fair rnd → NoDup tables → unassigned (matches w) →
  assign_tables rnd w tables h = (r, w', h') →
  NoDup (assigned (matches w')).
Proof.
  intros [Hft Hfm] Hnd Hfresh. unfold assign_tables.
  destruct (String.eqb (week_id w) "1").
  - cbn.
    destruct (assign_first_week _ _ h) as [[r1 ms1] h1] eqn:Hfw.
    intros [= <- <- <-]. cbn.
    eapply assign_first_week_assigned in Hfw as [? _]; [done | |].
    + unfold unassigned. by rewrite Hfm.
    + by rewrite Hft.
  - destruct (assign_tables_to_matches w _ tables h) as [[r1 ms1] h1] eqn:Ha.
    intros [= <- <- <-]. cbn.
    apply assign_tables_to_matches_unassigned in Ha as [Hu _]; [|done].
    rewrite assigned_unassigned by done. constructor.
Qed.

(** A permutation accepted by [populate_match_candidate_tables] pairs no
    match with the table one of its teams was assigned last. *)
Lemma populate_accepts h ms : ∀ perm ms',
  populate_match_candidate_tables h ms perm = (Ok true, ms') →
  Forall (λ p, repeats h p.1 p.2 = false) (zip ms perm).
Proof.
  induction ms as [|m ms IH]; intros perm ms'; cbn; [constructor|].
  destruct perm as [|t perm]; [constructor|].
  destruct (repeats h m t) eqn:Hrep; [done|].
  destruct (assign_candidate_table m t); [|done].
  destruct (populate_match_candidate_tables h ms perm) as [r1 ms1] eqn:Hrec.
  intros [= -> <-]. constructor; [done | by eapply IH].
Qed.

Lemma repeats_same h ms ms' perm :
  same_but_candidates ms ms' →
  Forall (λ p, repeats h p.1 p.2 = false) (zip ms' perm) →
  Forall (λ p, repeats h p.1 p.2 = false) (zip ms perm).
Proof.
  intros Hs. revert perm.
  induction Hs as [|a b l1 l2 (Hh&Ha&_) _ IH]; intros perm; [done|].
  destruct perm as [|t perm]; [done|]. cbn.
  intros [Hb ?]%Forall_cons. constructor; [|by apply IH].
  unfold repeats in *. cbn in *. by rewrite <- Hh, <- Ha.
Qed.

Lemma get_permutations_accepts h perms : ∀ ms ms',
  get_permutations h ms perms = (Ok true, ms') →
  ∃ perm, perm ∈ perms ∧
          Forall (λ p, repeats h p.1 p.2 = false) (zip ms perm).
Proof.
  induction perms as [|p perms IH]; intros ms ms'; cbn; [done|].
  destruct (populate_match_candidate_tables h ms p) as [r1 ms1] eqn:Hp.
  destruct r1 as [[]|e]; [| |done].
  - intros _. exists p. split; [set_solver|]. by eapply populate_accepts.
  - intros Hrec. apply populate_same in Hp.
    destruct (IH _ _ Hrec) as (perm & Hin & Hok).
    exists perm. split; [set_solver|]. by eapply repeats_same.
Qed.

End V3Facts.

(** ** Facts about the greedy assigners of v1 and v2 *)

Section ResultFacts.

Lemma mapM_Ok_fst {A B} (g : A → result B) (l : list A) : ∀ l',
  mapM (λ a, s ← g a; Ok (a, s)) l = Ok l' → l'.*1 = l.
Proof.
  induction l as [|a l IH]; intros l'; cbn.
  { by intros [= <-]. }
  destruct (g a) as [s|e]; cbn; [|done].
  destruct (mapM _ l) as [k|e]; cbn; [|done].
  intros [= <-]. cbn. f_equal. by apply IH.
Qed.

End ResultFacts.

Section V1Facts.
Import V1.

Implicit Types (m : Match) (ms : list Match) (w self : Week)
  (tables : list Table).

Lemma v1_assigned_unassigned ms : V1.unassigned ms → assigned ms = [].
Proof.
  induction 1 as [|m ms Hm _ IH]; [done|].
  unfold assigned in *. cbn. by rewrite Hm.
Qed.

Lemma min_by_score_in (rest : list (TableRef * score)) : ∀ x,
  min_by_score x rest ∈ x :: rest.
Proof.
  unfold min_by_score.
  induction rest as [|y rest IH]; intros x; cbn; [set_solver|].
  destruct (score_lt y.2 x.2).
  - apply list_elem_of_further, IH.
  - pose proof (IH x) as [->|Hin]%elem_of_cons.
    + apply list_elem_of_here.
    + by do 2 apply list_elem_of_further.
Qed.

(** The best table is one of the available tables. *)
Lemma table_scores_fst self m bye ideal tables scores :
  table_scores self m bye ideal tables = Ok scores →
  scores = [] ∨ scores.*1 = available_tables self.
Proof.
  unfold table_scores. destruct (bye_match bye m).
  - intros [= <-]. by left.
  - intros ?%mapM_Ok_fst. by right.
Qed.

Lemma v1_find_best_table_in self m bye tables t :
  find_best_table self m bye tables = Ok (Some t) →
  t ∈ available_tables self.
Proof.
  unfold find_best_table.
  destruct (available_tables self) as [|a av] eqn:Hav; [done|].
  destruct (ideal_usage_per_table self) as [ideal|e]; cbn; [|done].
  destruct (table_scores self m bye ideal tables) as [scores|e] eqn:Hs;
    cbn; [|done].
  apply table_scores_fst in Hs as [->|Hs]; [done|].
  destruct scores as [|x rest]; [done|].
  intros [= <-]. rewrite <- Hav, <- Hs.
  apply (list_elem_of_fmap_2 fst), min_by_score_in.
Qed.

Lemma v1_assign_matches_exclusive ms : ∀ self tables r self' ms' tables',
  V1.unassigned ms →
  NoDup (available_tables self) →
  assign_matches self ms tables = (r, self', ms', tables') →
  NoDup (assigned ms') ∧ assigned ms' ⊆ available_tables self.
Proof.
  induction ms as [|m ms IH]; intros self tables r self' ms' tables' Hfresh Hnd;
    cbn.
  { intros [= <- <- <- <-]. split; [constructor | set_solver]. }
  pose proof Hfresh as Hall.
  apply Forall_cons in Hfresh as [Hm Hfresh].
  destruct (bye_match (bye_team_id self) m).
  { destruct (assign_matches self ms tables) as [[[r1 s1] ms1] t1] eqn:Hrec.
    intros [= <- <- <- <-].
    destruct (IH _ _ _ _ _ _ Hfresh Hnd Hrec) as [IH1 IH2].
    unfold assigned in *. cbn. by rewrite Hm. }
  destruct (find_best_table self m _ tables) as [[best|]|e] eqn:Hbest.
  - apply v1_find_best_table_in in Hbest.
    destruct (assign_matches _ ms _) as [[[r1 s1] ms1] t1] eqn:Hrec.
    intros [= <- <- <- <-].
    apply IH in Hrec as [IH1 IH2]; [|done|by apply NoDup_filter].
    cbn in IH2. unfold assigned in *. cbn. split.
    + constructor; [|done]. intros Hin. apply IH2 in Hin.
      apply list_elem_of_filter in Hin as [? _]. done.
    + intros x [->|Hx]%elem_of_cons; [done|].
      apply IH2 in Hx. by apply list_elem_of_filter in Hx as [_ ?].
  - intros [= <- <- <- <-]. rewrite v1_assigned_unassigned by done.
    split; [constructor | set_solver].
  - intros [= <- <- <- <-]. rewrite v1_assigned_unassigned by done.
    split; [constructor | set_solver].
Qed.

(** Exclusivity in v1, whatever the outcome of the call. *)
Lemma v1_assign_tables_exclusive set_order w tables r w' tables' :
  enumerates set_order → V1.unassigned (matches w) →
  assign_tables set_order w tables = (r, w', tables') →
  NoDup (assigned (matches w')).
Proof.
  intros Henum Hfresh. unfold assign_tables.
  destruct (assign_matches _ _ tables) as [[[r1 s1] ms1] t1] eqn:Hrec.
  intros [= <- <- <-]. cbn.
  apply v1_assign_matches_exclusive in Hrec as [? _]; [done|done|].
  cbn. rewrite (Henum _). apply NoDup_seq.
Qed.

End V1Facts.

Section V2Facts.
Import V2.

Implicit Types (m : Match) (ms : list Match) (w self : Week)
  (tables : list Table).

Lemma best_of_in tables m valid : ∀ best t,
  best_of tables m best valid = Ok (Some t) →
  t ∈ valid ∨ ∃ s, best = Some (t, s).
Proof.
  induction valid as [|a valid IH]; intros best t; cbn.
  { destruct best as [[b s]|]; cbn; [|done]. intros [= <-]. eauto. }
  destruct (table_value _ m) as [v|e]; cbn; [|done].
  destruct best as [[b s]|].
  - destruct (V1.score_lt v s).
    + intros [?|[? [= <- <-]]]%IH; [left|left]; set_solver.
    + intros [?|[? [= <- <-]]]%IH; [left; set_solver | eauto].
  - intros [?|[? [= <- <-]]]%IH; left; set_solver.
Qed.

Lemma v2_find_best_table_in self m tables t :
  find_best_table self m tables = Ok (Some t) →
  t ∈ available_tables self.
Proof.
  unfold find_best_table.
  destruct (available_tables self) as [|a av] eqn:Hav; [done|].
  intros [?|[? [=]]]%best_of_in. done.
Qed.

(** With a table available and no exception, a table is found. *)
Lemma best_of_Some tables m valid : ∀ best r,
  best_of tables m best valid = Ok r →
  (valid ≠ [] ∨ is_Some best) → is_Some r.
Proof.
  induction valid as [|a valid IH]; intros best r; cbn.
  { intros [= <-] [?|[? ->]]; [done | by eexists]. }
  destruct (table_value _ m) as [v|e]; cbn; [|done].
  destruct best as [[b s]|]; [destruct (V1.score_lt v s)|];
    intros Hr _; eapply IH; eauto.
Qed.

Lemma v2_assign_matches_exclusive ms : ∀ self tables r self' ms' tables',
  V1.unassigned ms →
  NoDup (available_tables self) →
  assign_matches self ms tables = (r, self', ms', tables') →
  NoDup (V1.assigned ms') ∧ V1.assigned ms' ⊆ available_tables self.
Proof.
  induction ms as [|m ms IH]; intros self tables r self' ms' tables' Hfresh Hnd;
    cbn.
  { intros [= <- <- <- <-]. split; [constructor | set_solver]. }
  pose proof Hfresh as Hall.
  apply Forall_cons in Hfresh as [Hm Hfresh].
  destruct (V1.bye_match (bye_team_id self) m).
  { destruct (assign_matches self ms tables) as [[[r1 s1] ms1] t1] eqn:Hrec.
    intros [= <- <- <- <-].
    destruct (IH _ _ _ _ _ _ Hfresh Hnd Hrec) as [IH1 IH2].
    unfold V1.assigned in *. cbn. by rewrite Hm. }
  destruct (find_best_table self m tables) as [[best|]|e] eqn:Hbest.
  - apply v2_find_best_table_in in Hbest.
    destruct (assign_matches _ ms _) as [[[r1 s1] ms1] t1] eqn:Hrec.
    intros [= <- <- <- <-].
    apply IH in Hrec as [IH1 IH2]; [|done|by apply NoDup_filter].
    cbn in IH2. unfold V1.assigned in *. cbn. split.
    + constructor; [|done]. intros Hin. apply IH2 in Hin.
      apply list_elem_of_filter in Hin as [? _]. done.
    + intros x [->|Hx]%elem_of_cons; [done|].
      apply IH2 in Hx. by apply list_elem_of_filter in Hx as [_ ?].
  - intros [= <- <- <- <-]. rewrite v1_assigned_unassigned by done.
    split; [constructor | set_solver].
  - intros [= <- <- <- <-]. rewrite v1_assigned_unassigned by done.
    split; [constructor | set_solver].
Qed.

(** Exclusivity in v2, whatever the outcome of the call. *)
Lemma v2_assign_tables_exclusive set_order w tables r w' tables' :
  enumerates set_order → V1.unassigned (matches w) →
  assign_tables set_order w tables = (r, w', tables') →
  NoDup (V1.assigned (matches w')).
Proof.
  intros Henum Hfresh. unfold assign_tables.
  destruct (assign_matches _ _ tables) as [[[r1 s1] ms1] t1] eqn:Hrec.
  intros [= <- <- <-]. cbn.
  apply v2_assign_matches_exclusive in Hrec as [? _]; [done|done|].
  cbn. rewrite (Henum _). apply NoDup_seq.
Qed.

End V2Facts.

(** ** Facts about the first assigner *)

Section V0Facts.
Import V0.

Lemma dict_set_single m t wa :
  single (Some m) wa → dict_set m t wa = [(m, t)].
Proof.
  intros [->|(m0 & t0 & [= <-] & ->)]; cbn; [done|].
  by rewrite String.eqb_refl.
Qed.

Lemma try_combos_single m combos : ∀ wa used L r wa' used' L',
  try_combos m combos wa used L = (r, wa', used', L') →
  single (Some m) wa → (used = None → wa = []) →
  single (Some m) wa' ∧ (used' = None → wa' = []).
Proof.
  induction combos as [|combo combos IH]; intros wa used L r wa' used' L'; cbn.
  { by intros [= <- <- <- <-]. }
  destruct (try_combo m combo L) as [[[table|]|e] L1].
  - intros Hrec Hs _. eapply IH in Hrec; [done| |done].
    rewrite dict_set_single by done. right. eauto.
  - intros Hrec Hs Hu. by eapply IH in Hrec.
  - by intros [= <- <- <- <-].
Qed.

Lemma single_small o wn md wa : single o wa → small (wn, md, wa).
Proof. unfold small. intros [->|(? & ? & _ & ->)]; cbn; lia. Qed.

Lemma assign_matches_small wn md ms : ∀ combos wa used L acc L' acc',
  assign_matches wn md ms combos wa used L acc = (Ok (), L', acc') →
  (used = None → wa = []) →
  Forall small acc → Forall small acc'.
Proof.
  induction ms as [|m ms IH]; intros combos wa used L acc L' acc'; cbn.
  { by intros [= <- <-]. }
  destruct used as [t|]; [done|].
  intros Hrun Hwa Hacc. rewrite (Hwa eq_refl) in Hrun.
  destruct (try_combos m combos [] None L) as [[[r1 wa1] used1] L1] eqn:Htc.
  destruct r1 as [[]|e]; [|done].
  apply try_combos_single in Htc as [Hs Hu]; [|by left|done].
  eapply IH in Hrun; [done|done|].
  apply Forall_app. split; [done|].
  constructor; [|done]. by eapply single_small.
Qed.

Lemma assign_weeks_small schedule : ∀ L acc r L',
  assign_weeks schedule L acc = (Ok r, L') →
  Forall small acc → Forall small r.
Proof.
  induction schedule as [|week schedule IH]; intros L acc r L'; cbn.
  { by intros [= <- <-]. }
  destruct week as [|wn [|md ms]]; [done|done|].
  destruct (assign_matches wn md ms _ [] None L acc) as [[r1 L1] acc1] eqn:Ham.
  destruct r1 as [[]|e]; [|done].
  intros Hrec Hacc. eapply IH; [done|].
  by eapply assign_matches_small.
Qed.

(** Exclusivity in the first assigner: a recorded week never holds two
    matches, so no table twice. *)
Lemma v0_assign_tables_exclusive schedule assignments L :
  assign_tables schedule = (Ok assignments, L) →
  Forall (λ a : assignment, NoDup (a.2.*2)) assignments.
Proof.
  intros Hrun. apply assign_weeks_small in Hrun; [|constructor].
  eapply Forall_impl; [done|].
  intros [[wn md] wa]. unfold small. cbn.
  destruct wa as [|[m t] [|? ?]]; cbn; intros ?;
    [constructor | apply NoDup_singleton | lia].
Qed.

End V0Facts.

(** ** The ledger of v1 and v2 only grows *)

Section LedgerFacts.
Import V1.

Implicit Types (t : Table) (tables : list Table).

Lemma get_usage_add_team t team team' :
  get_usage (add_team team t) team' =
    if decide (team = team') then get_usage t team + 1 else get_usage t team'.
Proof.
  unfold get_usage at 1, add_team. cbn.
  rewrite lookup_insert. by destruct (decide (team = team')) as [->|].
Qed.

Lemma grows1_refl t : grows1 t t.
Proof. repeat split; [lia | done]. Qed.

Lemma grows1_trans t1 t2 t3 : grows1 t1 t2 → grows1 t2 t3 → grows1 t1 t3.
Proof.
  intros (? & H1 & ?) (? & H2 & ?). repeat split.
  - congruence.
  - intros team. specialize (H1 team). specialize (H2 team). lia.
  - by etrans.
Qed.

Lemma grows1_add_team team t : grows1 t (add_team team t).
Proof.
  repeat split.
  - intros team'. rewrite get_usage_add_team. case_decide; subst; lia.
  - by apply prefix_app_r.
Qed.

Lemma grows_refl tables : grows tables tables.
Proof. apply Forall_Forall2_diag, Forall_forall. intros. apply grows1_refl. Qed.

Lemma grows_trans tables1 tables2 tables3 :
  grows tables1 tables2 → grows tables2 tables3 → grows tables1 tables3.
Proof. apply Forall2_trans. apply grows1_trans. Qed.

Lemma grows_length tables tables' : grows tables tables' → length tables' = length tables.
Proof. intros H. symmetry. by eapply Forall2_length. Qed.

Lemma assign_table_grows m table tables :
  grows tables (assign_table m table tables).2.
Proof.
  cbn. apply Forall2_alter_r; [apply grows_refl|].
  intros x y _ _ Hxy. eapply grows1_trans; [done|].
  eapply grows1_trans; apply grows1_add_team.
Qed.

Lemma v1_assign_matches_grows ms : ∀ self tables,
  grows tables (assign_matches self ms tables).2.
Proof.
  induction ms as [|m ms IH]; intros self tables; cbn; [apply grows_refl|].
  destruct (bye_match (bye_team_id self) m).
  { specialize (IH self tables).
    by destruct (assign_matches self ms tables) as [[[? ?] ?] ?]. }
  destruct (find_best_table self m _ tables) as [[best|]|e];
    cbn; try apply grows_refl.
  match goal with |- context [assign_matches ?s ms ?t] =>
    specialize (IH s t); destruct (assign_matches s ms t) as [[[? ?] ?] ?] end.
  cbn in *. eapply grows_trans; [|done].
  apply (assign_table_grows m best tables).
Qed.

Lemma v1_assign_tables_grows set_order w tables :
  grows tables (assign_tables set_order w tables).2.
Proof.
  unfold assign_tables.
  match goal with |- context [assign_matches ?s ?ms ?t] =>
    pose proof (v1_assign_matches_grows ms s t);
    destruct (assign_matches s ms t) as [[[? ?] ?] ?] end.
  done.
Qed.

Lemma v1_assign_week_grows set_order bye w tables :
  grows tables (assign_week set_order bye w tables).2.
Proof.
  unfold assign_week.
  destruct (calculate_usage_stats w tables bye) as [[[]|e] w1];
    cbn; [|apply grows_refl].
  apply v1_assign_tables_grows.
Qed.

Lemma v1_assign_weeks_grows set_order bye weeks : ∀ i tables,
  grows tables (assign_weeks set_order i bye weeks tables).2.
Proof.
  induction weeks as [|w weeks IH]; intros i tables; cbn; [apply grows_refl|].
  pose proof (v1_assign_week_grows (set_order i) bye w tables) as H1.
  destruct (assign_week (set_order i) bye w tables) as [[[[]|e] w2] t2];
    cbn in *; [|done].
  specialize (IH (S i) t2).
  destruct (assign_weeks set_order (S i) bye weeks t2) as [[? ?] ?].
  cbn in *. by eapply grows_trans.
Qed.

Lemma v2_assign_matches_grows ms : ∀ self tables,
  grows tables (V2.assign_matches self ms tables).2.
Proof.
  induction ms as [|m ms IH]; intros self tables; cbn; [apply grows_refl|].
  destruct (bye_match (V2.bye_team_id self) m).
  { specialize (IH self tables).
    by destruct (V2.assign_matches self ms tables) as [[[? ?] ?] ?]. }
  destruct (V2.find_best_table self m tables) as [[best|]|e];
    cbn; try apply grows_refl.
  match goal with |- context [V2.assign_matches ?s ms ?t] =>
    specialize (IH s t); destruct (V2.assign_matches s ms t) as [[[? ?] ?] ?] end.
  cbn in *. eapply grows_trans; [|done].
  apply (assign_table_grows m best tables).
Qed.

Lemma v2_assign_tables_grows set_order w tables :
  grows tables (V2.assign_tables set_order w tables).2.
Proof.
  unfold V2.assign_tables.
  match goal with |- context [V2.assign_matches ?s ?ms ?t] =>
    pose proof (v2_assign_matches_grows ms s t);
    destruct (V2.assign_matches s ms t) as [[[? ?] ?] ?] end.
  done.
Qed.

Lemma v2_assign_weeks_grows set_order weeks : ∀ i tables,
  grows tables (V2.assign_weeks set_order i weeks tables).2.
Proof.
  induction weeks as [|w weeks IH]; intros i tables; cbn; [apply grows_refl|].
  pose proof (v2_assign_tables_grows (set_order i) w tables) as H1.
  destruct (V2.assign_tables (set_order i) w tables) as [[[[]|e] w2] t2];
    cbn in *; [|done].
  specialize (IH (S i) t2).
  destruct (V2.assign_weeks set_order (S i) weeks t2) as [[? ?] ?].
  cbn in *. by eapply grows_trans.
Qed.

End LedgerFacts.

(** ** The first exception ends the run of v2 *)

Section V2Run.
Import V2.

Lemma v2_assign_weeks_stops set_order weeks : ∀ i tables e weeks' tables',
  assign_weeks set_order i weeks tables = (Raise e, weeks', tables') →
  ∃ done week rest done' week' tables_k,
    weeks = done ++ week :: rest ∧ weeks' = done' ++ week' :: rest ∧
    assign_weeks set_order i done tables = (Ok (), done', tables_k) ∧
    assign_tables (set_order (i + length done)%nat) week tables_k
      = (Raise e, week', tables').
Proof.
  induction weeks as [|w weeks IH]; intros i tables e weeks' tables'; cbn;
    [done|].
  destruct (assign_tables (set_order i) w tables) as [[[[]|e1] w1] t1] eqn:Hw.
  - destruct (assign_weeks set_order (S i) weeks t1) as [[r2 ws2] t2] eqn:Hrec.
    intros [= -> <- <-].
    destruct (IH _ _ _ _ _ Hrec)
      as (done & week & rest & done' & week' & tk & -> & -> & Hd & Hk).
    exists (w :: done), week, rest, (w1 :: done'), week', tk.
    repeat split; [|].
    + cbn. by rewrite Hw, Hd.
    + cbn. by rewrite Nat.add_succ_r.
  - intros [= <- <- <-].
    exists [], w, weeks, [], w1, tables. repeat split.
    cbn. by rewrite Nat.add_0_r.
Qed.

Lemma count_back_raises team l e : count_back team l = Raise e → e = IndexError.
Proof.
  induction l as [|x l IH]; cbn; [by intros [= <-]|].
  case_bool_decide; [|done].
  destruct (count_back team l); cbn; [done|]. intros [= <-]. by apply IH.
Qed.

Lemma table_value_raises t m e : table_value t m = Raise e → e = IndexError.
Proof.
  unfold table_value, was_recently_used_by.
  destruct (V1.last_used_by t) as [|x l]; cbn; [done|].
  destruct (count_back (V1.home_team m) _) eqn:Hh; cbn.
  - destruct (count_back (V1.away_team m) _) eqn:Ha; cbn; [done|].
    intros [= <-]. by eapply count_back_raises.
  - intros [= <-]. by eapply count_back_raises.
Qed.

Lemma best_of_raises tables m valid : ∀ best e,
  best_of tables m best valid = Raise e → e = IndexError.
Proof.
  induction valid as [|a valid IH]; intros best e; cbn; [done|].
  destruct (table_value _ m) as [v|e1] eqn:Hv; cbn.
  - destruct best as [[b s]|]; [destruct (V1.score_lt v s)|]; apply IH.
  - intros [= <-]. by eapply table_value_raises.
Qed.

Lemma v2_find_best_table_raises self m tables e :
  find_best_table self m tables = Raise e → e = IndexError.
Proof.
  unfold find_best_table. destruct (available_tables self); [done|].
  apply best_of_raises.
Qed.

(** The [ValueError] of a week names that week and one of its matches. *)
Lemma v2_assign_matches_names ms : ∀ self tables h a k self' ms' tables',
  assign_matches self ms tables
    = (Raise (ValueError (NoAvailableTable h a k)), self', ms', tables') →
  k = week_id self ∧
  ∃ m, m ∈ ms ∧ V1.home_team m = h ∧ V1.away_team m = a
       ∧ V1.bye_match (bye_team_id self) m = false.
Proof.
  induction ms as [|m ms IH]; intros self tables h a k self' ms' tables'; cbn;
    [done|].
  destruct (V1.bye_match (bye_team_id self) m) eqn:Hbye.
  { destruct (assign_matches self ms tables) as [[[r1 s1] ms1] t1] eqn:Hrec.
    intros [= -> <- <- <-].
    apply IH in Hrec as (-> & m' & ? & ? & ? & ?).
    split; [done|]. exists m'. by split; [apply list_elem_of_further|]. }
  destruct (find_best_table self m tables) as [[best|]|e] eqn:Hbest.
  - destruct (assign_matches _ ms _) as [[[r1 s1] ms1] t1] eqn:Hrec.
    intros [= -> <- <- <-].
    apply IH in Hrec as (-> & m' & ? & ? & ? & ?).
    split; [done|]. exists m'. by split; [apply list_elem_of_further|].
  - intros [= <- <- <- <- <- <-]. split; [done|]. exists m.
    by split; [apply list_elem_of_here|].
  - apply v2_find_best_table_raises in Hbest as ->. done.
Qed.

Lemma v2_assign_tables_names set_order w tables h a k w' tables' :
  assign_tables set_order w tables
    = (Raise (ValueError (NoAvailableTable h a k)), w', tables') →
  k = week_id w ∧
  ∃ m, m ∈ matches w ∧ V1.home_team m = h ∧ V1.away_team m = a
       ∧ V1.bye_match (bye_team_id w) m = false.
Proof.
  unfold assign_tables.
  destruct (assign_matches _ _ tables) as [[[r1 s1] ms1] t1] eqn:Hrec.
  intros [= -> <- <-]. by apply v2_assign_matches_names in Hrec.
Qed.

End V2Run.

(** ** Facts about v1: the missing attribute and the manager *)

Section V1Run.
Import V1.

Implicit Types (m : Match) (ms : list Match) (w self : Week)
  (tables : list Table).

Lemma mapM_Ok_Forall2 {A B} (f : A → result B) (l : list A) : ∀ k,
  mapM f l = Ok k → Forall2 (λ a b, f a = Ok b) l k.
Proof.
  induction l as [|a l IH]; intros k; cbn.
  { intros [= <-]. constructor. }
  destruct (f a) as [b|e] eqn:Hb; cbn; [|done].
  destruct (mapM f l) as [k1|e]; cbn; [|done].
  intros [= <-]. constructor; [done | by apply IH].
Qed.

Lemma v1_find_best_table_no_attr self m bye tables :
  attr_tables self = None → available_tables self ≠ [] →
  find_best_table self m bye tables = Raise AttributeError.
Proof.
  intros Hattr Hav. unfold find_best_table, ideal_usage_per_table.
  destruct (available_tables self); [done|]. by rewrite Hattr.
Qed.

Lemma v1_assign_matches_fails ms : ∀ self tables,
  attr_tables self = None → plays (bye_team_id self) ms →
  ∃ e, assign_matches self ms tables = (Raise e, self, ms, tables)
       ∧ (available_tables self ≠ [] → e = AttributeError).
Proof.
  induction ms as [|m ms IH]; intros self tables Hattr Hplays.
  { by apply Exists_nil in Hplays. }
  cbn. destruct (bye_match (bye_team_id self) m) eqn:Hbye.
  - apply Exists_cons in Hplays as [Hm|Hplays]; [congruence|].
    destruct (IH self tables Hattr Hplays) as (e & -> & He). eauto.
  - destruct (available_tables self) as [|a av] eqn:Hav.
    + unfold find_best_table. rewrite Hav. by eexists.
    + rewrite v1_find_best_table_no_attr by (by rewrite ?Hav). by eexists.
Qed.

Lemma v1_assign_tables_fails set_order w tables :
  attr_tables w = None → plays (bye_team_id w) (matches w) →
  ∃ e w', assign_tables set_order w tables = (Raise e, w', tables)
          ∧ matches w' = matches w
          ∧ (enumerates set_order → tables ≠ [] → e = AttributeError).
Proof.
  intros Hattr Hplays. unfold assign_tables.
  match goal with |- context [assign_matches ?s ?ms ?t] =>
    destruct (v1_assign_matches_fails ms s t) as (e & -> & He); [done..|] end.
  eexists _, _. repeat split. intros Henum Hne. apply He. cbn.
  intros Hnil. apply Hne. apply length_zero_iff_nil.
  apply (f_equal length) in Hnil. rewrite (Henum _), length_seq in Hnil.
  by destruct tables.
Qed.

Lemma calculate_usage_stats_keeps w tables bye r w' :
  calculate_usage_stats w tables bye = (r, w') →
  attr_tables w' = attr_tables w ∧ matches w' = matches w
  ∧ bye_team_id w' = bye_team_id w.
Proof.
  unfold calculate_usage_stats.
  destruct (least_used_all _ _ _ _) as [r1 least]. by intros [= <- <-].
Qed.

Lemma v1_assign_week_fails set_order bye w tables :
  attr_tables w = None → plays (bye_team_id w) (matches w) →
  ∃ e, (assign_week set_order bye w tables).1.1 = Raise e.
Proof.
  intros Hattr Hplays. unfold assign_week.
  destruct (calculate_usage_stats w tables bye) as [[[]|e] w1] eqn:Hc;
    [|by eexists].
  apply calculate_usage_stats_keeps in Hc as (Ha & Hm & Hb).
  destruct (v1_assign_tables_fails set_order w1 tables)
    as (e & w' & -> & _); [congruence | by rewrite Hb, Hm |].
  by eexists.
Qed.

(** No run of v1 gets past a week in which a match is played. *)
Lemma v1_assign_weeks_fails set_order bye weeks : ∀ i tables,
  Forall (λ w, attr_tables w = None) weeks →
  Exists (λ w, plays (bye_team_id w) (matches w)) weeks →
  ∃ e, (assign_weeks set_order i bye weeks tables).1.1 = Raise e.
Proof.
  induction weeks as [|w weeks IH]; intros i tables Hattr Hplays.
  { by apply Exists_nil in Hplays. }
  apply Forall_cons in Hattr as [Hw Hattr]. cbn.
  destruct (assign_week (set_order i) bye w tables) as [[[[]|e] w2] t2] eqn:Hat;
    [|by eexists].
  apply Exists_cons in Hplays as [Hp|Hplays].
  - destruct (v1_assign_week_fails (set_order i) bye w tables Hw Hp) as [e He].
    rewrite Hat in He. done.
  - destruct (IH (S i) t2 Hattr Hplays) as [e He].
    destruct (assign_weeks set_order (S i) bye weeks t2) as [[r3 ws3] t3].
    by exists e.
Qed.

Context (py_int : string → option Z).

Lemma week_of_row_fresh bye n total row w :
  week_of_row py_int bye n total row = Ok w →
  attr_tables w = None ∧ total_weeks w = total ∧ bye_team_id w = bye.
Proof.
  unfold week_of_row. destruct row as [|week_id [|date ms]]; [done|done|].
  destruct (int_of py_int week_id); cbn; [|done].
  destruct (mapM _ ms); cbn; [|done]. by intros [= <-].
Qed.

Lemma initialize_team_names_schedule fs mgr mgr' :
  initialize_team_names fs mgr = Ok mgr' →
  schedule mgr' = schedule mgr ∧ m_num_teams mgr' = m_num_teams mgr.
Proof.
  unfold initialize_team_names.
  destruct (get_table_config fs mgr) as [c|]; cbn; [|done].
  destruct (cfg_bye_team_id c); [by intros [= <-]|].
  destruct (cfg_team_keys c); [|done]. by intros [= <-].
Qed.

Lemma initialize_tables_schedule fs mgr mgr' :
  initialize_tables fs mgr = Ok mgr' →
  schedule mgr' = schedule mgr ∧ m_num_teams mgr' = m_num_teams mgr
  ∧ m_bye_team_id mgr' = m_bye_team_id mgr.
Proof.
  unfold initialize_tables.
  destruct (get_table_config fs mgr) as [c|]; cbn; [|done].
  destruct (cfg_table_ids c); [|done].
  destruct (_ <? _); [done|].
  destruct (cfg_table_keys c); [|done]. by intros [= <-].
Qed.

Lemma read_schedule_weeks fs mgr mgr' :
  read_schedule py_int fs mgr = Ok mgr' →
  ∃ weeks,
    schedule mgr' = schedule mgr ++ weeks ∧
    Forall (λ w, attr_tables w = None
                 ∧ total_weeks w = Z.of_nat (length weeks) + 1
                 ∧ bye_team_id w = m_bye_team_id mgr') weeks.
Proof.
  unfold read_schedule.
  destruct (schedule_file fs) as [lines|]; [|done].
  destruct (teams_of_rows py_int _) as [teams|]; cbn; [|done].
  destruct (negb _); [done|].
  destruct (mapM _ _) as [weeks|] eqn:Hweeks; cbn; [|done].
  intros [= <-]. exists weeks. split; [done|]. cbn.
  apply mapM_Ok_Forall2 in Hweeks.
  rewrite <- (Forall2_length _ _ _ Hweeks).
  eapply Forall2_Forall_r; [done|].
  apply Forall_forall. intros row _ w Hw.
  by apply week_of_row_fresh in Hw.
Qed.

(** The weeks a manager is built with: [total_weeks] is their number plus
    one, and none has an attribute [tables]. *)
Lemma Manager_init_weeks fs filename mgr :
  Manager_init py_int fs filename = Ok mgr →
  Forall (λ w, attr_tables w = None
               ∧ total_weeks w = Z.of_nat (length (schedule mgr)) + 1
               ∧ bye_team_id w = m_bye_team_id mgr) (schedule mgr).
Proof.
  unfold Manager_init.
  destruct (Filename.validate_filename filename) as [groups|]; cbn; [|done].
  destruct groups as [|g1 [|g2 [|g3 [|g4 [|g5 [|]]]]]]; try done.
  destruct (initialize_team_names _ _) as [s1|] eqn:H1; cbn; [|done].
  destruct (initialize_tables _ _) as [s2|] eqn:H2; cbn; [|done].
  apply initialize_team_names_schedule in H1 as [H1 _].
  apply initialize_tables_schedule in H2 as (H2 & _ & _).
  intros (weeks & Hs & Hw)%read_schedule_weeks.
  rewrite H2, H1 in Hs. cbn in Hs. by rewrite Hs.
Qed.

(** An odd number of teams in the schedule file ends [read_schedule]. *)
Lemma read_schedule_odd fs mgr lines teams :
  schedule_file fs = Some lines →
  teams_of_rows py_int (filter (λ row, kept_row row = true) lines) = Ok teams →
  Z.odd (Z.of_nat (length (remove_dups teams))) = true →
  read_schedule py_int fs mgr = Raise (ValueError OddTeams).
Proof.
  intros Hf Ht Hodd. unfold read_schedule. rewrite Hf, Ht. cbn.
  rewrite Zmod_odd, Hodd. done.
Qed.

Lemma Manager_init_odd fs filename lines teams :
  schedule_file fs = Some lines →
  teams_of_rows py_int (filter (λ row, kept_row row = true) lines) = Ok teams →
  Z.odd (Z.of_nat (length (remove_dups teams))) = true →
  is_ok (Manager_init py_int fs filename) = false.
Proof.
  intros Hf Ht Hodd. unfold Manager_init.
  destruct (Filename.validate_filename filename) as [groups|]; cbn; [|done].
  destruct groups as [|g1 [|g2 [|g3 [|g4 [|g5 [|]]]]]]; try done.
  destruct (initialize_team_names _ _) as [s1|]; cbn; [|done].
  destruct (initialize_tables _ _) as [s2|]; cbn; [|done].
  by erewrite read_schedule_odd.
Qed.

End V1Run.

(** ** The usage bound of v3 and what its assignment appends *)

Section V3More.
Import V3.

Lemma ceil_div_spec (a b : Z) :
  0 < b → (ceil_div a b - 1) * b < a ≤ ceil_div a b * b.
Proof.
  intros Hb. unfold ceil_div.
  pose proof (Z.div_mod (- a) b ltac:(lia)) as Hdm.
  pose proof (Z.mod_pos_bound (- a) b Hb) as Hmod.
  nia.
Qed.

Lemma assign_tables_weeks_total rnd w tables h :
  weeks_total (assign_tables rnd w tables h).1.2 = weeks_total w.
Proof.
  unfold assign_tables. destruct (String.eqb (week_id w) "1"); cbn.
  - by destruct (assign_first_week _ _ h) as [[? ?] ?].
  - by destruct (assign_tables_to_matches w _ tables h) as [[? ?] ?].
Qed.

Lemma assign_weeks_total rnd total tables weeks : ∀ i h weeks' h',
  assign_weeks rnd i total tables weeks h = (Ok (), weeks', h') →
  Forall (λ w, weeks_total w = total) weeks'.
Proof.
  induction weeks as [|w weeks IH]; intros i h weeks' h'; cbn.
  { intros [= <- <-]. constructor. }
  pose proof (assign_tables_weeks_total (rnd i) (set_weeks_total total w)
                tables h) as Hw.
  destruct (assign_tables _ _ tables h) as [[[[]|e] w1] h1]; [|done].
  destruct (assign_weeks rnd (S i) total tables weeks h1)
    as [[r2 ws2] h2] eqn:Hrec.
  intros [= -> <- <-]. constructor; [done | by eapply IH].
Qed.

Lemma tables_assigned_append_keeps a t h h1 team l :
  tables_assigned_append a t h = Ok h1 → h !! team = Some l →
  ∃ l', h1 !! team = Some l' ∧ l `prefix_of` l'.
Proof.
  unfold tables_assigned_append. destruct (h !! a) as [la|] eqn:Ha; [|done].
  intros [= <-] Hl. destruct (decide (a = team)) as [->|Hne].
  - rewrite lookup_insert_eq. eexists. split; [done|].
    rewrite Ha in Hl. injection Hl as ->. by apply prefix_app_r.
  - rewrite lookup_insert_ne by done. eauto.
Qed.

(** [Match.assign_table] only appends to the histories. *)
Lemma assign_table_appends m t h team l :
  h !! team = Some l →
  ∃ l', (assign_table m t h).2 !! team = Some l' ∧ l `prefix_of` l'.
Proof.
  intros Hl. unfold assign_table. cbn.
  destruct (tables_assigned_append (home_team m) t h) as [h1|] eqn:H1;
    cbn; [|eauto].
  destruct (tables_assigned_append_keeps _ _ _ _ _ _ H1 Hl) as (l1 & Hl1 & Hp1).
  destruct (tables_assigned_append (away_team m) t h1) as [h2|] eqn:H2;
    cbn; [|eauto].
  destruct (tables_assigned_append_keeps _ _ _ _ _ _ H2 Hl1) as (l2 & Hl2 & Hp2).
  exists l2. split; [done | by etrans].
Qed.

End V3More.

(** ** The first exception ends the run of v1 *)

Section V1Stop.
Import V1.

Implicit Types (m : Match) (ms : list Match) (w self : Week)
  (tables : list Table).

Lemma bind_Raise {A B} (r : result A) (k : A → result B) e :
  r ≫= k = Raise e → r = Raise e ∨ ∃ a, r = Ok a ∧ k a = Raise e.
Proof. destruct r as [a|e']; cbn; [eauto | intros [= <-]; eauto]. Qed.

Lemma mapM_Raise {A B} (f : A → result B) (l : list A) e :
  mapM f l = Raise e → ∃ a, a ∈ l ∧ f a = Raise e.
Proof.
  induction l as [|a l IH]; cbn; [done|].
  intros [Hr|(b & Hb & [Hr|(k & Hk & [=])]%bind_Raise)]%bind_Raise.
  - exists a. split; [apply list_elem_of_here | done].
  - destruct (IH Hr) as (a' & ? & ?). exists a'.
    split; [by apply list_elem_of_further | done].
Qed.

Lemma usage_at_raises gu team tid e :
  usage_at gu team tid = Raise e → is_no_table e = false.
Proof. unfold usage_at. destruct (_ !! tid); [done|]. by intros [= <-]. Qed.

Lemma py_min_raises l e : py_min l = Raise e → is_no_table e = false.
Proof. destruct l; [|done]. by intros [= <-]. Qed.

Lemma py_max_raises l e : py_max l = Raise e → is_no_table e = false.
Proof. destruct l; [|done]. by intros [= <-]. Qed.

Lemma least_used_raises gu tables team e :
  least_used gu tables team = Raise e → is_no_table e = false.
Proof.
  unfold least_used.
  intros [Hr|(us & _ & [Hr|(u & _ & [=])]%bind_Raise)]%bind_Raise.
  - apply mapM_Raise in Hr as (p & _ & [Hr|(u & _ & [=])]%bind_Raise).
    by eapply usage_at_raises.
  - by eapply py_min_raises.
Qed.

Lemma least_used_all_raises gu tables teams : ∀ acc e least,
  least_used_all gu tables teams acc = (Raise e, least) →
  is_no_table e = false.
Proof.
  induction teams as [|team teams IH]; intros acc e least; cbn; [done|].
  destruct (least_used gu tables team) as [s|e1] eqn:Hl.
  - apply IH.
  - intros [= <- <-]. by eapply least_used_raises.
Qed.

Lemma calculate_usage_stats_raises w tables bye e w' :
  calculate_usage_stats w tables bye = (Raise e, w') → is_no_table e = false.
Proof.
  unfold calculate_usage_stats.
  destruct (least_used_all _ _ _ _) as [r least] eqn:Hl.
  intros [= -> <-]. by eapply least_used_all_raises.
Qed.

Lemma calculate_usage_stats_week_id w tables bye r w' :
  calculate_usage_stats w tables bye = (r, w') → week_id w' = week_id w.
Proof.
  unfold calculate_usage_stats.
  destruct (least_used_all _ _ _ _) as [r1 least]. by intros [= <- <-].
Qed.

Lemma least_used_penalty_raises self table team e :
  least_used_penalty self table team = Raise e → is_no_table e = false.
Proof.
  unfold least_used_penalty.
  destruct (team_least_used self) as [least|]; [|by intros [= <-]].
  destruct (least !! team); [done | by intros [= <-]].
Qed.

Lemma future_usages_raises self m bye t e :
  future_usages self m bye t = Raise e → is_no_table e = false.
Proof.
  unfold future_usages. intros (team & _ & Hr)%mapM_Raise.
  destruct (global_usage self) as [gu|]; [|by injection Hr as <-].
  apply bind_Raise in Hr as [Hr|(u & _ & [=])]. by eapply usage_at_raises.
Qed.

Lemma score_table_raises self m bye ideal tables table e :
  score_table self m bye ideal tables table = Raise e →
  is_no_table e = false.
Proof.
  unfold score_table.
  intros [Hr|(p2h & _ & Hr)]%bind_Raise;
    [by eapply least_used_penalty_raises|].
  apply bind_Raise in Hr as [Hr|(p2a & _ & Hr)];
    [by eapply least_used_penalty_raises|].
  apply bind_Raise in Hr as [Hr|(fu & _ & Hr)];
    [by eapply future_usages_raises|].
  apply bind_Raise in Hr as [Hr|(mx & _ & Hr)]; [by eapply py_max_raises|].
  apply bind_Raise in Hr as [Hr|(mn & _ & [=])]. by eapply py_min_raises.
Qed.

Lemma v1_find_best_table_raises self m bye tables e :
  find_best_table self m bye tables = Raise e → is_no_table e = false.
Proof.
  unfold find_best_table. destruct (available_tables self); [done|].
  intros [Hr|(ideal & _ & Hr)]%bind_Raise.
  { unfold ideal_usage_per_table in Hr.
    destruct (attr_tables self); [|by injection Hr as <-].
    case_decide; [by injection Hr as <- | done]. }
  apply bind_Raise in Hr as [Hr|(scores & _ & Hr)].
  - unfold table_scores in Hr. destruct (bye_match bye m); [done|].
    apply mapM_Raise in Hr as (table & _ & [Hr|(s & _ & [=])]%bind_Raise).
    by eapply score_table_raises.
  - destruct scores; [by injection Hr as <- | done].
Qed.

Lemma v1_assign_matches_names ms : ∀ self tables h a k self' ms' tables',
  assign_matches self ms tables
    = (Raise (ValueError (NoAvailableTable h a k)), self', ms', tables') →
  k = week_id self.
Proof.
  induction ms as [|m ms IH]; intros self tables h a k self' ms' tables'; cbn;
    [done|].
  destruct (bye_match (bye_team_id self) m).
  { destruct (assign_matches self ms tables) as [[[r1 s1] ms1] t1] eqn:Hrec.
    intros [= -> <- <- <-]. by eapply IH. }
  destruct (find_best_table self m _ tables) as [[best|]|e] eqn:Hbest.
  - destruct (assign_matches _ ms _) as [[[r1 s1] ms1] t1] eqn:Hrec.
    intros [= -> <- <- <-]. by apply IH in Hrec.
  - by intros [= <- <- <- <- <- <-].
  - apply v1_find_best_table_raises in Hbest. by intros [= -> <- <- <-].
Qed.

Lemma v1_assign_week_names set_order bye w tables h a k w' tables' :
  assign_week set_order bye w tables
    = (Raise (ValueError (NoAvailableTable h a k)), w', tables') →
  k = week_id w.
Proof.
  unfold assign_week.
  destruct (calculate_usage_stats w tables bye) as [[[]|e] w1] eqn:Hc.
  - apply calculate_usage_stats_week_id in Hc as <-.
    unfold assign_tables.
    destruct (assign_matches _ _ tables) as [[[r1 s1] ms1] t1] eqn:Hrec.
    intros [= -> <- <-]. by apply v1_assign_matches_names in Hrec.
  - apply calculate_usage_stats_raises in Hc. by intros [= -> <- <-].
Qed.

Lemma v1_assign_weeks_stops set_order bye weeks : ∀ i tables e weeks' tables',
  assign_weeks set_order i bye weeks tables = (Raise e, weeks', tables') →
  ∃ done week rest done' week' tables_k,
    weeks = done ++ week :: rest ∧ weeks' = done' ++ week' :: rest ∧
    assign_weeks set_order i bye done tables = (Ok (), done', tables_k) ∧
    assign_week (set_order (i + length done)%nat) bye week tables_k
      = (Raise e, week', tables').
Proof.
  induction weeks as [|w weeks IH]; intros i tables e weeks' tables'; cbn;
    [done|].
  destruct (assign_week (set_order i) bye w tables) as [[[[]|e1] w1] t1] eqn:Hw.
  - destruct (assign_weeks set_order (S i) bye weeks t1)
      as [[r2 ws2] t2] eqn:Hrec.
    intros [= -> <- <-].
    destruct (IH _ _ _ _ _ Hrec)
      as (done & week & rest & done' & week' & tk & -> & -> & Hd & Hk).
    exists (w :: done), week, rest, (w1 :: done'), week', tk.
    repeat split; [|].
    + cbn. by rewrite Hw, Hd.
    + cbn. by rewrite Nat.add_succ_r.
  - intros [= <- <- <-].
    exists [], w, weeks, [], w1, tables. repeat split.
    cbn. by rewrite Nat.add_0_r.
Qed.

End V1Stop.

(** * The claims *)

(** ** Exclusivity *)

(** C1. In every variant, when the assignment of a week returns without an
    exception, no two matches of that week hold the same table.  The week is
    taken as the schedule reader builds it (no match holds a table yet), a
    set is iterated element by element, and the manager's list holds every
    table once.  In the first assigner the recorded dictionary of a week
    never holds more than one match. *)
Theorem exclusive_tables_within_a_week :
  (∀ set_order w tables w' tables',
     enumerates set_order → V1.unassigned (V1.matches w) →
     V1.assign_tables set_order w tables = (Ok (), w', tables') →
     NoDup (V1.assigned (V1.matches w'))) ∧
  (∀ set_order w tables w' tables',
     enumerates set_order → V1.unassigned (V2.matches w) →
     V2.assign_tables set_order w tables = (Ok (), w', tables') →
     NoDup (V1.assigned (V2.matches w'))) ∧
  (∀ schedule assignments L,
     V0.assign_tables schedule = (Ok assignments, L) →
     Forall (λ a : V0.assignment, NoDup (a.2.*2)) assignments) ∧
  (∀ rnd w tables h w' h',
     V3.fair rnd → NoDup tables → V3.unassigned (V3.matches w) →
     V3.assign_tables rnd w tables h = (Ok (), w', h') →
     NoDup (V3.assigned (V3.matches w'))).
Proof.
  repeat split.
  - intros. by eapply v1_assign_tables_exclusive.
  - intros. by eapply v2_assign_tables_exclusive.
  - intros. by eapply v0_assign_tables_exclusive.
  - intros. by eapply v3_assign_tables_exclusive.
Qed.

Lemma exclusive_tables_within_a_week_witness :
  NoDup (V1.assigned
           (V2.matches (V2.assign_tables id (Examples.v2_week 1)
                                         Examples.tables_AB).1.2)) ∧
  NoDup (V3.assigned
           (V3.matches (V3.assign_tables V3.no_shuffle (Examples.v3_week "1")
                          Examples.two_tables Examples.histories_empty).1.2)).
Proof.
  destruct exclusive_tables_within_a_week as (_ & H2 & _ & H3). split.
  - eapply (H2 id (Examples.v2_week 1) Examples.tables_AB).
    + intros l. reflexivity.
    + repeat constructor.
    + vm_compute. reflexivity.
  - eapply (H3 V3.no_shuffle (Examples.v3_week "1") Examples.two_tables
               Examples.histories_empty).
    + split; intros l; reflexivity.
    + exact (NoDup_seq 0 2).
    + repeat constructor.
    + vm_compute. reflexivity.
Defined.

(** ** No immediate repeat *)

(** C2, as the code has it.  In v3 the rule is a filter of the permutation
    search: [populate_match_candidate_tables] accepts no permutation that
    pairs a match with the table its home or away team was assigned last,
    and a search that succeeds has found a permutation of the tables without
    such a pair. *)
Theorem v3_search_rejects_repeats :
  (∀ h ms perm ms',
     Exists (λ p, V3.repeats h p.1 p.2 = true) (zip ms perm) →
     V3.populate_match_candidate_tables h ms perm ≠ (Ok true, ms')) ∧
  (∀ w ms tables h ms' h',
     V3.assign_tables_to_matches w ms tables h = (Ok true, ms', h') →
     ∃ perm, perm ∈ V3.permutations (length ms) tables ∧
             Forall (λ p, V3.repeats h p.1 p.2 = false) (zip ms perm)).
Proof.
  split.
  - intros h ms perm ms' Hex Hacc. apply populate_accepts in Hacc.
    apply Exists_exists in Hex as (p & Hin & Hp).
    rewrite Forall_forall in Hacc. specialize (Hacc p Hin). congruence.
  - intros w ms tables h ms' h'. unfold V3.assign_tables_to_matches.
    destruct (V3.max_usage_per_table w tables); [|done].
    destruct (V3.get_permutations h ms _) as [r1 ms1] eqn:Hgp.
    destruct r1 as [[]|e]; [| |done].
    + intros _. by eapply get_permutations_accepts.
    + by destruct (V3.reset_assignments ms1 h) as [[[[]|?] ?] ?].
Qed.

Lemma v3_search_rejects_repeats_witness :
  ∃ perm, perm ∈ V3.permutations 2 Examples.two_tables ∧
          Forall (λ p, V3.repeats Examples.histories_after_one p.1 p.2 = false)
                 (zip Examples.v3_matches_listed perm).
Proof.
  destruct v3_search_rejects_repeats as [_ H].
  eapply (H (V3.set_weeks_total 2 (Examples.v3_week "2"))
            Examples.v3_matches_listed Examples.two_tables
            Examples.histories_after_one).
  vm_compute. reflexivity.
Defined.

(** C2 fails in the scored variants: in v2 the one table of a pool is
    assigned to the match 1-2 in two consecutive weeks, and the scorer of v1
    gives a table that the teams of the match used last a score (with the
    penalty 100 in it; ideal usage 3 // 1) instead of rejecting it. *)
Lemma repeated_table_is_scored_and_assigned :
  let run := V2.assign_all_tables (λ _, id)
               [Examples.v2_week_one_match 1; Examples.v2_week_one_match 2]
               Examples.table_A in
  run.1.1 = Ok () ∧
  (λ w, V1.assigned (V2.matches w)) <$> run.1.2 = [[0%nat]; [0%nat]] ∧
  V1.score_table
    (V1.calculate_usage_stats (Examples.v1_week 2) Examples.table_A_used
                              V1.ByeNone).2
    (V1.Match_init 1 2) V1.ByeNone 3 Examples.table_A_used 0%nat
  = Ok (150, 2, 4).
Proof. vm_compute. repeat split. Qed.

(** ** A week without a feasible assignment *)

(** C3, as the code has it.  In v1 and in v2 an exception raised while a
    week is processed ends [assign_all_tables]: the weeks before it were
    assigned, the weeks after it are as they were, and a [ValueError] for a
    match without a table carries the id of the week that raised it. *)
Theorem failure_stops_the_run :
  (∀ set_order bye weeks tables e weeks' tables',
     V1.assign_weeks set_order O bye weeks tables
       = (Raise e, weeks', tables') →
     ∃ done week rest done' week' tables_k,
       weeks = done ++ week :: rest ∧ weeks' = done' ++ week' :: rest ∧
       V1.assign_weeks set_order O bye done tables
         = (Ok (), done', tables_k) ∧
       V1.assign_week (set_order (length done)) bye week tables_k
         = (Raise e, week', tables') ∧
       ∀ h a k, e = ValueError (NoAvailableTable h a k) → k = V1.week_id week) ∧
  (∀ set_order weeks tables e weeks' tables',
     V2.assign_all_tables set_order weeks tables
       = (Raise e, weeks', tables') →
     ∃ done week rest done' week' tables_k,
       weeks = done ++ week :: rest ∧ weeks' = done' ++ week' :: rest ∧
       V2.assign_all_tables set_order done tables
         = (Ok (), done', tables_k) ∧
       V2.assign_tables (set_order (length done)) week tables_k
         = (Raise e, week', tables') ∧
       ∀ h a k, e = ValueError (NoAvailableTable h a k) → k = V2.week_id week).
Proof.
  split.
  - intros set_order bye weeks tables e weeks' tables'.
    intros (done & week & rest & done' & week' & tk & -> & -> & Hd & Hk)
      %v1_assign_weeks_stops.
    exists done, week, rest, done', week', tk. repeat split; [done..|].
    intros h a k ->. by apply v1_assign_week_names in Hk.
  - intros set_order weeks tables e weeks' tables'.
    unfold V2.assign_all_tables.
    intros (done & week & rest & done' & week' & tk & -> & -> & Hd & Hk)
      %v2_assign_weeks_stops.
    exists done, week, rest, done', week', tk. repeat split; [done..|].
    intros h a k ->. by apply v2_assign_tables_names in Hk as [-> _].
Qed.

Lemma failure_stops_the_run_witness :
  ∃ done week rest done' week' tables_k,
    [Examples.v2_week 1; Examples.v2_week 2] = done ++ week :: rest ∧
    (V2.assign_all_tables (λ _, id)
       [Examples.v2_week 1; Examples.v2_week 2] Examples.table_A).1.2
      = done' ++ week' :: rest ∧
    V2.assign_all_tables (λ _, id) done Examples.table_A
      = (Ok (), done', tables_k) ∧
    V2.assign_tables id week tables_k
      = (Raise (ValueError (NoAvailableTable 3 4 1)), week',
         (V2.assign_all_tables (λ _, id)
            [Examples.v2_week 1; Examples.v2_week 2] Examples.table_A).2) ∧
    ∀ h a k, ValueError (NoAvailableTable 3 4 1)
             = ValueError (NoAvailableTable h a k) → k = V2.week_id week.
Proof.
  destruct failure_stops_the_run as [_ H].
  apply (H (λ _, id) [Examples.v2_week 1; Examples.v2_week 2]
           Examples.table_A).
  vm_compute. reflexivity.
Defined.

(** C3 fails in v3: with one table for the two matches of week "2" the
    search finds nothing, [assign_all_tables] still returns normally, and
    it has gone on to week "3" (whose [weeks_total] it has set). *)
Lemma v3_continues_after_infeasible_week :
  let weeks := [Examples.v3_week "2"; Examples.v3_week "3"] in
  let run := V3.assign_all_tables (λ _, V3.no_shuffle) Examples.one_table
               weeks ∅ in
  (V3.assign_tables_to_matches (V3.set_weeks_total 2 (Examples.v3_week "2"))
     Examples.v3_matches Examples.one_table ∅).1.1 = Ok false ∧
  V3.weeks_total <$> weeks = [0; 0] ∧
  run.1.1 = Ok () ∧
  V3.weeks_total <$> run.1.2 = [2; 2].
Proof. vm_compute. repeat split. Qed.

(** ** Determinism *)

(** C4, as the code has it.  The weeks of v3 other than week "1" are
    searched in the order of [itertools.permutations]: a schedule without a
    week "1" is assigned the same way whatever the shuffles would do. *)
Theorem v3_later_weeks_do_not_depend_on_shuffles rnd1 rnd2 tables weeks h :
  Forall (λ w, V3.week_id w ≠ "1") weeks →
  V3.assign_all_tables rnd1 tables weeks h
  = V3.assign_all_tables rnd2 tables weeks h.
Proof.
  unfold V3.assign_all_tables. generalize (Z.of_nat (length weeks)) as total.
  generalize O as i. intros i total Hweeks. revert i h.
  induction Hweeks as [|w weeks Hw _ IH]; intros i h; cbn; [done|].
  unfold V3.assign_tables. cbn.
  apply String.eqb_neq in Hw. rewrite Hw.
  destruct (V3.assign_tables_to_matches _ _ tables h) as [[[b|e] ms1] h1];
    cbn; [|done].
  by rewrite IH.
Qed.

Lemma v3_later_weeks_do_not_depend_on_shuffles_witness :
  V3.assign_all_tables (λ _, V3.no_shuffle) Examples.two_tables
    [Examples.v3_week "2"; Examples.v3_week "3"] Examples.histories_empty
  = V3.assign_all_tables (λ _, V3.reversing) Examples.two_tables
      [Examples.v3_week "2"; Examples.v3_week "3"] Examples.histories_empty.
Proof.
  apply v3_later_weeks_do_not_depend_on_shuffles.
  repeat constructor; discriminate.
Defined.

(** C4 fails where the code shuffles: the same week "1" of v3, with the same
    teams and tables, is assigned differently under two shuffles of the
    tables; the same first week of v2 is assigned differently under two
    iteration orders of the set of tables. *)
Lemma shuffles_change_the_assignment :
  V3.fair V3.no_shuffle ∧ V3.fair Examples.tables_reversed ∧
  V3.matches (V3.assign_tables V3.no_shuffle (Examples.v3_week "1")
                Examples.two_tables Examples.histories_empty).1.2
  ≠ V3.matches (V3.assign_tables Examples.tables_reversed
                  (Examples.v3_week "1") Examples.two_tables
                  Examples.histories_empty).1.2 ∧
  enumerates id ∧ enumerates reverse ∧
  V2.matches (V2.assign_tables id (Examples.v2_week 1) Examples.tables_AB).1.2
  ≠ V2.matches (V2.assign_tables reverse (Examples.v2_week 1)
                  Examples.tables_AB).1.2.
Proof.
  repeat split; try (intros l; cbn; reflexivity);
    try (intros l; cbn; apply reverse_Permutation).
  - intros H. vm_compute in H. discriminate H.
  - intros H. vm_compute in H. discriminate H.
Qed.

(** ** Atomic weeks *)

(** C5, as the code has it.  In v3 a search that fails leaves no match of
    the week with a table, and where none held a table before, no team's
    history has changed. *)
Theorem v3_failed_search_leaves_no_assignment w ms tables h ms' h' :
  V3.assign_tables_to_matches w ms tables h = (Ok false, ms', h') →
  V3.unassigned ms' ∧ (V3.unassigned ms → h' = h).
Proof.
  intros Hrun. split.
  - revert Hrun. unfold V3.assign_tables_to_matches.
    destruct (V3.max_usage_per_table w tables); [|done].
    destruct (V3.get_permutations h ms _) as [[[|]|e] ms1]; [done| |done].
    destruct (V3.reset_assignments ms1 h) as [[[[]|e] ms2] h2] eqn:Hr; [|done].
    intros [= <- <-]. by eapply reset_assignments_clears.
  - intros Hfresh. by eapply assign_tables_to_matches_unassigned in Hrun as [_ ?].
Qed.

Lemma v3_failed_search_leaves_no_assignment_witness :
  let run := V3.assign_tables_to_matches
               (V3.set_weeks_total 2 (Examples.v3_week "2"))
               Examples.v3_matches Examples.one_table ∅ in
  V3.unassigned run.1.2 ∧ (V3.unassigned Examples.v3_matches → run.2 = ∅).
Proof.
  apply (v3_failed_search_leaves_no_assignment
           (V3.set_weeks_total 2 (Examples.v3_week "2"))
           Examples.v3_matches Examples.one_table ∅).
  vm_compute. reflexivity.
Defined.

(** C5 fails in v2 (and in the same loop of v1): with one table for the two
    matches of a week the second match raises, and the first match keeps its
    table and the table its two ledger entries. *)
Lemma v2_failed_week_keeps_first_match :
  let run := V2.assign_tables id (Examples.v2_week 1) Examples.table_A in
  run.1.1 = Raise (ValueError (NoAvailableTable 3 4 1)) ∧
  V1.assigned_table <$> V2.matches run.1.2 = [Some 0%nat; None] ∧
  V1.last_used_by <$> run.2 = [[1; 2]] ∧
  V1.get_usage (run.2 !!! 0%nat) 1 = 1.
Proof. vm_compute. repeat split. Qed.

(** ** The ideal usage *)

(** C6, as the code has it.  v3 computes
    [max_usage_per_table = ceil(weeks_total / num_tables)] for a pool that
    is not empty, and [assign_all_tables] has set [weeks_total] to the
    number of weeks of the schedule.  The scorer of v1 divides rounding
    down, and the [total_weeks] of its weeks is their number plus one:
    where [self.tables] has [n] elements, its ideal usage is
    [(weeks + 1) // n]. *)
Theorem ideal_usage_values :
  (∀ w tables,
     tables ≠ [] →
     ∃ q, V3.max_usage_per_table w tables = Ok q ∧
          (q - 1) * Z.of_nat (length tables) < V3.weeks_total w
            ≤ q * Z.of_nat (length tables)) ∧
  (∀ rnd tables weeks h weeks' h',
     V3.assign_all_tables rnd tables weeks h = (Ok (), weeks', h') →
     Forall (λ w, V3.weeks_total w = Z.of_nat (length weeks)) weeks') ∧
  (∀ py_int fs filename mgr w n,
     V1.Manager_init py_int fs filename = Ok mgr →
     w ∈ V1.schedule mgr → n ≠ 0 →
     V1.ideal_usage_per_table (V1.set_attr_tables n w)
       = Ok ((Z.of_nat (length (V1.schedule mgr)) + 1) `div` n)).
Proof.
  split; [|split].
  - intros w tables Hne. unfold V3.max_usage_per_table.
    assert (0 < Z.of_nat (length tables)) by (destruct tables; [done|cbn; lia]).
    case_decide; [lia|]. eexists. split; [done|]. by apply ceil_div_spec.
  - intros rnd tables weeks h weeks' h'. apply assign_weeks_total.
  - intros py_int fs filename mgr w n Hinit Hw Hn.
    apply Manager_init_weeks in Hinit. rewrite Forall_forall in Hinit.
    destruct (Hinit w Hw) as (_ & Htotal & _).
    unfold V1.ideal_usage_per_table. cbn. case_decide; [done|].
    by rewrite Htotal.
Qed.

Lemma ideal_usage_values_witness :
  (∃ q, V3.max_usage_per_table (V3.set_weeks_total 4 (Examples.v3_week "2"))
          [0%nat; 1%nat; 2%nat] = Ok q ∧
        (q - 1) * 3 < 4 ≤ q * 3) ∧
  V1.ideal_usage_per_table
    (V1.set_attr_tables 3
       (Examples.first_week
          (V1.Manager_init V1.decimal Examples.files_four_weeks
                           Examples.the_filename)))
  = Ok ((4 + 1) `div` 3).
Proof.
  destruct ideal_usage_values as (H1 & _ & H3). split.
  - apply (H1 (V3.set_weeks_total 4 (Examples.v3_week "2"))
              [0%nat; 1%nat; 2%nat]). discriminate.
  - destruct (V1.Manager_init V1.decimal Examples.files_four_weeks
                Examples.the_filename) as [mgr|e] eqn:Hinit;
      [|vm_compute in Hinit; discriminate Hinit].
    assert (Hlen : Z.of_nat (length (V1.schedule mgr)) = 4).
    { vm_compute in Hinit. injection Hinit as <-. reflexivity. }
    rewrite <- Hlen.
    apply (H3 V1.decimal Examples.files_four_weeks Examples.the_filename mgr).
    + exact Hinit.
    + vm_compute in Hinit. injection Hinit as <-. cbn. left.
    + discriminate.
Defined.

(** C6 fails in v1: for a schedule of 4 weeks and 3 tables the week the
    manager builds has no attribute [tables], so the scorer raises before it
    has an ideal usage; and were [self.tables] the 3 tables, the value would
    be 5 // 3 = 1, while ceil(4 / 3) = 2. *)
Lemma v1_ideal_usage_is_not_the_ceiling :
  let w := Examples.first_week
             (V1.Manager_init V1.decimal Examples.files_four_weeks
                              Examples.the_filename) in
  V1.total_weeks w = 5 ∧
  V1.ideal_usage_per_table w = Raise AttributeError ∧
  V1.ideal_usage_per_table (V1.set_attr_tables 3 w) = Ok 1 ∧
  V3.ceil_div 4 3 = 2.
Proof. vm_compute. repeat split. Qed.

(** ** Configuration errors *)

(** C7, as the code has it.  An odd number of distinct teams in the matches
    of the schedule file (the bye team counted like any other) makes
    [read_schedule] raise the [ValueError] of the parity test, so the
    constructor of the manager raises and there is no manager to assign
    tables with. *)
Theorem odd_team_count_aborts_construction py_int fs mgr filename lines teams :
  V1.schedule_file fs = Some lines →
  V1.teams_of_rows py_int (filter (λ row, V1.kept_row row = true) lines)
    = Ok teams →
  Z.odd (Z.of_nat (length (remove_dups teams))) = true →
  V1.read_schedule py_int fs mgr = Raise (ValueError OddTeams) ∧
  is_ok (V1.Manager_init py_int fs filename) = false.
Proof.
  intros Hf Ht Hodd. split.
  - by eapply read_schedule_odd.
  - by eapply Manager_init_odd.
Qed.

Lemma odd_team_count_aborts_construction_witness :
  V1.read_schedule V1.decimal Examples.files_odd
    (V1.mkManager "f" [] 0 V1.ByeNone [] [] "787" "2025" "01" "705" "02" None)
    = Raise (ValueError OddTeams) ∧
  is_ok (V1.Manager_init V1.decimal Examples.files_odd Examples.the_filename)
    = false.
Proof.
  eapply (odd_team_count_aborts_construction V1.decimal Examples.files_odd).
  - reflexivity.
  - vm_compute. reflexivity.
  - vm_compute. reflexivity.
Defined.

(** C7 fails for both kinds of configuration.  One table for the two
    matches of every week: the manager is built ([initialize_tables] runs
    while [num_teams] is still 0).  Five teams and the bye team 6: the
    manager is built, the number of teams without the bye team being odd. *)
Lemma invalid_configurations_are_accepted :
  let small := V1.Manager_init V1.decimal Examples.files_small_pool
                 Examples.the_filename in
  let bye := V1.Manager_init V1.decimal Examples.files_with_bye
               Examples.the_filename in
  is_ok small = true ∧
  (match small with
   | Ok m => (length (V1.tables m),
              (λ w, length (V1.matches w)) <$> V1.schedule m)
   | Raise _ => (O, [])
   end) = (1%nat, [2%nat; 2%nat]) ∧
  is_ok bye = true ∧
  (match bye with
   | Ok m => (V1.m_num_teams m, V1.m_bye_team_id m,
              length (V1.counted_teams (V1.m_num_teams m) (V1.m_bye_team_id m)))
   | Raise _ => (0, V1.ByeNone, O)
   end) = (6, V1.ByeInt 6, 5%nat).
Proof. vm_compute. repeat split. Qed.

(** ** The ledger *)

(** C8, as the code has it.  In v1 and v2 the ledger of the tables only
    grows: [Table.add_team], and with it every run of [assign_all_tables],
    whether it returns or raises, leaves every usage count at least as high
    and every [last_used_by] extended at its end.  In v3
    [Match.assign_table] only appends to the histories of the teams. *)
Theorem ledger_only_grows :
  (∀ team t, V1.grows1 t (V1.add_team team t)) ∧
  (∀ set_order i bye weeks tables,
     V1.grows tables (V1.assign_weeks set_order i bye weeks tables).2) ∧
  (∀ set_order weeks tables,
     V1.grows tables (V2.assign_all_tables set_order weeks tables).2) ∧
  (∀ m t h team l,
     h !! team = Some l →
     ∃ l', (V3.assign_table m t h).2 !! team = Some l' ∧ l `prefix_of` l').
Proof.
  split; [|split; [|split]].
  - intros team t. apply grows1_add_team.
  - intros. apply v1_assign_weeks_grows.
  - intros. apply v2_assign_weeks_grows.
  - intros. by apply assign_table_appends.
Qed.

Lemma ledger_only_grows_witness :
  ∃ l', (V3.assign_table Examples.v3_played 1%nat Examples.histories_played).2
          !! 1%nat = Some l' ∧ [0%nat] `prefix_of` l'.
Proof.
  destruct ledger_only_grows as (_ & _ & _ & H).
  apply (H Examples.v3_played 1%nat Examples.histories_played 1%nat [0%nat]).
  reflexivity.
Defined.

(** C8 fails in v3: [Match.remove_table] pops the last entry of the
    histories of both teams, and [Week.assign_tables] calls it, through
    [reset_assignments], when the search of a week fails for a match that
    holds a table. *)
Lemma v3_reset_removes_history :
  let run := V3.assign_tables V3.no_shuffle
               (V3.Week_init "2" [Examples.v3_played]) Examples.one_table
               Examples.histories_played in
  Examples.histories_played !! 1%nat = Some [0%nat] ∧
  (V3.remove_table Examples.v3_played Examples.histories_played).1.1 = Ok () ∧
  (V3.remove_table Examples.v3_played Examples.histories_played).2 !! 1%nat
    = Some [] ∧
  run.1.1 = Ok () ∧
  run.2 !! 1%nat = Some [] ∧
  run.2 !! 2%nat = Some [].
Proof. vm_compute. repeat split. Qed.

(** ** The attribute v1 never sets *)

(** C9. [Week.__init__] of v1 leaves the week without an attribute
    [tables]; on such a week [find_best_table] raises [AttributeError]
    whenever a table is available; [assign_tables] then raises for every
    week in which a match is played, leaving matches and tables as they
    were; and no run of [assign_all_tables] on a manager whose schedule has
    such a week returns. *)
Theorem v1_find_best_table_raises_attribute_error :
  (∀ week_id date ms bye num_teams total_weeks,
     V1.attr_tables (V1.Week_init week_id date ms bye num_teams total_weeks)
       = None) ∧
  (∀ self m bye tables,
     V1.attr_tables self = None → V1.available_tables self ≠ [] →
     V1.find_best_table self m bye tables = Raise AttributeError) ∧
  (∀ set_order w tables,
     V1.attr_tables w = None → V1.plays (V1.bye_team_id w) (V1.matches w) →
     ∃ e w', V1.assign_tables set_order w tables = (Raise e, w', tables)
             ∧ V1.matches w' = V1.matches w
             ∧ (enumerates set_order → tables ≠ [] → e = AttributeError)) ∧
  (∀ py_int fs filename mgr set_order,
     V1.Manager_init py_int fs filename = Ok mgr →
     Exists (λ w, V1.plays (V1.bye_team_id w) (V1.matches w))
            (V1.schedule mgr) →
     ∃ e, (V1.assign_all_tables set_order mgr).1 = Raise e).
Proof.
  split; [done|]. split; [|split].
  - intros. by apply v1_find_best_table_no_attr.
  - intros. by apply v1_assign_tables_fails.
  - intros py_int fs filename mgr set_order Hinit Hplays.
    apply Manager_init_weeks in Hinit.
    unfold V1.assign_all_tables.
    destruct (v1_assign_weeks_fails set_order (V1.m_bye_team_id mgr)
                (V1.schedule mgr) O (V1.tables mgr).*2) as [e He].
    + eapply Forall_impl; [exact Hinit|]. by intros w (? & _).
    + done.
    + destruct (V1.assign_weeks _ _ _ _ _) as [[r ws] ts]. by exists e.
Qed.

Lemma v1_find_best_table_raises_attribute_error_witness :
  V1.find_best_table
    (V1.set_available_tables [0%nat] (Examples.v1_week 1))
    (V1.Match_init 1 2) V1.ByeNone Examples.table_A
  = Raise AttributeError.
Proof.
  destruct v1_find_best_table_raises_attribute_error as (_ & H & _).
  apply H; [reflexivity | discriminate].
Defined.

(** * Further properties *)

(** ** The file name pattern accepts nothing else *)

Section FilenameSound.
Import Filename.

Lemma take_drop_str (k : nat) (s : string) : s = take_str k s +:+ drop_str k s.
Proof.
  revert s. induction k as [|k IH]; intros [|c s]; simpl; try done.
  change (String c s = String c (take_str k s +:+ drop_str k s)).
  f_equal. apply IH.
Qed.

Lemma take_str_digit_run (k : nat) (s : string) :
  (k ≤ digit_run s)%nat →
  Forall (λ c, is_digit c = true) (String.list_ascii_of_string (take_str k s)).
Proof.
  revert s. induction k as [|k IH]; intros [|c s]; cbn; try by constructor.
  destruct (is_digit c) eqn:Hc; [|lia].
  intros Hk. constructor; [done|]. apply IH. lia.
Qed.

Lemma take_str_nonempty (k : nat) (s : string) :
  (1 ≤ k ≤ digit_run s)%nat → take_str k s ≠ EmptyString.
Proof. destruct k as [|k], s as [|c s]; cbn; try lia; done. Qed.

(** What a successful match of [(\d+)] followed by the rest says. *)
Lemma match_items_digits_inv (rest : list item) (s : string) (gs : list string) :
  match_items (Digits1 :: rest) s = Some gs →
  ∃ d gs' r, gs = d :: gs' ∧ s = d +:+ r ∧ digits d
             ∧ match_items rest r = Some gs'.
Proof.
  cbn. remember (digit_run s) as n eqn:Hn.
  assert (Hle : (n ≤ digit_run s)%nat) by lia. clear Hn.
  induction n as [|n IH]; [done|].
  destruct (match_items rest (drop_str (S n) s)) as [gs'|] eqn:Hrest.
  - intros [= <-]. exists (take_str (S n) s), gs', (drop_str (S n) s).
    repeat split; [apply take_drop_str | | |done].
    + apply take_str_nonempty. lia.
    + by apply take_str_digit_run.
  - intros H. apply IH; [lia | done].
Qed.

Lemma match_items_lit_inv (rest : list item) (c : ascii) (s : string)
    (gs : list string) :
  match_items (Lit c :: rest) s = Some gs →
  ∃ r, s = String c r ∧ match_items rest r = Some gs.
Proof.
  cbn. destruct s as [|c' s]; [done|].
  destruct (Ascii.eqb c c') eqn:Hc; [|done].
  apply Ascii.eqb_eq in Hc as <-. eauto.
Qed.

Lemma match_items_lits_inv (l : string) (rest : list item) (s : string)
    (gs : list string) :
  match_items (lits l ++ rest) s = Some gs →
  ∃ r, s = l +:+ r ∧ match_items rest r = Some gs.
Proof.
  revert s. induction l as [|c l IH]; intros s.
  { intros H. by exists s. }
  change (lits (String c l) ++ rest) with (Lit c :: (lits l ++ rest)).
  intros (r & -> & (r' & -> & H)%IH)%match_items_lit_inv. by exists r'.
Qed.

Lemma re_match_inv (s : string) (gs : list string) :
  re_match s = Some gs →
  ∃ d1 d2 d3 d4 d5 rest,
    digits d1 ∧ digits d2 ∧ digits d3 ∧ digits d4 ∧ digits d5 ∧
    s = with_prefix d1 d2 d3 d4 d5 rest ∧ gs = [d1; d2; d3; d4; d5].
Proof.
  unfold re_match, pattern. cbn [app].
  intros (d1 & g1 & r1 & -> & -> & H1 & (r & -> & H)%match_items_lit_inv)
    %match_items_digits_inv.
  apply match_items_digits_inv in H
    as (d2 & g2 & r2 & -> & -> & H2 & (r & -> & H)%match_items_lit_inv).
  apply match_items_digits_inv in H
    as (d3 & g3 & r3 & -> & -> & H3 & (r & -> & H)%match_items_lit_inv).
  apply match_items_digits_inv in H
    as (d4 & g4 & r4 & -> & -> & H4 & (r & -> & H)%match_items_lit_inv).
  apply match_items_digits_inv in H as (d5 & g5 & r5 & -> & -> & H5 & H).
  rewrite <- (app_nil_r (lits _)) in H.
  apply match_items_lits_inv in H as (rest & -> & [= <-]).
  by exists d1, d2, d3, d4, d5, rest.
Qed.

End FilenameSound.

(** X1. [parse_filename] (and with it [validate_filename]) accepts a name
    exactly when it begins with five non-empty groups of digits separated by
    "-" and followed by "-Schedule.csv": then it returns these groups, and
    for every other name it raises the [ValueError] of the pattern. *)
Theorem parse_filename_accepts_exactly (s : string) :
  (∀ gs, Filename.parse_filename s = Ok gs ↔
         ∃ d1 d2 d3 d4 d5 rest,
           Filename.digits d1 ∧ Filename.digits d2 ∧ Filename.digits d3 ∧
           Filename.digits d4 ∧ Filename.digits d5 ∧
           s = Filename.with_prefix d1 d2 d3 d4 d5 rest ∧
           gs = [d1; d2; d3; d4; d5]) ∧
  (Filename.parse_filename s = Raise (ValueError BadFilename) ∨
   is_ok (Filename.parse_filename s) = true) ∧
  Filename.validate_filename s = Filename.parse_filename s.
Proof.
  split; [|split; [|done]].
  - intros gs. unfold Filename.parse_filename. split.
    + destruct (Filename.re_match s) as [g|] eqn:Hm; [|done].
      intros [= ->]. by apply re_match_inv.
    + intros (d1 & d2 & d3 & d4 & d5 & rest & ? & ? & ? & ? & ? & -> & ->).
      by rewrite re_match_with_prefix.
  - unfold Filename.parse_filename.
    destruct (Filename.re_match s); [by right | by left].
Qed.

Lemma parse_filename_accepts_exactly_witness :
  ∃ d1 d2 d3 d4 d5 rest,
    Filename.digits d1 ∧ Filename.digits d2 ∧ Filename.digits d3 ∧
    Filename.digits d4 ∧ Filename.digits d5 ∧
    "1-22-333-4-5-Schedule.csv" = Filename.with_prefix d1 d2 d3 d4 d5 rest ∧
    ["1"; "22"; "333"; "4"; "5"] = [d1; d2; d3; d4; d5].
Proof.
  apply (proj1 (parse_filename_accepts_exactly "1-22-333-4-5-Schedule.csv")).
  reflexivity.
Defined.

(** ** The first assigner: what a run records *)

Section V0More.
Import V0.

Lemma try_combo_splits m h a combo L :
  split_dash m = [h; a] → ∃ r L', try_combo m combo L = (Ok r, L').
Proof.
  intros Hs. revert L. induction combo as [|table combo IH]; intros L; cbn.
  { by eexists _, _. }
  rewrite Hs. destruct (acceptable L h a table); [by eexists _, _ | apply IH].
Qed.

Lemma try_combos_splits m h a combos : ∀ wa used L,
  split_dash m = [h; a] →
  ∃ wa' used' L', try_combos m combos wa used L = (Ok (), wa', used', L')
                  ∧ (is_Some used → is_Some used').
Proof.
  induction combos as [|combo combos IH]; intros wa used L Hs; cbn.
  { by eexists _, _, _. }
  destruct (try_combo_splits m h a combo L Hs) as (r & L1 & ->).
  destruct r as [table|].
  - destruct (IH (dict_set m table wa) (Some table) L1 Hs)
      as (wa' & used' & L' & -> & Hu).
    eexists _, _, _. split; [done|]. intros _. by apply Hu.
  - apply IH, Hs.
Qed.

Lemma combinations_first (r : nat) :
  (1 ≤ r ≤ 4)%nat →
  ∃ c cs, combinations r table_pairs = ("1-2" :: c) :: cs.
Proof.
  intros Hr. destruct r as [|[|[|[|[|r]]]]]; try lia; vm_compute; eauto.
Qed.

Lemma combinations_too_many {A} (l : list A) : ∀ r,
  (length l < r)%nat → combinations r l = [].
Proof.
  induction l as [|x l IH]; intros [|r]; cbn; try lia; [done|].
  intros Hr. rewrite !IH by lia. done.
Qed.

(** Once the iterator of combinations is used up, the matches of the week
    are recorded without a table. *)
Lemma assign_matches_exhausted wn md ms : ∀ L acc,
  assign_matches wn md ms [] [] None L acc
  = (Ok (), L, acc ++ replicate (length ms) (wn, md, [])).
Proof.
  induction ms as [|m ms IH]; intros L acc; cbn.
  { by rewrite app_nil_r. }
  rewrite IH. by rewrite <- app_assoc.
Qed.

Lemma assign_matches_shape wn md ms combos L acc L' acc' :
  assign_matches wn md ms combos [] None L acc = (Ok (), L', acc') →
  ∃ wa, acc' = acc ++ replicate (length ms) (wn, md, wa)
        ∧ (length wa ≤ 1)%nat
        ∧ ((2 ≤ length ms)%nat → wa = []).
Proof.
  destruct ms as [|m ms]; cbn.
  { intros [= <- <-]. exists []. rewrite app_nil_r. repeat split; cbn; lia. }
  destruct (try_combos m combos [] None L) as [[[r1 wa1] used1] L1] eqn:Htc.
  destruct r1 as [[]|e]; [|done].
  apply try_combos_single in Htc as [Hs Hu]; [|by left|done].
  destruct ms as [|m2 ms].
  - cbn. intros [= <- <-]. exists wa1. repeat split; [|lia].
    destruct Hs as [->|(? & ? & _ & ->)]; cbn; lia.
  - destruct used1 as [t|]; [done|].
    rewrite (Hu eq_refl). rewrite assign_matches_exhausted.
    intros [= <- <-]. exists []. rewrite <- app_assoc. repeat split; cbn; lia.
Qed.

Lemma assign_weeks_shape schedule : ∀ L acc r L',
  assign_weeks schedule L acc = (Ok r, L') →
  ∃ dicts, r = acc ++ concat (zip_with entries_of schedule dicts)
           ∧ Forall2 (λ week wa, (length wa ≤ 1)%nat
                                 ∧ ((4 ≤ length week)%nat → wa = []))
                     schedule dicts.
Proof.
  induction schedule as [|week schedule IH]; intros L acc r L'; cbn.
  { intros [= <- <-]. exists []. rewrite app_nil_r. by split. }
  destruct week as [|wn [|md ms]]; [done|done|].
  destruct (assign_matches wn md ms _ [] None L acc) as [[r1 L1] acc1] eqn:Ham.
  destruct r1 as [[]|e]; [|done].
  apply assign_matches_shape in Ham as (wa & -> & Hwa & Hmany).
  intros (dicts & -> & Hd)%IH.
  exists (wa :: dicts). cbn. split; [by rewrite <- app_assoc|].
  constructor; [|done]. split; [done|]. cbn. intros ?. apply Hmany. lia.
Qed.

(** The ledger invariants. *)
Lemma deque_append_length x d :
  (length d ≤ 20)%nat → (length (deque_append x d) ≤ 20)%nat.
Proof.
  intros Hd. unfold deque_append. case_decide.
  - rewrite length_app. cbn. lia.
  - rewrite length_app, length_drop. cbn. lia.
Qed.

Lemma push_history_bounded team table L :
  bounded L → bounded (push_history team table L).
Proof.
  intros HL team'. unfold history, push_history. cbn.
  destruct (decide (team = team')) as [->|Hne].
  - rewrite lookup_insert_eq. cbn. apply deque_append_length, HL.
  - rewrite lookup_insert_ne by done. apply HL.
Qed.

Lemma incr_usage_bounded team table L :
  bounded L → bounded (incr_usage team table L).
Proof. intros HL team'. apply HL. Qed.

Lemma record_bounded h a table L : bounded L → bounded (record h a table L).
Proof.
  intros HL. unfold record.
  by do 2 apply push_history_bounded; do 2 apply incr_usage_bounded.
Qed.

Lemma counts_grow_refl L : counts_grow L L.
Proof. intros team table. lia. Qed.

Lemma counts_grow_trans L1 L2 L3 :
  counts_grow L1 L2 → counts_grow L2 L3 → counts_grow L1 L3.
Proof. intros H1 H2 team table. specialize (H1 team table). specialize (H2 team table). lia. Qed.

Lemma incr_usage_grows team table L : counts_grow L (incr_usage team table L).
Proof.
  intros team' table'. unfold usage_count at 2, incr_usage. cbn.
  destruct (decide ((team, table) = (team', table'))) as [[= -> ->]|Hne].
  - rewrite lookup_insert_eq. cbn. lia.
  - rewrite lookup_insert_ne by done. unfold usage_count. lia.
Qed.

Lemma push_history_grows team table L : counts_grow L (push_history team table L).
Proof. intros team' table'. unfold usage_count. cbn. lia. Qed.

Lemma record_grows h a table L : counts_grow L (record h a table L).
Proof.
  unfold record.
  eapply counts_grow_trans; [apply incr_usage_grows|].
  eapply counts_grow_trans; [apply incr_usage_grows|].
  eapply counts_grow_trans; apply push_history_grows.
Qed.

Lemma try_combo_kept m combo : ∀ L, kept L (try_combo m combo L).2.
Proof.
  induction combo as [|table combo IH]; intros L; cbn.
  { split; [done | apply counts_grow_refl]. }
  destruct (split_dash m) as [|h [|a [|]]];
    try (split; [done | apply counts_grow_refl]).
  destruct (acceptable L h a table); [|apply IH].
  split; [apply record_bounded | apply record_grows].
Qed.

Lemma kept_trans L1 L2 L3 : kept L1 L2 → kept L2 L3 → kept L1 L3.
Proof.
  intros [H1 G1] [H2 G2]. split; [auto | by eapply counts_grow_trans].
Qed.

Lemma kept_refl L : kept L L.
Proof. split; [done | apply counts_grow_refl]. Qed.

Lemma try_combos_kept m combos : ∀ wa used L,
  kept L (try_combos m combos wa used L).2.
Proof.
  induction combos as [|combo combos IH]; intros wa used L; cbn;
    [apply kept_refl|].
  pose proof (try_combo_kept m combo L) as H1.
  destruct (try_combo m combo L) as [[[table|]|e] L1]; cbn in *;
    [| |done]; (eapply kept_trans; [done | apply IH]).
Qed.

Lemma assign_matches_kept wn md ms : ∀ combos wa used L acc,
  kept L (assign_matches wn md ms combos wa used L acc).1.2.
Proof.
  induction ms as [|m ms IH]; intros combos wa used L acc; cbn;
    [apply kept_refl|].
  destruct used as [t|]; [apply kept_refl|].
  pose proof (try_combos_kept m combos wa None L) as H1.
  destruct (try_combos m combos wa None L) as [[[[[]|e] wa1] used1] L1];
    cbn in *; [|done].
  eapply kept_trans; [done | apply IH].
Qed.

Lemma assign_weeks_kept schedule : ∀ L acc,
  kept L (assign_weeks schedule L acc).2.
Proof.
  induction schedule as [|week schedule IH]; intros L acc; cbn;
    [apply kept_refl|].
  destruct week as [|wn [|md ms]]; try apply kept_refl.
  pose proof (assign_matches_kept wn md ms
                (combinations (length ms) table_pairs) [] None L acc) as H1.
  destruct (assign_matches wn md ms _ [] None L acc) as [[[[]|e] L1] acc1];
    cbn in *; [|done].
  eapply kept_trans; [done | apply IH].
Qed.

End V0More.

(** X2. In the first assigner a first week of two, three or four matches
    whose first match has the form home-away always ends in
    [AttributeError]: the first match is given a table, and for the second
    the code calls [remove] on the iterator of [itertools.combinations]. *)
Theorem v0_week_of_several_matches_raises wn md m1 m2 ms rest h a :
  split_dash m1 = [h; a] →
  (length (m1 :: m2 :: ms) ≤ 4)%nat →
  (V0.assign_tables ((wn :: md :: m1 :: m2 :: ms) :: rest)).1
  = Raise AttributeError.
Proof.
  intros Hs Hlen. unfold V0.assign_tables. cbn [V0.assign_weeks].
  destruct (combinations_first (length (m1 :: m2 :: ms)))
    as (c & cs & ->); [cbn in *; lia|].
  cbn [V0.assign_matches V0.try_combos V0.try_combo]. rewrite Hs.
  assert (V0.acceptable V0.empty_ledger h a "1-2" = true) as ->.
  { unfold V0.acceptable, V0.history, V0.usage_count, V0.empty_ledger. cbn.
    by rewrite !lookup_empty. }
  match goal with |- context [V0.try_combos m1 cs ?wa ?u ?L] =>
    destruct (try_combos_splits m1 h a cs wa u L Hs)
      as (wa' & used' & L' & -> & Hu) end.
  destruct Hu as [t ->]; [by eexists|]. done.
Qed.

Lemma v0_week_of_several_matches_raises_witness :
  (V0.assign_tables [["1"; "d"; "1-2"; "3-4"]; ["2"; "d"; "1-3"; "2-4"]]).1
  = Raise AttributeError.
Proof.
  apply (v0_week_of_several_matches_raises "1" "d" "1-2" "3-4" [] _ "1" "2");
    [reflexivity | cbn; lia].
Defined.

(** X3. What a run of the first assigner that returns has recorded: for
    every week, in order, one entry per match (none for a week without
    matches), all entries of a week with the same dictionary, which holds at
    most one match and is empty when the week has two matches or more. *)
Theorem v0_success_shape schedule assignments L :
  V0.assign_tables schedule = (Ok assignments, L) →
  ∃ dicts,
    assignments = concat (zip_with V0.entries_of schedule dicts) ∧
    Forall2 (λ week wa, (length wa ≤ 1)%nat
                        ∧ ((4 ≤ length week)%nat → wa = []))
            schedule dicts.
Proof. intros H. by apply assign_weeks_shape in H. Qed.

Lemma v0_success_shape_witness :
  ∃ dicts,
    (V0.assign_tables [["1"; "d"; "1-2"]; ["2"; "d"]; ["3"; "d"; "2-1"]]).1
      = Ok (concat (zip_with V0.entries_of
                      [["1"; "d"; "1-2"]; ["2"; "d"]; ["3"; "d"; "2-1"]] dicts)) ∧
    Forall2 (λ week wa, (length wa ≤ 1)%nat
                        ∧ ((4 ≤ length week)%nat → wa = []))
            [["1"; "d"; "1-2"]; ["2"; "d"]; ["3"; "d"; "2-1"]] dicts.
Proof.
  destruct (v0_success_shape
              [["1"; "d"; "1-2"]; ["2"; "d"]; ["3"; "d"; "2-1"]]
              (default [] (match (V0.assign_tables
                 [["1"; "d"; "1-2"]; ["2"; "d"]; ["3"; "d"; "2-1"]]).1 with
                 | Ok a => Some a | Raise _ => None end))
              (V0.assign_tables
                 [["1"; "d"; "1-2"]; ["2"; "d"]; ["3"; "d"; "2-1"]]).2)
    as (dicts & Heq & Hd).
  - vm_compute. reflexivity.
  - exists dicts. split; [|exact Hd]. rewrite <- Heq. vm_compute. reflexivity.
Defined.

(** X4. A week with more than four matches (more than there are tables)
    raises nothing: every match is recorded with an empty dictionary and the
    ledger is left as it is. *)
Theorem v0_week_of_too_many_matches wn md ms rest L acc :
  (4 < length ms)%nat →
  V0.assign_weeks ((wn :: md :: ms) :: rest) L acc
  = V0.assign_weeks rest L (acc ++ replicate (length ms) (wn, md, [])).
Proof.
  intros Hlen. cbn [V0.assign_weeks].
  rewrite combinations_too_many by (cbn; lia).
  by rewrite assign_matches_exhausted.
Qed.

Lemma v0_week_of_too_many_matches_witness :
  V0.assign_weeks [["1"; "d"; "1-2"; "3-4"; "5-6"; "7-8"; "9-10"]]
                  V0.empty_ledger []
  = V0.assign_weeks [] V0.empty_ledger
      ([] ++ replicate 5 ("1", "d", [])).
Proof.
  apply (v0_week_of_too_many_matches "1" "d"
           ["1-2"; "3-4"; "5-6"; "7-8"; "9-10"] [] V0.empty_ledger []).
  cbn. lia.
Defined.

(** X5. The ledger of the first assigner: whatever the schedule and whether
    the run returns or raises, no usage count goes down, and no history
    grows beyond the 20 entries of its deque. *)
Theorem v0_ledger_invariants schedule L acc :
  V0.counts_grow L (V0.assign_weeks schedule L acc).2 ∧
  (V0.bounded L → V0.bounded (V0.assign_weeks schedule L acc).2).
Proof.
  destruct (assign_weeks_kept schedule L acc) as [Hb Hg]. by split.
Qed.

Lemma v0_ledger_invariants_witness :
  V0.counts_grow V0.empty_ledger (V0.assign_tables (Examples.v0_weeks 6)).2 ∧
  V0.bounded (V0.assign_tables (Examples.v0_weeks 6)).2.
Proof.
  destruct (v0_ledger_invariants (Examples.v0_weeks 6) V0.empty_ledger [])
    as [Hg Hb].
  split; [exact Hg|]. apply Hb.
  intros team. unfold V0.history, V0.empty_ledger. cbn.
  rewrite lookup_empty. cbn. lia.
Defined.

(** ** The two records of a table agree *)

Section Consistency.
Import V1.

Implicit Types (t : Table) (tables : list Table).

Lemma times_used_add_team t team team' :
  times_used (add_team team t) team' =
    if decide (team = team') then times_used t team + 1 else times_used t team'.
Proof.
  unfold times_used, add_team. cbn [last_used_by].
  rewrite filter_app, length_app, filter_cons, filter_nil.
  destruct (decide (team = team')) as [->|Hne]; cbn; lia.
Qed.

Lemma consistent_init table_id : consistent (Table_init table_id).
Proof. intros team. unfold get_usage, times_used. cbn. by rewrite lookup_empty. Qed.

Lemma consistent_add_team team t : consistent t → consistent (add_team team t).
Proof.
  intros Ht team'. rewrite get_usage_add_team, times_used_add_team.
  case_decide; subst; by rewrite Ht.
Qed.

Lemma sum_insert (m : gmap Z Z) (k v : Z) :
  map_fold (λ _ v acc, v + acc) 0 (<[k:=v]> m)
  = map_fold (λ _ v acc, v + acc) 0 m - default 0 (m !! k) + v.
Proof.
  rewrite <- insert_delete_eq.
  rewrite map_fold_insert_L; [|intros; lia | apply lookup_delete_eq].
  destruct (m !! k) as [old|] eqn:Hk; cbn.
  - rewrite (map_fold_delete_L _ _ k old m); [lia | intros; lia | done].
  - rewrite delete_id by done. lia.
Qed.

Lemma total_add_team team t :
  V2.get_total_usage (add_team team t) = V2.get_total_usage t + 1.
Proof.
  unfold V2.get_total_usage, add_team. cbn. rewrite sum_insert.
  unfold get_usage. lia.
Qed.

Lemma total_consistent_init table_id : V2.total_consistent (Table_init table_id).
Proof. unfold V2.total_consistent, V2.get_total_usage. cbn. apply map_fold_empty. Qed.

Lemma total_consistent_add_team team t :
  V2.total_consistent t → V2.total_consistent (add_team team t).
Proof.
  unfold V2.total_consistent. intros Ht. rewrite total_add_team, Ht.
  cbn. rewrite length_app. cbn. lia.
Qed.

(** What holds of every table before holds after: for properties that
    [add_team] keeps. *)
Section Kept.
Context (P : Table → Prop) (HP : ∀ team t, P t → P (add_team team t)).

Lemma assign_table_keeps m table tables :
  Forall P tables → Forall P (assign_table m table tables).2.
Proof.
  cbn. intros Hall. apply Forall_alter; [done|]. intros t _ Ht. by do 2 apply HP.
Qed.

Lemma v1_assign_matches_keeps ms : ∀ self tables,
  Forall P tables → Forall P (assign_matches self ms tables).2.
Proof.
  induction ms as [|m ms IH]; intros self tables Hall; cbn; [done|].
  destruct (bye_match (bye_team_id self) m).
  { specialize (IH self tables Hall).
    by destruct (assign_matches self ms tables) as [[[? ?] ?] ?]. }
  destruct (find_best_table self m _ tables) as [[best|]|e]; cbn; try done.
  match goal with |- context [assign_matches ?s ms ?t] =>
    specialize (IH s t); destruct (assign_matches s ms t) as [[[? ?] ?] ?] end.
  cbn in *. apply IH. by apply (assign_table_keeps m best tables).
Qed.

Lemma v1_assign_weeks_keeps set_order bye weeks : ∀ i tables,
  Forall P tables → Forall P (assign_weeks set_order i bye weeks tables).2.
Proof.
  induction weeks as [|w weeks IH]; intros i tables Hall; cbn; [done|].
  unfold assign_week.
  destruct (calculate_usage_stats w tables bye) as [[[]|e] w1]; cbn; [|done].
  unfold assign_tables.
  match goal with |- context [assign_matches ?s ?ms ?t] =>
    pose proof (v1_assign_matches_keeps ms s t Hall) as H1;
    destruct (assign_matches s ms t) as [[[[[]|?] ?] ?] t2] end; cbn in *;
    [|done].
  specialize (IH (S i) t2 H1).
  by destruct (assign_weeks set_order (S i) bye weeks t2) as [[? ?] ?].
Qed.

Lemma v2_assign_matches_keeps ms : ∀ self tables,
  Forall P tables → Forall P (V2.assign_matches self ms tables).2.
Proof.
  induction ms as [|m ms IH]; intros self tables Hall; cbn; [done|].
  destruct (bye_match (V2.bye_team_id self) m).
  { specialize (IH self tables Hall).
    by destruct (V2.assign_matches self ms tables) as [[[? ?] ?] ?]. }
  destruct (V2.find_best_table self m tables) as [[best|]|e]; cbn; try done.
  match goal with |- context [V2.assign_matches ?s ms ?t] =>
    specialize (IH s t); destruct (V2.assign_matches s ms t) as [[[? ?] ?] ?] end.
  cbn in *. apply IH. by apply (assign_table_keeps m best tables).
Qed.

Lemma v2_assign_weeks_keeps set_order weeks : ∀ i tables,
  Forall P tables → Forall P (V2.assign_weeks set_order i weeks tables).2.
Proof.
  induction weeks as [|w weeks IH]; intros i tables Hall; cbn; [done|].
  unfold V2.assign_tables.
  match goal with |- context [V2.assign_matches ?s ?ms ?t] =>
    pose proof (v2_assign_matches_keeps ms s t Hall) as H1;
    destruct (V2.assign_matches s ms t) as [[[[[]|?] ?] ?] t2] end; cbn in *;
    [|done].
  specialize (IH (S i) t2 H1).
  by destruct (V2.assign_weeks set_order (S i) weeks t2) as [[? ?] ?].
Qed.

End Kept.

End Consistency.

(** X6. The two records a table keeps agree at every moment of a run of v1
    or v2, whether it returns or raises: from tables for which this holds
    (as for new tables), the usage count of a team on a table is the number
    of its entries in [last_used_by], and the total usage read by v2 is the
    length of [last_used_by]. *)
Theorem ledger_records_agree :
  (∀ table_id, V1.consistent (V1.Table_init table_id)
               ∧ V2.total_consistent (V1.Table_init table_id)) ∧
  (∀ set_order i bye weeks tables,
     Forall V1.consistent tables →
     Forall V1.consistent (V1.assign_weeks set_order i bye weeks tables).2) ∧
  (∀ set_order weeks tables,
     Forall (λ t, V1.consistent t ∧ V2.total_consistent t) tables →
     Forall (λ t, V1.consistent t ∧ V2.total_consistent t)
            (V2.assign_all_tables set_order weeks tables).2).
Proof.
  split; [|split].
  - intros. split; [apply consistent_init | apply total_consistent_init].
  - intros. apply v1_assign_weeks_keeps; [apply consistent_add_team | done].
  - intros. apply v2_assign_weeks_keeps; [|done].
    intros team t [? ?].
    split; [by apply consistent_add_team | by apply total_consistent_add_team].
Qed.

Lemma ledger_records_agree_witness :
  Forall (λ t, V1.consistent t ∧ V2.total_consistent t)
         (V2.assign_all_tables (λ _, id)
            [Examples.v2_week 1; Examples.v2_week 2] Examples.tables_AB).2.
Proof.
  destruct ledger_records_agree as (Hinit & _ & H).
  apply H. repeat constructor; apply Hinit.
Defined.

(** ** A week of v2 succeeds exactly when the tables suffice *)

Section V2Complete.
Import V2.

Implicit Types (m : Match) (ms : list Match) (w self : Week)
  (t : Table) (tables : list Table).

Lemma settled_init table_id : settled (V1.Table_init table_id).
Proof. by left. Qed.

Lemma settled_add_teams h a t :
  h ≠ a → settled (V1.add_team a (V1.add_team h t)).
Proof.
  intros Hne. right. exists (V1.last_used_by t), h, a. split; [|done].
  cbn. by rewrite <- app_assoc.
Qed.

Lemma settled_lookup_total tables (i : nat) :
  Forall settled tables → settled (tables !!! i).
Proof.
  intros Hall. destruct (tables !! i) as [t|] eqn:Hi.
  - rewrite (list_lookup_total_correct _ _ _ Hi).
    by eapply Forall_lookup_1.
  - rewrite list_lookup_total_alt, Hi. cbn. apply settled_init.
Qed.

Lemma was_recently_used_by_settled t team :
  settled t → ∃ n, was_recently_used_by t team = Ok n.
Proof.
  unfold was_recently_used_by. intros [->|(l & a & b & -> & Hne)]; [by eexists|].
  destruct (l ++ [a; b]) as [|x k] eqn:Hl; [by eexists|]. rewrite <- Hl.
  rewrite reverse_app. cbn.
  case_bool_decide as Hb; [|by eexists].
  case_bool_decide; [congruence|]. cbn. by eexists.
Qed.

Lemma table_value_settled t m : settled t → ∃ v, table_value t m = Ok v.
Proof.
  intros Ht. unfold table_value.
  destruct (was_recently_used_by_settled t (V1.home_team m) Ht) as [n1 ->].
  destruct (was_recently_used_by_settled t (V1.away_team m) Ht) as [n2 ->].
  cbn. by eexists.
Qed.

Lemma best_of_settled tables m valid : ∀ best,
  Forall settled tables → ∃ r, best_of tables m best valid = Ok r.
Proof.
  induction valid as [|a valid IH]; intros best Hall; cbn; [by eexists|].
  destruct (table_value_settled (tables !!! a) m) as [v ->];
    [by apply settled_lookup_total|].
  cbn. destruct best as [[b s]|]; [destruct (V1.score_lt v s)|]; by apply IH.
Qed.

(** With a table left and settled tables, a table is found. *)
Lemma v2_find_best_table_total self m tables :
  Forall settled tables → available_tables self ≠ [] →
  ∃ best, find_best_table self m tables = Ok (Some best)
          ∧ best ∈ available_tables self.
Proof.
  intros Hall Hav.
  destruct (find_best_table self m tables) as [r|e] eqn:Hf.
  - assert (is_Some r) as [best ->].
    { unfold find_best_table in Hf.
      destruct (available_tables self) as [|a av]; [done|].
      eapply best_of_Some; [done | by left]. }
    exists best. split; [done | by eapply v2_find_best_table_in].
  - unfold find_best_table in Hf.
    destruct (available_tables self) as [|a av]; [done|].
    destruct (best_of_settled tables m (a :: av) None Hall) as [r Hr].
    congruence.
Qed.

Lemma length_filter_remove (best : TableRef) (av : list TableRef) :
  NoDup av → best ∈ av →
  S (length (filter (λ r : TableRef, r ≠ best) av)) = length av.
Proof.
  induction 1 as [|x av Hx Hnd IH]; [by intros ?%elem_of_nil|].
  rewrite filter_cons. intros [->|Hin]%elem_of_cons.
  - rewrite decide_False by (by intros ?). f_equal.
    clear IH. induction av as [|y av IH]; [done|].
    apply not_elem_of_cons in Hx as [? ?]. apply NoDup_cons in Hnd as [? ?].
    rewrite filter_cons, decide_True by done. cbn. f_equal. by apply IH.
  - rewrite decide_True by (intros ->; done). cbn. f_equal. by apply IH.
Qed.

Lemma assign_table_settled m best tables :
  V1.home_team m ≠ V1.away_team m →
  Forall settled tables → Forall settled (V1.assign_table m best tables).2.
Proof.
  intros Hne Hall. cbn. apply Forall_alter; [done|].
  intros t _ _. by apply settled_add_teams.
Qed.

Lemma played_cons bye m ms :
  played bye (m :: ms) =
    if V1.bye_match bye m then played bye ms else m :: played bye ms.
Proof.
  unfold played. rewrite filter_cons.
  destruct (V1.bye_match bye m); [by rewrite decide_False | by rewrite decide_True].
Qed.

Lemma assigned_from_mono bye av av' m m' :
  (∀ x, x ∈ av → x ∈ av') → assigned_from bye av m m' → assigned_from bye av' m m'.
Proof.
  unfold assigned_from. destruct (V1.bye_match bye m); [done|].
  intros Hsub (t & ? & ->). exists t. auto.
Qed.

Lemma v2_assign_matches_succeeds ms : ∀ self tables,
  Forall settled tables →
  distinct_teams (bye_team_id self) ms →
  NoDup (available_tables self) →
  (length (played (bye_team_id self) ms) ≤ length (available_tables self))%nat →
  ∃ self' ms' tables',
    assign_matches self ms tables = (Ok (), self', ms', tables') ∧
    Forall2 (assigned_from (bye_team_id self) (available_tables self)) ms ms' ∧
    Forall settled tables'.
Proof.
  induction ms as [|m ms IH]; intros self tables Hall Hdist Hnd Hlen; cbn.
  { by eexists _, _, _. }
  unfold distinct_teams in Hdist. rewrite played_cons in Hdist, Hlen.
  destruct (V1.bye_match (bye_team_id self) m) eqn:Hbye.
  - destruct (IH self tables Hall Hdist Hnd Hlen)
      as (s' & ms' & t' & -> & Hms & Ht').
    eexists _, _, _. split; [done|]. split; [|done].
    constructor; [|done]. unfold assigned_from. by rewrite Hbye.
  - apply Forall_cons in Hdist as [Hm Hdist]. cbn in Hlen.
    destruct (v2_find_best_table_total self m tables Hall)
      as (best & -> & Hin);
      [intros Hnil; rewrite Hnil in Hlen; cbn in Hlen; lia|].
    pose proof (length_filter_remove best _ Hnd Hin) as Hrem.
    match goal with |- context [assign_matches ?s ms ?t] =>
      destruct (IH s t) as (s' & ms' & t' & -> & Hms & Ht') end.
    + by apply assign_table_settled.
    + done.
    + by apply NoDup_filter.
    + cbn. lia.
    + eexists _, _, _. split; [done|]. split; [|done]. constructor.
      * unfold assigned_from. rewrite Hbye. by exists best.
      * eapply Forall2_impl; [done|]. intros x y. cbn.
        apply assigned_from_mono. by intros ? [_ ?]%list_elem_of_filter.
Qed.

Lemma v2_assign_matches_runs_out ms : ∀ self tables m,
  Forall settled tables →
  distinct_teams (bye_team_id self) ms →
  NoDup (available_tables self) →
  played (bye_team_id self) ms !! length (available_tables self) = Some m →
  (assign_matches self ms tables).1.1.1
  = Raise (ValueError (NoAvailableTable (V1.home_team m) (V1.away_team m)
                                        (week_id self))).
Proof.
  induction ms as [|m0 ms IH]; intros self tables m Hall Hdist Hnd Hm; cbn.
  { done. }
  unfold distinct_teams in Hdist. rewrite played_cons in Hdist, Hm.
  destruct (V1.bye_match (bye_team_id self) m0) eqn:Hbye.
  - specialize (IH self tables m Hall Hdist Hnd Hm).
    by destruct (assign_matches self ms tables) as [[[? ?] ?] ?].
  - apply Forall_cons in Hdist as [Hm0 Hdist].
    destruct (decide (available_tables self = [])) as [Hav|Hav].
    + rewrite Hav in Hm. cbn in Hm. injection Hm as ->.
      unfold find_best_table. by rewrite Hav.
    + destruct (v2_find_best_table_total self m0 tables Hall Hav)
        as (best & -> & Hin).
      pose proof (length_filter_remove best _ Hnd Hin) as Hrem.
      rewrite <- Hrem in Hm. cbn in Hm.
      match goal with |- context [assign_matches ?s ms ?t] =>
        specialize (IH s t m); destruct (assign_matches s ms t)
          as [[[? ?] ?] ?] end.
      cbn in *. apply IH; [by apply assign_table_settled | done | | done].
      by apply NoDup_filter.
Qed.

End V2Complete.

Lemma v2_assign_tables_complete set_order (w : V2.Week) tables :
  enumerates set_order →
  Forall V2.settled tables →
  V2.distinct_teams (V2.bye_team_id w) (V2.matches w) →
  ((length (V2.played (V2.bye_team_id w) (V2.matches w)) ≤ length tables)%nat →
   ∃ w' tables',
     V2.assign_tables set_order w tables = (Ok (), w', tables') ∧
     Forall2 (V2.assigned_from (V2.bye_team_id w) (seq 0 (length tables)))
             (V2.matches w) (V2.matches w') ∧
     Forall V2.settled tables') ∧
  (∀ m,
     V2.played (V2.bye_team_id w) (V2.matches w) !! length tables = Some m →
     (V2.assign_tables set_order w tables).1.1
     = Raise (ValueError (NoAvailableTable (V1.home_team m) (V1.away_team m)
                                           (V2.week_id w)))).
Proof.
  intros Henum Hall Hdist.
  assert (Hnd : NoDup (set_order (seq 0 (length tables)))).
  { rewrite (Henum _). apply NoDup_seq. }
  assert (Hlen : length (set_order (seq 0 (length tables))) = length tables).
  { by rewrite (Henum _), length_seq. }
  split.
  - intros Hle. unfold V2.assign_tables.
    match goal with |- context [V2.assign_matches ?s ?ms ?t] =>
      destruct (v2_assign_matches_succeeds ms s t)
        as (s' & ms' & t' & -> & Hms & Ht') end; [done | done | done | |].
    { cbn. unfold V1.TableRef. by rewrite Hlen. }
    eexists _, _. split; [done|]. split; [|done]. cbn in *.
    eapply Forall2_impl; [done|]. intros x y.
    apply assigned_from_mono. intros t. by rewrite (Henum _).
  - intros m Hm. unfold V2.assign_tables.
    match goal with |- context [V2.assign_matches ?s ?ms ?t] =>
      pose proof (v2_assign_matches_runs_out ms s t m Hall Hdist Hnd) as Hr;
      destruct (V2.assign_matches s ms t) as [[[? ?] ?] ?] end.
    cbn in *. apply Hr. unfold V1.TableRef. by rewrite Hlen.
Qed.

(** X7. A week of v2 whose played matches are between different teams, on
    tables whose last two entries differ (as they do after any such match,
    and for new tables): if the played matches are no more than the tables,
    [assign_tables] returns, every played match holds a table of the pool
    and every bye match is as it was; otherwise it raises the [ValueError]
    for the first played match beyond the number of tables, with the id of
    the week. *)
Theorem v2_week_succeeds_iff_tables_suffice set_order w tables :
  enumerates set_order →
  Forall V2.settled tables →
  V2.distinct_teams (V2.bye_team_id w) (V2.matches w) →
  ((length (V2.played (V2.bye_team_id w) (V2.matches w)) ≤ length tables)%nat →
   ∃ w' tables',
     V2.assign_tables set_order w tables = (Ok (), w', tables') ∧
     Forall2 (V2.assigned_from (V2.bye_team_id w) (seq 0 (length tables)))
             (V2.matches w) (V2.matches w') ∧
     Forall V2.settled tables') ∧
  (∀ m,
     V2.played (V2.bye_team_id w) (V2.matches w) !! length tables = Some m →
     (V2.assign_tables set_order w tables).1.1
     = Raise (ValueError (NoAvailableTable (V1.home_team m) (V1.away_team m)
                                           (V2.week_id w)))).
Proof. apply v2_assign_tables_complete. Qed.

Lemma v2_week_succeeds_iff_tables_suffice_witness :
  (∃ w' tables',
     V2.assign_tables id (Examples.v2_week 1) Examples.tables_AB
       = (Ok (), w', tables') ∧
     Forall2 (V2.assigned_from V1.ByeNone (seq 0 2))
             (V2.matches (Examples.v2_week 1)) (V2.matches w') ∧
     Forall V2.settled tables') ∧
  (V2.assign_tables id (Examples.v2_week 1) Examples.table_A).1.1
  = Raise (ValueError (NoAvailableTable 3 4 1)).
Proof.
  split.
  - apply (v2_week_succeeds_iff_tables_suffice id (Examples.v2_week 1)
             Examples.tables_AB).
    + intros l. reflexivity.
    + repeat constructor.
    + repeat constructor; discriminate.
    + vm_compute. lia.
  - apply (proj2 (v2_week_succeeds_iff_tables_suffice id (Examples.v2_week 1)
                    Examples.table_A ltac:(intros l; reflexivity)
                    ltac:(repeat constructor)
                    ltac:(repeat constructor; discriminate))
                 (V1.Match_init 3 4)).
    reflexivity.
Defined.
(** ** v3: what a run assigns, and the search *)

Section V3Extra.
Import V3.

Implicit Types (m : Match) (ms : list Match) (h : histories) (t : Table)
  (w : Week) (tables perm : list Table).

Lemma assign_tables_later rnd w tables h r w' h' :
  week_id w ≠ "1" → unassigned (matches w) →
  assign_tables rnd w tables h = (r, w', h') →
  week_id w' = week_id w ∧ unassigned (matches w') ∧ h' = h.
Proof.
  intros Hid%String.eqb_neq Hfresh. unfold assign_tables. rewrite Hid.
  destruct (assign_tables_to_matches w _ tables h) as [[r1 ms1] h1] eqn:Ha.
  intros [= <- <- <-]. cbn.
  by apply assign_tables_to_matches_unassigned in Ha as [? ->].
Qed.

Lemma assign_tables_week_id rnd w tables h :
  week_id (assign_tables rnd w tables h).1.2 = week_id w.
Proof.
  unfold assign_tables. destruct (String.eqb _ _).
  - cbn. by destruct (assign_first_week _ _ h) as [[r1 ms1] h1].
  - by destruct (assign_tables_to_matches w _ tables h) as [[r1 ms1] h1].
Qed.

Lemma assign_weeks_later rnd total tables weeks : ∀ i h r weeks' h',
  Forall (λ w, unassigned (matches w)) weeks →
  assign_weeks rnd i total tables weeks h = (r, weeks', h') →
  Forall2 (λ w w', week_id w' = week_id w ∧
                   (week_id w ≠ "1" → unassigned (matches w')))
          weeks weeks' ∧
  (Forall (λ w, week_id w ≠ "1") weeks → h' = h).
Proof.
  induction weeks as [|w weeks IH]; intros i h r weeks' h' Hfresh; cbn.
  { intros [= <- <- <-]. by split; [constructor|]. }
  apply Forall_cons in Hfresh as [Hw Hfresh].
  destruct (assign_tables (rnd i) (set_weeks_total total w) tables h)
    as [[r1 w1] h1] eqn:Ha.
  assert (Hid : week_id w1 = week_id w).
  { pose proof (assign_tables_week_id (rnd i) (set_weeks_total total w)
                  tables h) as Hk. by rewrite Ha in Hk. }
  assert (Hlater : week_id w ≠ "1" → unassigned (matches w1) ∧ h1 = h).
  { intros Hne.
    by apply assign_tables_later in Ha as (_ & ? & ?). }
  destruct r1 as [[]|e].
  - destruct (assign_weeks rnd (S i) total tables weeks h1)
      as [[r2 ws2] h2] eqn:Hrec.
    intros [= <- <- <-].
    destruct (IH _ _ _ _ _ Hfresh Hrec) as [IH1 IH2]. split.
    + constructor; [|done]. split; [done|]. intros Hne. by apply Hlater.
    + intros [Hne Hrest]%Forall_cons.
      destruct (Hlater Hne) as [_ ->]. by apply IH2.
  - intros [= <- <- <-]. split.
    + constructor.
      * split; [done|]. intros Hne. by apply Hlater.
      * clear -Hfresh. induction Hfresh; constructor; auto.
    + intros [Hne _]%Forall_cons. by destruct (Hlater Hne) as [_ ->].
Qed.

(** X8. In a run of v3 over weeks whose matches hold no table, only the
    weeks with id "1" can come out with tables: every other week leaves its
    matches without a table, whether its search succeeds, fails or raises,
    and a schedule without a week "1" leaves the histories of the teams as
    they were. *)
Theorem v3_tables_are_assigned_in_week_one_only rnd tables weeks h r weeks' h' :
  Forall (λ w, unassigned (matches w)) weeks →
  assign_all_tables rnd tables weeks h = (r, weeks', h') →
  Forall2 (λ w w', week_id w' = week_id w ∧
                   (week_id w ≠ "1" → unassigned (matches w')))
          weeks weeks' ∧
  (Forall (λ w, week_id w ≠ "1") weeks → h' = h).
Proof. intros Hfresh Hrun. by eapply assign_weeks_later. Qed.

Lemma v3_tables_are_assigned_in_week_one_only_witness :
  let run := assign_all_tables (λ _, no_shuffle) Examples.two_tables
               [Examples.v3_week "1"; Examples.v3_week "2"]
               Examples.histories_empty in
  Forall2 (λ w w', week_id w' = week_id w ∧
                   (week_id w ≠ "1" → unassigned (matches w')))
          [Examples.v3_week "1"; Examples.v3_week "2"] run.1.2 ∧
  (Forall (λ w, week_id w ≠ "1")
          [Examples.v3_week "1"; Examples.v3_week "2"] →
   run.2 = Examples.histories_empty).
Proof.
  intros run.
  apply (v3_tables_are_assigned_in_week_one_only (λ _, no_shuffle)
           Examples.two_tables [Examples.v3_week "1"; Examples.v3_week "2"]
           Examples.histories_empty run.1.1 run.1.2 run.2).
  - repeat constructor.
  - vm_compute. reflexivity.
Defined.

(** *** v3 as the manager builds it *)

Lemma permutations_first {A} (r : nat) : ∀ l : list A,
  (r ≤ length l)%nat → ∃ rest, permutations r l = take r l :: rest.
Proof.
  induction r as [|r IH]; intros l Hle; cbn.
  { exists []. by rewrite take_0. }
  destruct l as [|x l]; cbn in *; [lia|].
  destruct (IH l ltac:(lia)) as [rest ->]. cbn.
  eexists. reflexivity.
Qed.

Lemma first_match_raises m ms perm h :
  candidate_tables m = None →
  h !! home_team m = None → h !! away_team m = None →
  ∀ t, populate_match_candidate_tables h (m :: ms) (t :: perm)
       = (Raise AttributeError, m :: ms).
Proof.
  intros Hc Hh Ha t. cbn. unfold repeats, played_last.
  rewrite Hh, Ha. cbn. unfold assign_candidate_table. by rewrite Hc.
Qed.

Lemma assign_tables_as_built rnd w tables h :
  fair rnd →
  matches w ≠ [] → (length (matches w) ≤ length tables)%nat →
  Forall (λ m, candidate_tables m = None ∧ h !! home_team m = None
               ∧ h !! away_team m = None) (matches w) →
  (assign_tables rnd w tables h).1.1 = Raise AttributeError.
Proof.
  intros [Hft Hfm] Hne Hle Hall. unfold assign_tables.
  destruct (String.eqb (week_id w) "1").
  - cbn.
    assert (Hall' : Forall (λ m, candidate_tables m = None
                                 ∧ h !! home_team m = None
                                 ∧ h !! away_team m = None)
                           (shuffle_matches rnd (matches w))).
    { by rewrite Hfm. }
    assert (Hlen : length (shuffle_matches rnd (matches w))
                   = length (matches w)) by by rewrite Hfm.
    assert (Hlent : length (shuffle_tables rnd tables) = length tables)
      by by rewrite Hft.
    destruct (shuffle_matches rnd (matches w)) as [|m ms].
    { destruct (matches w); [done | cbn in Hlen; lia]. }
    apply Forall_cons in Hall' as [(_ & Hh & _) _]. cbn.
    destruct (pop (shuffle_tables rnd tables)) as [[t av]|] eqn:Hpop.
    + unfold assign_table, tables_assigned_append. cbn. by rewrite Hh.
    + apply pop_None in Hpop. rewrite Hpop in Hlent.
      destruct (matches w); [done | cbn in *; lia].
  - unfold assign_tables_to_matches, max_usage_per_table.
    destruct (matches w) as [|m ms] eqn:Hms; [done|].
    destruct tables as [|t tables]; [cbn in Hle; lia|].
    rewrite decide_False by (cbn; lia).
    destruct (permutations_first (length (m :: ms)) (t :: tables) Hle)
      as [rest ->].
    apply Forall_cons in Hall as [(Hc & Hh & Ha) _].
    cbn [take length get_permutations].
    by rewrite first_match_raises.
Qed.

(** X9. A week as the manager of v3 builds it: [Team.__init__] and
    [Match.__init__] leave [tables_assigned] and [candidate_tables] at
    [None] and nothing gives them a list.  Whenever such a week has a match
    and no more matches than tables, [Week.assign_tables] raises
    [AttributeError], in the branch of week "1" as in the search of the
    other weeks. *)
Theorem v3_as_built_raises rnd w tables h :
  fair rnd →
  matches w ≠ [] → (length (matches w) ≤ length tables)%nat →
  Forall (λ m, candidate_tables m = None ∧ h !! home_team m = None
               ∧ h !! away_team m = None) (matches w) →
  (assign_tables rnd w tables h).1.1 = Raise AttributeError.
Proof. apply assign_tables_as_built. Qed.

Lemma v3_as_built_raises_witness :
  (assign_tables reversing (Examples.v3_week "1") Examples.two_tables ∅).1.1
  = Raise AttributeError ∧
  (assign_tables reversing (Examples.v3_week "2") Examples.two_tables ∅).1.1
  = Raise AttributeError.
Proof.
  split.
  - apply (v3_as_built_raises reversing (Examples.v3_week "1")
             Examples.two_tables ∅).
    + split; intros l; apply reverse_Permutation.
    + discriminate.
    + cbn. lia.
    + repeat constructor.
  - apply (v3_as_built_raises reversing (Examples.v3_week "2")
             Examples.two_tables ∅).
    + split; intros l; apply reverse_Permutation.
    + discriminate.
    + cbn. lia.
    + repeat constructor.
Defined.

(** *** The first week, with histories that are lists *)

Lemma tables_assigned_append_is_Some team t h :
  is_Some (h !! team) →
  ∃ h1, tables_assigned_append team t h = Ok h1 ∧
        ∀ x, is_Some (h1 !! x) ↔ is_Some (h !! x).
Proof.
  intros [l Hl]. unfold tables_assigned_append. rewrite Hl.
  eexists. split; [done|]. intros x.
  rewrite lookup_insert_is_Some. split.
  - intros [<-|[_ ?]]; [by eexists | done].
  - intros Hx. destruct (decide (team = x)); [by left | by right].
Qed.

Lemma assign_table_is_Some m t h :
  is_Some (h !! home_team m) → is_Some (h !! away_team m) →
  ∃ h', assign_table m t h = (Ok (), set_table_assigned (Some t) m, h') ∧
        ∀ x, is_Some (h' !! x) ↔ is_Some (h !! x).
Proof.
  intros Hh Ha. unfold assign_table. cbn.
  destruct (tables_assigned_append_is_Some (home_team m) t h Hh)
    as (h1 & -> & H1).
  destruct (tables_assigned_append_is_Some (away_team m) t h1) as (h2 & -> & H2).
  { by apply H1. }
  exists h2. split; [done|]. intros x. by rewrite H2, H1.
Qed.

Lemma assign_first_week_exact ms : ∀ tables h,
  Forall (λ m, is_Some (h !! home_team m) ∧ is_Some (h !! away_team m)) ms →
  ∃ h',
    assign_first_week ms tables h
    = (if decide (length ms ≤ length tables)%nat then Ok ()
       else Raise IndexError,
       zip_with (λ m t, set_table_assigned (Some t) m) ms (reverse tables)
         ++ drop (length tables) ms,
       h') ∧
    ∀ x, is_Some (h' !! x) ↔ is_Some (h !! x).
Proof.
  induction ms as [|m ms IH]; intros tables h Hall; cbn [assign_first_week].
  { exists h. rewrite decide_True by (cbn; lia). by rewrite drop_nil. }
  apply Forall_cons in Hall as [[Hh Ha] Hall].
  destruct (pop tables) as [[t av]|] eqn:Hpop.
  - apply pop_Some in Hpop as ->.
    destruct (assign_table_is_Some m t h Hh Ha) as (h1 & -> & H1).
    destruct (IH av h1) as (h2 & -> & H2).
    { eapply Forall_impl; [exact Hall|]. intros m' [? ?]. cbn.
      by rewrite !H1. }
    exists h2. split; [|intros x; by rewrite H2, H1].
    rewrite reverse_app, reverse_singleton, length_app. cbn.
    replace (length av + 1)%nat with (S (length av)) by lia. cbn.
    destruct (decide (length ms ≤ length av)%nat);
      [rewrite decide_True by lia | rewrite decide_False by lia]; done.
  - apply pop_None in Hpop as ->. exists h. split; [|done].
    rewrite decide_False by (cbn; lia). done.
Qed.

(** X10. Week "1" of v3 where the teams' [tables_assigned] are lists: the
    matches, in their shuffled order, get the shuffled tables from the last
    one backwards.  With no more matches than tables the call returns;
    otherwise it raises [IndexError] at the first match that finds the list
    of tables empty, the matches before it keeping their tables. *)
Theorem v3_first_week_exact rnd w tables h :
  fair rnd → week_id w = "1" →
  Forall (λ m, is_Some (h !! home_team m) ∧ is_Some (h !! away_team m))
         (matches w) →
  let ms := shuffle_matches rnd (matches w) in
  let ts := reverse (shuffle_tables rnd tables) in
  ∃ h',
    assign_tables rnd w tables h
    = (if decide (length (matches w) ≤ length tables)%nat then Ok ()
       else Raise IndexError,
       set_matches
         (zip_with (λ m t, set_table_assigned (Some t) m) ms ts
            ++ drop (length tables) ms) w,
       h') ∧
    ∀ team, is_Some (h' !! team) ↔ is_Some (h !! team).
Proof.
  intros [Hft Hfm] Hid Hall ms ts. unfold assign_tables.
  rewrite Hid. cbn.
  destruct (assign_first_week_exact ms (shuffle_tables rnd tables) h)
    as (h' & Hrun & Hdom).
  { unfold ms. by rewrite Hfm. }
  fold ms. rewrite Hrun. exists h'. split; [|done].
  assert (Hlm : length ms = length (matches w)) by (unfold ms; by rewrite Hfm).
  assert (Hlt : length (shuffle_tables rnd tables) = length tables)
    by by rewrite Hft.
  by rewrite Hlm, Hlt.
Qed.

Lemma v3_first_week_exact_witness :
  ∃ h',
    assign_tables reversing (Examples.v3_week "1") Examples.two_tables
                  Examples.histories_empty
    = (Ok (),
       set_matches [mkMatch 3%nat 4%nat (Some 0%nat) None;
                    mkMatch 1%nat 2%nat (Some 1%nat) None]
                   (Examples.v3_week "1"),
       h') ∧
    ∀ team, is_Some (h' !! team) ↔ is_Some (Examples.histories_empty !! team).
Proof.
  apply (v3_first_week_exact reversing (Examples.v3_week "1")
           Examples.two_tables Examples.histories_empty).
  - split; intros l; apply reverse_Permutation.
  - reflexivity.
  - repeat constructor; by eexists.
Defined.

(** *** The permutation search *)

Lemma elem_of_flat_map {A B} (f : A → list B) (l : list A) (y : B) :
  y ∈ flat_map f l ↔ ∃ x, x ∈ l ∧ y ∈ f x.
Proof.
  rewrite list_elem_of_In, in_flat_map.
  split; intros (x & Hx & Hy); exists x; by rewrite ?list_elem_of_In in *.
Qed.

(** [selections] removes one position. *)
Lemma selections_spec {A} (l : list A) (p : A * list A) :
  p ∈ selections l ↔ ∃ l1 l2, l = l1 ++ p.1 :: l2 ∧ p.2 = l1 ++ l2.
Proof.
  split.
  - revert p. induction l as [|x l IH]; intros p; cbn.
    { by intros ?%elem_of_nil. }
    intros [->|Hp]%elem_of_cons.
    + by exists [], l.
    + apply list_elem_of_fmap in Hp as (q & -> & Hq).
      destruct (IH q Hq) as (l1 & l2 & -> & Hq2). cbn.
      exists (x :: l1), l2. by rewrite Hq2.
  - intros (l1 & l2 & -> & Hp). destruct p as [y rest]. cbn in *. subst rest.
    induction l1 as [|a l1 IH]; cbn.
    + apply list_elem_of_here.
    + apply list_elem_of_further, list_elem_of_fmap.
      by exists (y, l1 ++ l2).
Qed.

(** [permutations r l]: the lists of [r] elements of [l] taken at distinct
    positions. *)
Lemma permutations_sound {A} (r : nat) : ∀ (l p : list A),
  p ∈ permutations r l →
  length p = r ∧ p ⊆ l ∧ (NoDup l → NoDup p).
Proof.
  induction r as [|r IH]; intros l p; cbn.
  { intros ->%list_elem_of_singleton.
    split; [done|]. split; [|constructor]. by intros x ?%elem_of_nil. }
  intros ([x rest] & Hsel & Hp)%elem_of_flat_map.
  apply list_elem_of_fmap in Hp as (p' & -> & Hp'). cbn in *.
  apply selections_spec in Hsel as (l1 & l2 & -> & Hrest). cbn in Hrest.
  subst rest. destruct (IH _ _ Hp') as (Hlen & Hsub & Hnd).
  split; [by rewrite <- Hlen|]. split.
  - intros y [->|Hy]%elem_of_cons.
    + apply elem_of_app. right. apply list_elem_of_here.
    + apply Hsub in Hy. apply elem_of_app in Hy as [?|?]; apply elem_of_app;
        [by left | right; by apply list_elem_of_further].
  - intros (Hnd1 & Hdis & Hnd2)%NoDup_app.
    apply NoDup_cons in Hnd2 as [Hx Hnd2]. apply NoDup_cons. split.
    + intros Hin%Hsub. apply elem_of_app in Hin as [Hin|Hin]; [|done].
      apply (Hdis x Hin), list_elem_of_here.
    + apply Hnd. apply NoDup_app. split; [done|]. split; [|done].
      intros y Hy Hy2. apply (Hdis y Hy). by apply list_elem_of_further.
Qed.

Lemma permutations_complete {A} (r : nat) : ∀ (l p : list A),
  length p = r → NoDup p → p ⊆ l → p ∈ permutations r l.
Proof.
  induction r as [|r IH]; intros l p Hlen Hnd Hsub; cbn.
  { destruct p; [apply list_elem_of_here | done]. }
  destruct p as [|x p]; [done|]. cbn in Hlen.
  apply NoDup_cons in Hnd as [Hx Hnd].
  assert (Hxl : x ∈ l) by apply Hsub, list_elem_of_here.
  apply list_elem_of_split in Hxl as (l1 & l2 & ->).
  apply elem_of_flat_map. exists (x, l1 ++ l2). split.
  - apply selections_spec. by exists l1, l2.
  - cbn. apply list_elem_of_fmap. exists p. split; [done|].
    apply IH; [lia | done |].
    intros y Hy.
    assert (Hyl : y ∈ l1 ++ x :: l2) by by apply Hsub, list_elem_of_further.
    apply elem_of_app in Hyl as [?|Hyl]; apply elem_of_app; [by left|].
    apply elem_of_cons in Hyl as [->|?]; [done | by right].
Qed.

Lemma populate_rejects h ms : ∀ perm ms',
  populate_match_candidate_tables h ms perm = (Ok false, ms') →
  Exists (λ p, repeats h p.1 p.2 = true) (zip ms perm).
Proof.
  induction ms as [|m ms IH]; intros perm ms'; cbn; [done|].
  destruct perm as [|t perm]; [done|].
  destruct (repeats h m t) eqn:Hrep.
  { intros _. by apply Exists_cons_hd. }
  destruct (assign_candidate_table m t); [|done].
  destruct (populate_match_candidate_tables h ms perm) as [r1 ms1] eqn:Hrec.
  intros [= -> <-]. apply Exists_cons_tl. by eapply IH.
Qed.

Lemma repeats_same_Exists h ms ms' perm :
  same_but_candidates ms ms' →
  Exists (λ p, repeats h p.1 p.2 = true) (zip ms' perm) →
  Exists (λ p, repeats h p.1 p.2 = true) (zip ms perm).
Proof.
  intros Hs. revert perm.
  induction Hs as [|a b l1 l2 (Hh&Ha&_) _ IH]; intros perm; [done|].
  destruct perm as [|t perm]; [done|]. cbn.
  intros [Hb|Hb]%Exists_cons.
  - apply Exists_cons_hd. unfold repeats in *. cbn in *.
    by rewrite <- Hh, <- Ha.
  - apply Exists_cons_tl. by apply IH.
Qed.

Lemma get_permutations_rejects h perms : ∀ ms ms',
  get_permutations h ms perms = (Ok false, ms') →
  ∀ perm, perm ∈ perms →
          Exists (λ p, repeats h p.1 p.2 = true) (zip ms perm).
Proof.
  induction perms as [|p perms IH]; intros ms ms'; cbn.
  { by intros _ perm ?%elem_of_nil. }
  destruct (populate_match_candidate_tables h ms p) as [r1 ms1] eqn:Hp.
  destruct r1 as [[]|e]; [done| |done].
  intros Hrec perm [->|Hin]%elem_of_cons.
  - by eapply populate_rejects.
  - eapply repeats_same_Exists; [by eapply populate_same|].
    by eapply IH.
Qed.

Lemma populate_total h ms : ∀ perm,
  Forall (λ m, is_Some (candidate_tables m)) ms →
  ∃ b ms', populate_match_candidate_tables h ms perm = (Ok b, ms') ∧
           Forall (λ m, is_Some (candidate_tables m)) ms'.
Proof.
  induction ms as [|m ms IH]; intros perm Hall; cbn.
  { by exists true, []. }
  destruct perm as [|t perm]; [by exists true, (m :: ms)|].
  destruct (repeats h m t); [by exists false, (m :: ms)|].
  apply Forall_cons in Hall as [[c Hc] Hall].
  unfold assign_candidate_table. rewrite Hc.
  destruct (IH perm Hall) as (b & ms' & -> & Hall').
  eexists b, _. split; [done|]. constructor; [by eexists | done].
Qed.

Lemma get_permutations_total h perms : ∀ ms,
  Forall (λ m, is_Some (candidate_tables m)) ms →
  ∃ b ms', get_permutations h ms perms = (Ok b, ms').
Proof.
  induction perms as [|p perms IH]; intros ms Hall; cbn.
  { by exists false, ms. }
  destruct (populate_total h ms p Hall) as ([|] & ms1 & -> & Hall1).
  - by exists true, ms1.
  - by apply IH.
Qed.

(** X11. The search of v3 over matches that hold no table and whose
    [candidate_tables] are lists, with at least one table: it returns
    without an exception and leaves the histories alone, and it returns
    [True] exactly when some arrangement of distinct tables for the matches
    pairs no match with the table one of its teams was assigned last. *)
Theorem v3_search_decides w ms tables h :
  tables ≠ [] → NoDup tables → unassigned ms →
  Forall (λ m, is_Some (candidate_tables m)) ms →
  ∃ b ms',
    assign_tables_to_matches w ms tables h = (Ok b, ms', h) ∧
    (b = true ↔
     ∃ perm, length perm = length ms ∧ NoDup perm ∧ perm ⊆ tables ∧
             Forall (λ p, repeats h p.1 p.2 = false) (zip ms perm)).
Proof.
  intros Hne Hnd Hfresh Hall.
  unfold assign_tables_to_matches, max_usage_per_table.
  rewrite decide_False by (destruct tables; [done | cbn; lia]).
  destruct (get_permutations_total h (permutations (length ms) tables) ms Hall)
    as (b & ms1 & Hgp).
  rewrite Hgp. destruct b.
  - exists true, ms1. split; [done|]. split; [|done]. intros _.
    destruct (get_permutations_accepts _ _ _ _ Hgp) as (perm & Hin & Hok).
    apply permutations_sound in Hin as (Hlen & Hsub & Hnd').
    exists perm. auto.
  - pose proof (get_permutations_same _ _ _ _ _ Hgp) as Hsame.
    rewrite reset_assignments_unassigned
      by by eapply same_but_candidates_unassigned.
    exists false, ms1. split; [done|]. split; [done|].
    intros (perm & Hlen & Hnd' & Hsub & Hok).
    pose proof (get_permutations_rejects _ _ _ _ Hgp perm
                  (permutations_complete _ _ _ Hlen Hnd' Hsub)) as Hex.
    apply Exists_exists in Hex as (p & Hin & Hp).
    rewrite Forall_forall in Hok. specialize (Hok p Hin). congruence.
Qed.

Lemma v3_search_decides_witness :
  ∃ b ms',
    assign_tables_to_matches (Examples.v3_week "2") Examples.v3_matches_listed
      Examples.two_tables Examples.histories_after_one
    = (Ok b, ms', Examples.histories_after_one) ∧
    (b = true ↔
     ∃ perm, length perm = length Examples.v3_matches_listed ∧ NoDup perm ∧
             perm ⊆ Examples.two_tables ∧
             Forall (λ p, repeats Examples.histories_after_one p.1 p.2 = false)
                    (zip Examples.v3_matches_listed perm)).
Proof.
  apply (v3_search_decides (Examples.v3_week "2") Examples.v3_matches_listed
           Examples.two_tables Examples.histories_after_one).
  - discriminate.
  - exact (NoDup_seq 0 2).
  - repeat constructor.
  - repeat constructor; by eexists.
Defined.

End V3Extra.
(** ** The manager of v1: what its constructor can raise and what it builds *)

Section ManagerExtra.
Import V1.

Context (py_int : string → option Z).

Implicit Types (fs : files) (mgr : TableAssignmentManager).

Lemma get_table_config_raises fs mgr e :
  get_table_config fs mgr = Raise e →
  e = FileNotFoundError ∨ e = ValueError NoConfiguration.
Proof.
  unfold get_table_config.
  destruct (config_file fs) as [configs|]; [|intros [= <-]; by left].
  destruct (configs !! _) as [lc|]; [|intros [= <-]; by right].
  destruct (bool_decide _); [intros [= <-]; by right|].
  destruct (lc !! _) as [dc|]; [|intros [= <-]; by right].
  destruct (cfg_empty dc); [intros [= <-]; by right | done].
Qed.

Lemma initialize_team_names_raises fs mgr e :
  initialize_team_names fs mgr = Raise e →
  e ≠ ValueError NotEnoughTables.
Proof.
  unfold initialize_team_names.
  destruct (get_table_config fs mgr) as [c|e'] eqn:Hc; cbn.
  - destruct (cfg_bye_team_id c); [done|].
    destruct (cfg_team_keys c); [done|]. by intros [= <-].
  - intros [= <-]. by apply get_table_config_raises in Hc as [->| ->].
Qed.

(** The pool-size test reads [num_teams]: with fewer than two teams
    recorded it cannot fire. *)
Lemma initialize_tables_raises fs mgr e :
  m_num_teams mgr < 2 →
  initialize_tables fs mgr = Raise e →
  e ≠ ValueError NotEnoughTables.
Proof.
  intros Hn. unfold initialize_tables.
  destruct (get_table_config fs mgr) as [c|e'] eqn:Hc; cbn.
  - destruct (cfg_table_ids c) as [ids|]; [|by intros [= <-]].
    destruct (_ <? _) eqn:Hlt.
    + apply Z.ltb_lt in Hlt.
      assert (m_num_teams mgr `div` 2 ≤ 0).
      { apply Z.lt_succ_r, Z.div_lt_upper_bound; lia. }
      destruct (truthy _); lia.
    + destruct (cfg_table_keys c); [done|]. by intros [= <-].
  - intros [= <-]. by apply get_table_config_raises in Hc as [->| ->].
Qed.

Lemma int_of_raises s e : int_of py_int s = Raise e → e = ValueError BadInt.
Proof. unfold int_of. destruct (py_int s); [done|]. by intros [= <-]. Qed.

Lemma teams_of_string_raises s e :
  teams_of_string py_int s = Raise e →
  e = ValueError BadInt ∨ e = ValueError BadUnpack.
Proof.
  unfold teams_of_string.
  destruct (split_dash s) as [|a [|b [|c l]]]; cbn.
  - intros [= <-]. by right.
  - destruct (int_of py_int a) eqn:Ha; cbn; intros [= <-];
      [by right | left; by eapply int_of_raises].
  - destruct (int_of py_int a) eqn:Ha; cbn;
      [|intros [= <-]; left; by eapply int_of_raises].
    destruct (int_of py_int b) eqn:Hb; cbn; [done|].
    intros [= <-]; left; by eapply int_of_raises.
  - destruct (int_of py_int a) eqn:Ha; cbn;
      [|intros [= <-]; left; by eapply int_of_raises].
    destruct (int_of py_int b) eqn:Hb; cbn;
      [|intros [= <-]; left; by eapply int_of_raises].
    destruct (int_of py_int c) eqn:Hc; cbn; intros [= <-];
      [by right | left; by eapply int_of_raises].
Qed.

Lemma Match_of_string_raises s e :
  Match_of_string py_int s = Raise e →
  e = ValueError BadInt ∨ e = ValueError BadUnpack.
Proof.
  unfold Match_of_string.
  destruct (split_dash s) as [|a [|b [|c l]]]; cbn;
    try (intros [= <-]; by right).
  destruct (int_of py_int a) eqn:Ha; cbn;
    [|intros [= <-]; left; by eapply int_of_raises].
  destruct (int_of py_int b) eqn:Hb; cbn; [done|].
  intros [= <-]; left; by eapply int_of_raises.
Qed.

Lemma week_of_row_raises bye n total row e :
  week_of_row py_int bye n total row = Raise e →
  e = ValueError BadInt ∨ e = ValueError BadUnpack.
Proof.
  unfold week_of_row.
  destruct row as [|week_id [|date ms]]; try (intros [= <-]; by right).
  destruct (int_of py_int week_id) eqn:Hid; cbn;
    [|intros [= <-]; left; by eapply int_of_raises].
  destruct (mapM (Match_of_string py_int) ms) as [k|e'] eqn:Hms; cbn.
  { intros [=]. }
  intros [= <-].
  apply mapM_Raise in Hms as (s & _ & Hs). exact (Match_of_string_raises _ _ Hs).
Qed.

Lemma read_schedule_raises fs mgr e :
  read_schedule py_int fs mgr = Raise e →
  e ≠ ValueError NotEnoughTables.
Proof.
  unfold read_schedule.
  destruct (schedule_file fs) as [lines|]; [|by intros [= <-]].
  unfold teams_of_rows.
  destruct (mapM _ (concat _)) as [pairs|e'] eqn:Hp; cbn.
  - destruct (negb _); [by intros [= <-]|].
    destruct (mapM (week_of_row _ _ _ _) _) as [weeks|e'] eqn:Hw; cbn; [done|].
    intros [= <-]. apply mapM_Raise in Hw as (row & _ & Hrow).
    by apply week_of_row_raises in Hrow as [->| ->].
  - intros [= <-]. apply mapM_Raise in Hp as (s & _ & Hs).
    by apply teams_of_string_raises in Hs as [->| ->].
Qed.

(** X12. The constructor of the manager of v1 never raises the
    [ValueError] of the pool-size test ("Not enough tables"):
    [initialize_tables] compares the number of tables with
    [num_teams // 2] while [num_teams] still has the 0 it is initialised
    with, [read_schedule] setting it afterwards. *)
Theorem pool_size_test_never_fires fs filename :
  Manager_init py_int fs filename ≠ Raise (ValueError NotEnoughTables).
Proof.
  unfold Manager_init. intros Hr.
  destruct (Filename.validate_filename filename) as [groups|e] eqn:Hv; cbn in Hr.
  2:{ injection Hr as ->. revert Hv. unfold Filename.validate_filename.
      by destruct (Filename.re_match filename). }
  destruct groups as [|g1 [|g2 [|g3 [|g4 [|g5 [|]]]]]]; try done.
  destruct (initialize_team_names _ _) as [s1|e] eqn:H1; cbn in Hr.
  2:{ injection Hr as ->. by eapply initialize_team_names_raises. }
  destruct (initialize_tables _ _) as [s2|e] eqn:H2; cbn in Hr.
  2:{ injection Hr as ->. eapply initialize_tables_raises; [|done|done].
      apply initialize_team_names_schedule in H1 as [_ ->]. cbn. lia. }
  by eapply read_schedule_raises.
Qed.

(** *** The two passes of [read_schedule] *)

Lemma Forall2_concat_concat {A B} (P : A → B → Prop) ls ks :
  Forall2 (Forall2 P) ls ks → Forall2 P (concat ls) (concat ks).
Proof.
  induction 1 as [|l k ls ks Hlk _ IH]; cbn; [constructor|].
  by apply Forall2_app.
Qed.

Lemma Forall2_functional {A B C} (f : A → result B) (g : C → B) l : ∀ k k',
  Forall2 (λ a b, f a = Ok b) l k →
  Forall2 (λ a c, f a = Ok (g c)) l k' →
  k = g <$> k'.
Proof.
  induction l as [|a l IH]; intros k k' H1 H2;
    inversion H1 as [|? b ? k1 Hb H1']; inversion H2 as [|? c ? k2 Hc H2'];
    subst; cbn; [done|].
  rewrite Hb in Hc. injection Hc as ->. f_equal. by apply IH.
Qed.

(** What the first pass reads from a match is what [Match.__init__] reads
    from it in the second. *)
Lemma Match_of_string_teams s m :
  Match_of_string py_int s = Ok m →
  teams_of_string py_int s = Ok (home_team m, away_team m)
  ∧ assigned_table m = None.
Proof.
  unfold Match_of_string, teams_of_string.
  destruct (split_dash s) as [|a [|b [|c l]]]; try done.
  destruct (int_of py_int a) as [x|]; cbn; [|done].
  destruct (int_of py_int b) as [y|]; cbn; [|done].
  by intros [= <-].
Qed.

Lemma week_of_row_matches bye n total row w :
  week_of_row py_int bye n total row = Ok w →
  Forall2 (λ s m, teams_of_string py_int s
                  = Ok ((λ m, (home_team m, away_team m)) m))
          (drop 2 row) (matches w)
  ∧ unassigned (matches w) ∧ num_teams w = n ∧ available_tables w = [].
Proof.
  unfold week_of_row. destruct row as [|week_id [|date ms]]; [done|done|].
  destruct (int_of py_int week_id); cbn; [|done].
  destruct (mapM (Match_of_string py_int) ms) as [k|] eqn:Hms; cbn; [|done].
  intros [= <-]. cbn. apply mapM_Ok_Forall2 in Hms.
  split; [|split; [|done]].
  - eapply Forall2_impl; [done|]. intros s m Hm.
    by apply Match_of_string_teams in Hm as [? _].
  - eapply Forall2_Forall_r; [done|].
    apply Forall_forall. intros s _ m Hm.
    by apply Match_of_string_teams in Hm as [_ ?].
Qed.

Lemma read_schedule_teams fs mgr mgr' :
  read_schedule py_int fs mgr = Ok mgr' →
  ∃ weeks,
    schedule mgr' = schedule mgr ++ weeks ∧
    m_total_weeks mgr' = Some (Z.of_nat (length weeks) + 1) ∧
    m_num_teams mgr' `mod` 2 = 0 ∧
    m_num_teams mgr'
    = Z.of_nat (length (remove_dups
        (concat ((λ m, [home_team m; away_team m])
                   <$> concat (matches <$> weeks))))) ∧
    Forall (λ w, unassigned (matches w) ∧ num_teams w = m_num_teams mgr'
                 ∧ available_tables w = []) weeks.
Proof.
  unfold read_schedule.
  destruct (schedule_file fs) as [lines|]; [|done].
  unfold teams_of_rows.
  destruct (mapM _ (concat _)) as [pairs|] eqn:Hp; cbn; [|done].
  destruct (negb _) eqn:Heven; [done|].
  destruct (mapM (week_of_row _ _ _ _) _) as [weeks|] eqn:Hw; cbn; [|done].
  intros [= <-]. exists weeks. cbn.
  apply mapM_Ok_Forall2 in Hw, Hp.
  assert (Hpairs : pairs = (λ m, (home_team m, away_team m))
                             <$> concat (matches <$> weeks)).
  { eapply Forall2_functional; [exact Hp|].
    apply Forall2_concat_concat, Forall2_fmap.
    eapply Forall2_impl; [exact Hw|]. intros row w Hrow. cbn.
    by apply week_of_row_matches in Hrow as [? _]. }
  split; [done|]. split.
  { by rewrite <- (Forall2_length _ _ _ Hw). }
  split.
  { apply negb_false_iff, Z.eqb_eq in Heven. done. }
  split.
  { rewrite Hpairs, <- list_fmap_compose. done. }
  eapply Forall2_Forall_r; [exact Hw|].
  apply Forall_forall. intros row _ w Hrow.
  by apply week_of_row_matches in Hrow as (_ & ? & ? & ?).
Qed.

Lemma Manager_init_schedule fs filename mgr :
  Manager_init py_int fs filename = Ok mgr →
  m_num_teams mgr
  = Z.of_nat (length (remove_dups
      (concat ((λ m, [home_team m; away_team m])
                 <$> concat (matches <$> schedule mgr))))) ∧
  m_num_teams mgr `mod` 2 = 0 ∧
  m_total_weeks mgr = Some (Z.of_nat (length (schedule mgr)) + 1) ∧
  Forall (λ w, unassigned (matches w) ∧ num_teams w = m_num_teams mgr
               ∧ available_tables w = []) (schedule mgr).
Proof.
  unfold Manager_init.
  destruct (Filename.validate_filename filename) as [groups|]; cbn; [|done].
  destruct groups as [|g1 [|g2 [|g3 [|g4 [|g5 [|]]]]]]; try done.
  destruct (initialize_team_names _ _) as [s1|] eqn:H1; cbn; [|done].
  destruct (initialize_tables _ _) as [s2|] eqn:H2; cbn; [|done].
  apply initialize_team_names_schedule in H1 as [H1 _].
  apply initialize_tables_schedule in H2 as (H2 & _ & _).
  intros (weeks & Hs & Htot & Heven & Hn & Hw)%read_schedule_teams.
  rewrite H2, H1 in Hs. cbn in Hs. rewrite Hs. done.
Qed.

(** X13. A manager of v1 that has been built: the two passes of
    [read_schedule] read the same teams, so [num_teams] is the number of
    distinct teams of the matches of its weeks, the bye team among them,
    and it is even; [total_weeks] is the number of weeks plus one; every
    week carries that [num_teams], no match holds a table and no week has
    available tables yet. *)
Theorem manager_counts_the_teams_of_its_matches fs filename mgr :
  Manager_init py_int fs filename = Ok mgr →
  let ms := concat (matches <$> schedule mgr) in
  m_num_teams mgr
  = Z.of_nat (length (remove_dups
      (concat ((λ m, [home_team m; away_team m]) <$> ms)))) ∧
  m_num_teams mgr `mod` 2 = 0 ∧
  m_total_weeks mgr = Some (Z.of_nat (length (schedule mgr)) + 1) ∧
  Forall (λ w, unassigned (matches w) ∧ num_teams w = m_num_teams mgr
               ∧ available_tables w = []) (schedule mgr).
Proof. apply Manager_init_schedule. Qed.

End ManagerExtra.

Lemma pool_size_test_never_fires_witness :
  V1.Manager_init V1.decimal Examples.files_small_pool Examples.the_filename
  ≠ Raise (ValueError NotEnoughTables).
Proof.
  apply (pool_size_test_never_fires V1.decimal Examples.files_small_pool
           Examples.the_filename).
Defined.

Lemma manager_counts_the_teams_of_its_matches_witness :
  ∃ mgr,
    V1.Manager_init V1.decimal Examples.files_with_bye Examples.the_filename
      = Ok mgr ∧
    V1.m_num_teams mgr
    = Z.of_nat (length (remove_dups
        (concat ((λ m, [V1.home_team m; V1.away_team m])
                   <$> concat (V1.matches <$> V1.schedule mgr))))) ∧
    V1.m_num_teams mgr `mod` 2 = 0 ∧
    V1.m_total_weeks mgr = Some (Z.of_nat (length (V1.schedule mgr)) + 1) ∧
    Forall (λ w, V1.unassigned (V1.matches w)
                 ∧ V1.num_teams w = V1.m_num_teams mgr
                 ∧ V1.available_tables w = []) (V1.schedule mgr).
Proof.
  eexists. split; [vm_compute; reflexivity|].
  apply (manager_counts_the_teams_of_its_matches V1.decimal
           Examples.files_with_bye Examples.the_filename).
  vm_compute. reflexivity.
Defined.
(** ** Writing the assignments *)

Section WriteAssignments.

Implicit Types (m : V1.Match) (ms : list V1.Match)
  (names : list (Z * string)) (tables : list V1.Table).

Lemma assignment_text_Ok names tables m :
  is_Some (V1.assigned_table m) →
  ∃ s, V1.assignment_text names tables m = Ok s.
Proof. intros [t Ht]. unfold V1.assignment_text. rewrite Ht. by eexists. Qed.

Lemma assignment_texts_dec names tables ms :
  (V1.all_assigned ms ∧
   ∃ texts, mapM (V1.assignment_text names tables) ms = Ok texts) ∨
  (¬ V1.all_assigned ms ∧
   mapM (V1.assignment_text names tables) ms = Raise AttributeError).
Proof.
  induction ms as [|m ms IH]; cbn.
  { left. split; [constructor | by eexists]. }
  assert (Hm : (is_Some (V1.assigned_table m) ∧
                ∃ s, V1.assignment_text names tables m = Ok s) ∨
               (V1.assigned_table m = None ∧
                V1.assignment_text names tables m = Raise AttributeError)).
  { unfold V1.assignment_text.
    destruct (V1.assigned_table m); [left | right]; split; eauto. }
  destruct Hm as [[Ht [s ->]]|[Ht ->]]; cbn.
  - destruct IH as [[Hall [texts ->]]|[Hnot ->]]; cbn.
    + left. split; [|by eexists]. by constructor.
    + right. split; [|done]. by intros [_ ?]%Forall_cons.
  - right. split; [|done]. intros [[t Hm] _]%Forall_cons. congruence.
Qed.

Lemma write_weeks_spec names tables weeks :
  let out := V1.write_weeks names tables weeks in
  (Forall (λ w, V1.all_assigned w.2) weeks ∧ out.1 = Ok ()
   ∧ length out.2 = length weeks) ∨
  (Exists (λ w, ¬ V1.all_assigned w.2) weeks ∧ out.1 = Raise AttributeError
   ∧ (length out.2 < length weeks)%nat).
Proof.
  induction weeks as [|[[week_id date] ms] weeks IH]; cbn.
  { left. by split; [constructor|]. }
  destruct (assignment_texts_dec names tables ms) as [[Hall [texts ->]]|[Hnot ->]].
  - destruct (V1.write_weeks names tables weeks) as [r rows]. cbn in *.
    destruct IH as [(Hws & -> & Hlen)|(Hws & -> & Hlen)].
    + left. split; [by constructor|]. split; [done | by rewrite Hlen].
    + right. split; [by apply Exists_cons_tl|]. split; [done | lia].
  - right. cbn. split; [by apply Exists_cons_hd|]. split; [done | lia].
Qed.

(** *** v2: a schedule with a bye team *)

Lemma v2_assign_matches_outcome ms : ∀ (self : V2.Week) tables self' ms' tables',
  V2.assign_matches self ms tables = (Ok (), self', ms', tables') →
  Forall2 (λ m m', if V1.bye_match (V2.bye_team_id self) m then m' = m
                   else is_Some (V1.assigned_table m')) ms ms'.
Proof.
  induction ms as [|m ms IH]; intros self tables self' ms' tables'; cbn.
  { intros [= <- <- <-]. constructor. }
  destruct (V1.bye_match (V2.bye_team_id self) m) eqn:Hbye.
  - destruct (V2.assign_matches self ms tables) as [[[r1 s1] ms1] t1] eqn:Hrec.
    intros [= -> <- <- <-]. constructor; [by rewrite Hbye | by eapply IH].
  - destruct (V2.find_best_table self m tables) as [[best|]|e]; [|done|done].
    destruct (V2.assign_matches _ ms _) as [[[r1 s1] ms1] t1] eqn:Hrec.
    intros [= -> <- <- <-]. constructor.
    + rewrite Hbye. by eexists.
    + by apply IH in Hrec.
Qed.

Lemma outcome_all_assigned bye ms ms' :
  V1.unassigned ms →
  Forall2 (λ m m', if V1.bye_match bye m then m' = m
                   else is_Some (V1.assigned_table m')) ms ms' →
  (Exists (λ m, V1.bye_match bye m = true) ms → ¬ V1.all_assigned ms') ∧
  (¬ Exists (λ m, V1.bye_match bye m = true) ms → V1.all_assigned ms').
Proof.
  intros Hfresh Hout. induction Hout as [|m m' ms ms' Hm _ IH].
  { split; [by intros ?%Exists_nil | constructor]. }
  apply Forall_cons in Hfresh as [Hnone Hfresh].
  destruct (IH Hfresh) as [IH1 IH2]. split.
  - intros [Hbye|Hex]%Exists_cons [Hm' Hall]%Forall_cons.
    + rewrite Hbye in Hm. subst m'. rewrite Hnone in Hm'. by destruct Hm'.
    + by apply IH1.
  - intros Hno. destruct (V1.bye_match bye m) eqn:Hbye.
    + destruct Hno. by apply Exists_cons_hd.
    + constructor; [done|]. apply IH2. intros Hex. apply Hno.
      by apply Exists_cons_tl.
Qed.

Lemma v2_assign_tables_outcome set_order (w : V2.Week) tables w' tables' :
  V1.unassigned (V2.matches w) →
  V2.assign_tables set_order w tables = (Ok (), w', tables') →
  (V2.has_bye w → ¬ V1.all_assigned (V2.matches w')) ∧
  (¬ V2.has_bye w → V1.all_assigned (V2.matches w')).
Proof.
  intros Hfresh. unfold V2.assign_tables.
  destruct (V2.assign_matches _ _ tables) as [[[r1 s1] ms1] t1] eqn:Hrun.
  intros [= -> <- <-]. cbn.
  apply v2_assign_matches_outcome in Hrun. cbn in Hrun.
  by apply outcome_all_assigned.
Qed.

Lemma v2_assign_weeks_outcome set_order weeks : ∀ i tables weeks' tables',
  Forall (λ w, V1.unassigned (V2.matches w)) weeks →
  V2.assign_weeks set_order i weeks tables = (Ok (), weeks', tables') →
  length weeks' = length weeks ∧
  (Exists V2.has_bye weeks →
   Exists (λ w, ¬ V1.all_assigned (V2.matches w)) weeks') ∧
  (¬ Exists V2.has_bye weeks →
   Forall (λ w, V1.all_assigned (V2.matches w)) weeks').
Proof.
  induction weeks as [|w weeks IH]; intros i tables weeks' tables' Hfresh; cbn.
  { intros [= <- <-]. split; [done|].
    split; [by intros ?%Exists_nil | constructor]. }
  apply Forall_cons in Hfresh as [Hw Hfresh].
  destruct (V2.assign_tables (set_order i) w tables) as [[[[]|e] w1] t1] eqn:Hat;
    [|done].
  destruct (V2.assign_weeks set_order (S i) weeks t1) as [[r2 ws2] t2] eqn:Hrec.
  intros [= -> <- <-].
  destruct (v2_assign_tables_outcome _ _ _ _ _ Hw Hat) as [Hb Hnb].
  destruct (IH _ _ _ _ Hfresh Hrec) as (Hlen & IH1 & IH2).
  split; [cbn; by rewrite Hlen|]. split.
  - intros [?|?]%Exists_cons;
      [apply Exists_cons_hd | apply Exists_cons_tl]; auto.
  - intros Hno. constructor.
    + apply Hnb. intros ?. apply Hno. by apply Exists_cons_hd.
    + apply IH2. intros ?. apply Hno. by apply Exists_cons_tl.
Qed.



(** X15. After a run of v2 that returns, over weeks whose matches held no
    table: the matches with the bye team were skipped and hold no table, so
    [write_assignments] raises [AttributeError] when some week has a match
    with the bye team, and writes the header and a row for every week when
    none has. *)
Theorem v2_bye_week_cannot_be_written set_order names weeks tables weeks' tables' :
  Forall (λ w, V1.unassigned (V2.matches w)) weeks →
  V2.assign_all_tables set_order weeks tables = (Ok (), weeks', tables') →
  let out := V2.write_assignments names weeks' tables' in
  (Exists V2.has_bye weeks →
   out.1 = Raise AttributeError ∧ (length out.2 ≤ length weeks)%nat) ∧
  (¬ Exists V2.has_bye weeks →
   out.1 = Ok () ∧ length out.2 = S (length weeks)).
Proof.
  intros Hfresh Hrun. unfold V2.assign_all_tables in Hrun.
  destruct (v2_assign_weeks_outcome _ _ _ _ _ _ Hfresh Hrun)
    as (Hlen & Hbye & Hnobye).
  unfold V2.write_assignments.
  pose proof (write_weeks_spec names tables'
                ((λ w, (V2.week_id w, V2.date w, V2.matches w)) <$> weeks'))
    as Hspec.
  destruct (V1.write_weeks names tables' _) as [r rows]. cbn in *.
  rewrite length_fmap, Hlen in Hspec.
  rewrite Forall_fmap, Exists_fmap in Hspec. split.
  - intros Hex. apply Hbye in Hex.
    destruct Hspec as [(Hall & _)|(_ & -> & ?)]; [|split; [done | lia]].
    apply Exists_exists in Hex as (w & Hin & Hw).
    rewrite Forall_forall in Hall. by destruct Hw; apply (Hall w Hin).
  - intros Hno. apply Hnobye in Hno.
    destruct Hspec as [(_ & -> & ->)|(Hex & _)]; [done|].
    apply Exists_exists in Hex as (w & Hin & Hw).
    rewrite Forall_forall in Hno. by destruct Hw; apply (Hno w Hin).
Qed.

Lemma v2_bye_week_cannot_be_written_witness :
  let run := V2.assign_all_tables (λ _, id) [Examples.v2_week_with_bye 1]
               Examples.tables_AB in
  (V2.write_assignments [] run.1.2 run.2).1 = Raise AttributeError ∧
  (length (V2.write_assignments [] run.1.2 run.2).2 ≤ 1)%nat.
Proof.
  intros run.
  apply (v2_bye_week_cannot_be_written (λ _, id) []
           [Examples.v2_week_with_bye 1] Examples.tables_AB run.1.2 run.2).
  - repeat constructor.
  - vm_compute. reflexivity.
  - apply Exists_cons_hd, Exists_cons_tl, Exists_cons_hd. reflexivity.
Defined.

End WriteAssignments.
(** ** v1: a run that returns leaves nothing to write *)

Section V1Write.
Import V1.

Context (py_int : string → option Z).

Implicit Types (m : Match) (ms : list Match) (w self : Week)
  (tables : list Table).

Lemma v1_assign_matches_skips ms : ∀ self tables,
  ¬ plays (bye_team_id self) ms →
  assign_matches self ms tables = (Ok (), self, ms, tables).
Proof.
  induction ms as [|m ms IH]; intros self tables Hno; cbn; [done|].
  destruct (bye_match (bye_team_id self) m) eqn:Hbye.
  - rewrite IH; [done|]. intros ?. apply Hno. by apply Exists_cons_tl.
  - destruct Hno. by apply Exists_cons_hd.
Qed.

Lemma v1_assign_week_skips set_order bye w tables :
  ¬ plays (bye_team_id w) (matches w) →
  matches (assign_week set_order bye w tables).1.2 = matches w.
Proof.
  intros Hno. unfold assign_week.
  destruct (calculate_usage_stats w tables bye) as [[[]|e] w1] eqn:Hc;
    apply calculate_usage_stats_keeps in Hc as (_ & Hm & Hb); [|done].
  unfold assign_tables.
  rewrite v1_assign_matches_skips by (cbn; by rewrite Hb, Hm). done.
Qed.

Lemma v1_assign_weeks_skips set_order bye weeks : ∀ i tables,
  Forall (λ w, ¬ plays (bye_team_id w) (matches w)) weeks →
  matches <$> (assign_weeks set_order i bye weeks tables).1.2
  = matches <$> weeks.
Proof.
  induction weeks as [|w weeks IH]; intros i tables Hno; cbn; [done|].
  apply Forall_cons in Hno as [Hw Hno].
  pose proof (v1_assign_week_skips (set_order i) bye w tables Hw) as Hm.
  destruct (assign_week (set_order i) bye w tables) as [[[[]|e] w1] t1];
    cbn in Hm.
  - specialize (IH (S i) t1 Hno).
    destruct (assign_weeks set_order (S i) bye weeks t1) as [[r2 ws2] t2].
    cbn in *. by rewrite Hm, IH.
  - cbn. by rewrite Hm.
Qed.

Lemma not_Exists_Forall_not {A} (P : A → Prop) (l : list A) :
  ¬ Exists P l → Forall (λ x, ¬ P x) l.
Proof.
  induction l as [|x l IH]; intros Hno; constructor.
  - intros ?. apply Hno. by apply Exists_cons_hd.
  - apply IH. intros ?. apply Hno. by apply Exists_cons_tl.
Qed.

(** X16. A manager of v1 as its constructor builds it, after a call of
    [assign_all_tables] that returned: no match of the schedule holds a
    table (a played match would have raised, a match with the bye team is
    skipped), so [write_assignments] raises [AttributeError] as soon as
    some week has a match; it writes its rows only for a schedule whose
    weeks have no matches. *)
Theorem v1_run_leaves_nothing_to_write fs filename mgr set_order mgr' :
  Manager_init py_int fs filename = Ok mgr →
  assign_all_tables set_order mgr = (Ok (), mgr') →
  let out := write_assignments mgr' in
  (Exists (λ w, matches w ≠ []) (schedule mgr) →
   out.1 = Raise AttributeError) ∧
  (Forall (λ w, matches w = []) (schedule mgr) →
   out.1 = Ok () ∧ length out.2 = S (length (schedule mgr))).
Proof.
  intros Hinit Hrun.
  pose proof (Manager_init_weeks py_int _ _ _ Hinit) as Hattr.
  pose proof (Manager_init_schedule py_int _ _ _ Hinit) as (_ & _ & _ & Hfresh).
  unfold assign_all_tables in Hrun.
  destruct (assign_weeks set_order 0 (m_bye_team_id mgr) (schedule mgr)
              (tables mgr).*2) as [[r weeks'] values] eqn:Hweeks.
  injection Hrun as -> <-.
  assert (Hno : Forall (λ w, ¬ plays (bye_team_id w) (matches w))
                       (schedule mgr)).
  { apply not_Exists_Forall_not. intros Hex.
    destruct (v1_assign_weeks_fails set_order (m_bye_team_id mgr)
                (schedule mgr) O (tables mgr).*2) as [e He]; [|done|].
    - eapply Forall_impl; [exact Hattr|]. by intros w (? & _).
    - by rewrite Hweeks in He. }
  pose proof (v1_assign_weeks_skips set_order (m_bye_team_id mgr)
                (schedule mgr) O (tables mgr).*2 Hno) as Hsame.
  rewrite Hweeks in Hsame. cbn in Hsame.
  unfold write_assignments. cbn [schedule team_names tables].
  match goal with |- context [write_weeks ?n ?t ?ws] =>
    pose proof (write_weeks_spec n t ws) as Hspec;
    destruct (write_weeks n t ws) as [r rows] end.
  cbn in *.
  rewrite Forall_fmap, Exists_fmap, length_fmap in Hspec.
  assert (Hlen : length weeks' = length (schedule mgr)).
  { by rewrite <- (length_fmap matches weeks'), Hsame, length_fmap. }
  split.
  - intros Hex.
    destruct Hspec as [(Hall & _)|(_ & -> & _)]; [|done].
    exfalso.
    assert (Hall' : Forall all_assigned (matches <$> weeks')).
    { by apply Forall_fmap. }
    rewrite Hsame in Hall'. rewrite Forall_fmap in Hall'.
    apply Exists_exists in Hex as (w & Hin & Hw).
    rewrite Forall_forall in Hall'. rewrite Forall_forall in Hfresh.
    specialize (Hall' w Hin). destruct (Hfresh w Hin) as (Hu & _).
    cbn in Hall'. destruct (matches w) as [|m ms]; [done|].
    apply Forall_cons in Hall' as [[t Ht] _].
    apply Forall_cons in Hu as [Hu _]. congruence.
  - intros Hempty.
    destruct Hspec as [(_ & -> & ->)|(Hex & _)]; [by rewrite Hlen|].
    exfalso.
    assert (Hex' : Exists (λ ms, ¬ all_assigned ms) (matches <$> weeks')).
    { by apply Exists_fmap. }
    rewrite Hsame in Hex'. rewrite Exists_fmap in Hex'.
    apply Exists_exists in Hex' as (w & Hin & Hw).
    rewrite Forall_forall in Hempty. cbn in Hw.
    rewrite (Hempty w Hin) in Hw. apply Hw. constructor.
Qed.

End V1Write.

Lemma v1_run_leaves_nothing_to_write_witness :
  ∃ mgr mgr',
    V1.Manager_init V1.decimal Examples.files_only_bye Examples.the_filename
      = Ok mgr ∧
    V1.assign_all_tables (λ _, id) mgr = (Ok (), mgr') ∧
    (V1.write_assignments mgr').1 = Raise AttributeError.
Proof.
  eexists _, _. split; [vm_compute; reflexivity|].
  split; [vm_compute; reflexivity|].
  eapply (v1_run_leaves_nothing_to_write V1.decimal Examples.files_only_bye
            Examples.the_filename _ (λ _, id)).
  - vm_compute. reflexivity.
  - vm_compute. reflexivity.
  - apply Exists_cons_hd. discriminate.
Defined.
(** ** v2: the table that is chosen *)

Section V2Choice.
Import V2.

Implicit Types (m : Match) (t best : TableRef) (tables : list Table)
  (u v : V1.score).

Ltac score_order :=
  repeat match goal with x : V1.score |- _ => destruct x as [[? ?] ?] end;
  unfold V1.score_lt in *;
  repeat match goal with
  | H : _ = true |- _ =>
      rewrite ?orb_true_iff, ?andb_true_iff, ?Z.ltb_lt, ?Z.eqb_eq in H
  | H : _ = false |- _ =>
      rewrite ?orb_false_iff, ?andb_false_iff, ?Z.ltb_ge, ?Z.eqb_neq in H
  end;
  rewrite ?orb_true_iff, ?andb_true_iff, ?Z.ltb_lt, ?Z.eqb_eq,
          ?orb_false_iff, ?andb_false_iff, ?Z.ltb_ge, ?Z.eqb_neq;
  lia.

(** Python's order on the key tuples is a strict total order. *)
Lemma score_lt_irrefl u : V1.score_lt u u = false.
Proof. score_order. Qed.

Lemma score_lt_trans u v w :
  V1.score_lt u v = true → V1.score_lt v w = true → V1.score_lt u w = true.
Proof. intros. score_order. Qed.

Lemma score_lt_asym u v : V1.score_lt u v = true → V1.score_lt v u = false.
Proof. intros. score_order. Qed.

Lemma score_lt_below u v w :
  V1.score_lt u v = false → V1.score_lt w v = true → V1.score_lt w u = true.
Proof. intros. score_order. Qed.

Lemma best_of_spec tables m valid : ∀ b vb best,
  best_of tables m (Some (b, vb)) valid = Ok (Some best) →
  (best = b ∧
   Forall (λ t, ∃ u, table_value (tables !!! t) m = Ok u
                     ∧ V1.score_lt u vb = false) valid) ∨
  (∃ (i : nat) v,
     valid !! i = Some best ∧ table_value (tables !!! best) m = Ok v ∧
     V1.score_lt v vb = true ∧
     ∀ (j : nat) t, valid !! j = Some t →
       ∃ u, table_value (tables !!! t) m = Ok u ∧ V1.score_lt u v = false
            ∧ ((j < i)%nat → V1.score_lt v u = true)).
Proof.
  induction valid as [|a valid IH]; intros b vb best; cbn.
  { intros [= <-]. left. by split; [|constructor]. }
  destruct (table_value (tables !!! a) m) as [cv|e] eqn:Ha; cbn; [|done].
  destruct (V1.score_lt cv vb) eqn:Hlt; intros Hrec; apply IH in Hrec.
  - right. destruct Hrec as [[-> Hall]|(i & v & Hi & Hv & Hlt' & Hall)].
    + exists O, cv. split; [done|]. split; [done|]. split; [done|].
      intros [|j] t Ht; cbn in Ht.
      * injection Ht as <-. exists cv.
        split; [done|]. split; [apply score_lt_irrefl | lia].
      * rewrite Forall_forall in Hall.
        destruct (Hall t) as (u & Hu & Hge); [by eapply list_elem_of_lookup_2|].
        exists u. split; [done|]. split; [done | lia].
    + exists (S i), v. split; [done|]. split; [done|].
      split; [by eapply score_lt_trans|].
      intros [|j] t Ht; cbn in Ht.
      * injection Ht as <-. exists cv. split; [done|].
        split; [by apply score_lt_asym | done].
      * destruct (Hall j t Ht) as (u & Hu & Hge & Hbefore).
        exists u. split; [done|]. split; [done|]. intros ?. apply Hbefore. lia.
  - destruct Hrec as [[-> Hall]|(i & v & Hi & Hv & Hlt' & Hall)].
    + left. split; [done|]. constructor; [by exists cv | done].
    + right. exists (S i), v. split; [done|]. split; [done|]. split; [done|].
      intros [|j] t Ht; cbn in Ht.
      * injection Ht as <-. exists cv. split; [done|].
        assert (V1.score_lt v cv = true) by by eapply score_lt_below.
        split; [by apply score_lt_asym | done].
      * destruct (Hall j t Ht) as (u & Hu & Hge & Hbefore).
        exists u. split; [done|]. split; [done|]. intros ?. apply Hbefore. lia.
Qed.

(** X17. The table [find_best_table] of v2 returns is an available table
    whose key [(recently_used, match_usage, total_usage)] no available
    table undercuts, and the first such table in the iteration order of the
    set: every table iterated before it has a strictly larger key. *)
Theorem v2_find_best_table_minimal (self : Week) m tables best :
  find_best_table self m tables = Ok (Some best) →
  ∃ (i : nat) v,
    available_tables self !! i = Some best ∧
    table_value (tables !!! best) m = Ok v ∧
    ∀ (j : nat) t, available_tables self !! j = Some t →
      ∃ u, table_value (tables !!! t) m = Ok u ∧ V1.score_lt u v = false
           ∧ ((j < i)%nat → V1.score_lt v u = true).
Proof.
  unfold find_best_table.
  destruct (available_tables self) as [|a valid]; [done|]. cbn.
  destruct (table_value (tables !!! a) m) as [cv|e] eqn:Ha; cbn; [|done].
  intros [[-> Hall]|(i & v & Hi & Hv & Hlt' & Hall)]%best_of_spec.
  - exists O, cv. split; [done|]. split; [done|].
    intros [|j] t Ht; cbn in Ht.
    + injection Ht as <-. exists cv.
      split; [done|]. split; [apply score_lt_irrefl | lia].
    + rewrite Forall_forall in Hall.
      destruct (Hall t) as (u & Hu & Hge); [by eapply list_elem_of_lookup_2|].
      exists u. split; [done|]. split; [done | lia].
  - exists (S i), v. split; [done|]. split; [done|].
    intros [|j] t Ht; cbn in Ht.
    + injection Ht as <-. exists cv. split; [done|].
      split; [by apply score_lt_asym | done].
    + destruct (Hall j t Ht) as (u & Hu & Hge & Hbefore).
      exists u. split; [done|]. split; [done|]. intros ?. apply Hbefore. lia.
Qed.

Lemma v2_find_best_table_minimal_witness :
  ∃ (i : nat) v,
    [1%nat; 0%nat] !! i = Some 1%nat ∧
    table_value ((Examples.table_A_used ++ [V1.Table_init "B"]) !!! 1%nat)
                (V1.Match_init 1 2) = Ok v ∧
    ∀ (j : nat) t, [1%nat; 0%nat] !! j = Some t →
      ∃ u, table_value ((Examples.table_A_used ++ [V1.Table_init "B"]) !!! t)
                       (V1.Match_init 1 2) = Ok u
           ∧ V1.score_lt u v = false
           ∧ ((j < i)%nat → V1.score_lt v u = true).
Proof.
  apply (v2_find_best_table_minimal
           (set_available_tables [1%nat; 0%nat] (Examples.v2_week 2))
           (V1.Match_init 1 2)
           (Examples.table_A_used ++ [V1.Table_init "B"]) 1%nat).
  vm_compute. reflexivity.
Defined.

End V2Choice.
(** ** v1: the usage statistics of a week *)

Section UsageStats.
Import V1.

Implicit Types (t : Table) (tables : list Table) (team : Z) (teams : list Z).

Lemma usage_row_lookup tables team t :
  NoDup (table_id <$> tables) → t ∈ tables →
  usage_row tables team !! table_id t = Some (get_usage t team).
Proof.
  unfold usage_row.
  induction tables as [|x l IH] using rev_ind; intros Hnd Hin.
  { by apply elem_of_nil in Hin. }
  rewrite foldl_snoc. rewrite fmap_app in Hnd.
  apply NoDup_app in Hnd as (Hnd & Hdis & _).
  apply elem_of_app in Hin as [Hin| ->%list_elem_of_singleton].
  - rewrite lookup_insert_ne; [by apply IH|].
    intros Heq. apply (Hdis (table_id t)).
    + by apply list_elem_of_fmap_2.
    + rewrite <- Heq. cbn. apply list_elem_of_here.
  - apply lookup_insert_eq.
Qed.

Lemma usage_stats_lookup tables teams team :
  team ∈ teams →
  usage_stats tables teams !! team = Some (usage_row tables team).
Proof.
  unfold usage_stats.
  induction teams as [|x l IH] using rev_ind; intros Hin.
  { by apply elem_of_nil in Hin. }
  rewrite foldl_snoc. destruct (decide (x = team)) as [->|Hne].
  - apply lookup_insert_eq.
  - rewrite lookup_insert_ne by done. apply IH.
    apply elem_of_app in Hin as [?|?%list_elem_of_singleton]; [done|].
    congruence.
Qed.

(** What the first loop records is read back by the second. *)
Lemma usage_at_recorded tables teams team t :
  NoDup (table_id <$> tables) → team ∈ teams → t ∈ tables →
  usage_at (usage_stats tables teams) team (table_id t)
  = Ok (get_usage t team).
Proof.
  intros Hnd Hteam Ht. unfold usage_at.
  rewrite usage_stats_lookup by done. cbn.
  by rewrite usage_row_lookup.
Qed.

Lemma mapM_Ok_fmap {A B} (f : A → result B) (g : A → B) (l : list A) :
  (∀ x, x ∈ l → f x = Ok (g x)) → mapM f l = Ok (g <$> l).
Proof.
  induction l as [|a l IH]; intros Hf; cbn; [done|].
  rewrite Hf by apply list_elem_of_here. cbn.
  rewrite IH; [done|]. intros x Hx. by apply Hf, list_elem_of_further.
Qed.

Lemma foldl_min_spec (r : list Z) : ∀ x,
  foldl Z.min x r ∈ x :: r ∧ ∀ y, y ∈ x :: r → foldl Z.min x r ≤ y.
Proof.
  induction r as [|z r IH]; intros x; cbn.
  { split; [apply list_elem_of_here|].
    intros y ->%list_elem_of_singleton. lia. }
  destruct (IH (Z.min x z)) as [Hin Hle]. split.
  - apply elem_of_cons in Hin as [Hin|Hin].
    + rewrite Hin. destruct (Z.min_spec x z) as [[_ ->]|[_ ->]].
      * apply list_elem_of_here.
      * apply list_elem_of_further, list_elem_of_here.
    + by do 2 apply list_elem_of_further.
  - intros y [->|[->|Hy]%elem_of_cons]%elem_of_cons.
    + specialize (Hle (Z.min x z) ltac:(apply list_elem_of_here)). lia.
    + specialize (Hle (Z.min x z) ltac:(apply list_elem_of_here)). lia.
    + apply Hle. by apply list_elem_of_further.
Qed.

Lemma least_used_spec tables teams team :
  NoDup (table_id <$> tables) → team ∈ teams → tables ≠ [] →
  ∃ s, least_used (usage_stats tables teams) tables team = Ok s ∧ s ≠ [] ∧
       ∀ ref, ref ∈ s ↔
              ∃ t, tables !! ref = Some t ∧
                   ∀ t', t' ∈ tables → get_usage t team ≤ get_usage t' team.
Proof.
  intros Hnd Hteam Hne. unfold least_used.
  rewrite (mapM_Ok_fmap _ (λ p : nat * Table, (p.1, get_usage p.2 team))).
  2:{ intros p (i & t & -> & Hi)%elem_of_lookup_imap. cbn.
      rewrite (usage_at_recorded tables teams team t); [done..|].
      by eapply list_elem_of_lookup_2. }
  cbn.
  set (usages := (λ p : nat * Table, (p.1, get_usage p.2 team))
                   <$> imap pair tables).
  assert (Hvals : usages.*2 = (λ t, get_usage t team) <$> tables).
  { apply list_eq. intros i. unfold usages.
    rewrite !list_lookup_fmap, list_lookup_imap.
    by destruct (tables !! i). }
  assert (Hin : ∀ ref u, (ref, u) ∈ usages ↔
                  ∃ t, tables !! ref = Some t ∧ u = get_usage t team).
  { intros ref u. unfold usages. rewrite list_elem_of_fmap. split.
    - intros ([i t] & [= -> ->] & (j & t' & [= -> ->] & Hj)%elem_of_lookup_imap).
      by exists t'.
    - intros (t & Ht & ->). exists (ref, t). split; [done|].
      apply elem_of_lookup_imap. by exists ref, t. }
  rewrite Hvals.
  destruct ((λ t, get_usage t team) <$> tables) as [|v0 vs] eqn:Hv.
  { by apply fmap_nil_inv in Hv. }
  cbn.
  set (mn := foldl Z.min v0 vs).
  destruct (foldl_min_spec vs v0) as [Hmn Hle].
  fold mn in Hmn, Hle.
  assert (Hvalues : ∀ u, u ∈ v0 :: vs
                         ↔ ∃ t, t ∈ tables ∧ u = get_usage t team).
  { intros u. rewrite <- Hv, list_elem_of_fmap.
    split; [intros (t & -> & Ht) | intros (t & Ht & ->)]; by exists t. }
  assert (Hmin : ∀ t, t ∈ tables →
            (get_usage t team = mn ↔
             ∀ t', t' ∈ tables → get_usage t team ≤ get_usage t' team)).
  { intros t Ht. split.
    - intros -> t' Ht'. apply Hle, Hvalues. by exists t'.
    - intros Hall. apply Hvalues in Hmn as (tm & Htm & Hmn).
      specialize (Hall tm Htm).
      assert (mn ≤ get_usage t team) by (apply Hle, Hvalues; by exists t).
      lia. }
  assert (Hs : ∀ ref, ref ∈ (filter (λ p : nat * Z, p.2 = mn) usages).*1 ↔
                 ∃ t, tables !! ref = Some t ∧
                      ∀ t', t' ∈ tables → get_usage t team ≤ get_usage t' team).
  { intros ref. rewrite list_elem_of_fmap. split.
    - intros ([i u] & -> & [Hu Hp]%list_elem_of_filter). cbn in *.
      apply Hin in Hp as (t & Ht & ->). exists t. split; [done|].
      apply Hmin; [by eapply list_elem_of_lookup_2 | done].
    - intros (t & Ht & Hall). exists (ref, get_usage t team).
      split; [done|]. apply list_elem_of_filter. split.
      + cbn. apply Hmin; [by eapply list_elem_of_lookup_2 | done].
      + apply Hin. by exists t. }
  eexists. split; [done|]. split; [|exact Hs].
  apply Hvalues in Hmn as (tm & Htm & Hmn).
  apply list_elem_of_lookup_1 in Htm as [ref Href].
  assert (ref ∈ (filter (λ p : nat * Z, p.2 = mn) usages).*1) as Hr.
  { apply Hs. exists tm. split; [done|]. apply Hmin; [|done].
    by eapply list_elem_of_lookup_2. }
  intros Hnil. rewrite Hnil in Hr. by apply elem_of_nil in Hr.
Qed.

Lemma least_used_all_spec gu tables (S : Z → list TableRef) teams : ∀ acc,
  (∀ team, team ∈ teams → least_used gu tables team = Ok (S team)) →
  ∃ least, least_used_all gu tables teams acc = (Ok (), least) ∧
           ∀ team, team ∈ teams → least !! team = Some (S team).
Proof.
  assert (Hgen : ∀ acc,
    (∀ team, team ∈ teams → least_used gu tables team = Ok (S team)) →
    ∃ least, least_used_all gu tables teams acc = (Ok (), least) ∧
             ∀ team, least !! team
                     = if decide (team ∈ teams) then Some (S team)
                       else acc !! team).
  { induction teams as [|x l IH]; intros acc Hok; cbn.
    { exists acc. split; [done|]. intros team.
      rewrite decide_False; [done | apply not_elem_of_nil]. }
    rewrite (Hok x) by apply list_elem_of_here.
    destruct (IH (<[x := S x]> acc)) as (least & -> & Hl).
    { intros team Hin. by apply Hok, list_elem_of_further. }
    exists least. split; [done|]. intros team. rewrite Hl.
    destruct (decide (team ∈ l)) as [Hin|Hnin].
    - rewrite decide_True; [done | by apply list_elem_of_further].
    - destruct (decide (x = team)) as [->|Hne].
      + rewrite lookup_insert_eq.
        rewrite decide_True; [done | apply list_elem_of_here].
      + rewrite lookup_insert_ne by done.
        rewrite decide_False; [done|].
        intros [?|?]%elem_of_cons; congruence. }
  intros acc Hok. destruct (Hgen acc Hok) as (least & Hrun & Hl).
  exists least. split; [done|]. intros team Hin.
  by rewrite Hl, decide_True.
Qed.

(** X18. [calculate_usage_stats] of v1 over tables with distinct ids.  With
    no table and a counted team it raises the [ValueError] of [min] on an
    empty sequence.  With a table it returns: for every counted team (1 to
    [num_teams], the bye team left out) the recorded usage of a table is
    the table's usage count for the team, and the team's least-used set is
    not empty and holds exactly the tables whose count for the team no table
    undercuts. *)
Theorem calculate_usage_stats_least_used (self : Week) tables bye :
  NoDup (table_id <$> tables) →
  let teams := counted_teams (num_teams self) bye in
  (tables = [] → teams ≠ [] →
   (calculate_usage_stats self tables bye).1
   = Raise (ValueError EmptySequence)) ∧
  (tables ≠ [] →
   ∃ gu least,
     calculate_usage_stats self tables bye
     = (Ok (), set_usage_stats gu least self) ∧
     ∀ team, team ∈ teams →
       (∀ t, t ∈ tables →
             usage_at gu team (table_id t) = Ok (get_usage t team)) ∧
       ∃ s, least !! team = Some s ∧ s ≠ [] ∧
            ∀ ref, ref ∈ s ↔
                   ∃ t, tables !! ref = Some t ∧
                        ∀ t', t' ∈ tables →
                              get_usage t team ≤ get_usage t' team).
Proof.
  intros Hnd teams. unfold calculate_usage_stats. fold teams. split.
  - intros -> Hne. destruct teams as [|team rest]; [done|]. done.
  - intros Hne.
    set (gu := usage_stats tables teams).
    set (S := λ team, match least_used gu tables team with
                      | Ok s => s
                      | Raise _ => []
                      end).
    destruct (least_used_all_spec gu tables S teams ∅) as (least & -> & Hl).
    { intros team Hin. unfold S, gu.
      by destruct (least_used_spec tables teams team Hnd Hin Hne)
        as (s & -> & _). }
    exists gu, least. split; [done|]. intros team Hin. split.
    + intros t Ht. by apply usage_at_recorded.
    + exists (S team). split; [by apply Hl|]. unfold S, gu.
      by destruct (least_used_spec tables teams team Hnd Hin Hne)
        as (s & -> & ? & ?).
Qed.

Lemma calculate_usage_stats_least_used_witness :
  (@nil Table = [] → counted_teams 4 ByeNone ≠ [] →
   (calculate_usage_stats (Examples.v1_week 1) [] ByeNone).1
   = Raise (ValueError EmptySequence)) ∧
  (Examples.table_A_used ++ [Table_init "B"] ≠ [] →
   ∃ gu least,
     calculate_usage_stats (Examples.v1_week 1)
       (Examples.table_A_used ++ [Table_init "B"]) ByeNone
     = (Ok (), set_usage_stats gu least (Examples.v1_week 1)) ∧
     ∀ team, team ∈ counted_teams 4 ByeNone →
       (∀ t, t ∈ Examples.table_A_used ++ [Table_init "B"] →
             usage_at gu team (table_id t) = Ok (get_usage t team)) ∧
       ∃ s, least !! team = Some s ∧ s ≠ [] ∧
            ∀ ref, ref ∈ s ↔
                   ∃ t, (Examples.table_A_used ++ [Table_init "B"]) !! ref
                        = Some t ∧
                        ∀ t', t' ∈ Examples.table_A_used ++ [Table_init "B"] →
                              get_usage t team ≤ get_usage t' team).
Proof.
  split.
  - apply (calculate_usage_stats_least_used (Examples.v1_week 1) [] ByeNone).
    constructor.
  - apply (calculate_usage_stats_least_used (Examples.v1_week 1)
             (Examples.table_A_used ++ [Table_init "B"]) ByeNone).
    apply (bool_decide_unpack _). vm_compute. exact I.
Defined.

End UsageStats.
(** ** v3: the program as its manager builds it *)

Section V3Program.
Import V3 V3Manager.

Implicit Types (m : Match) (ms : list Match) (w : Week) (h : histories)
  (mgr : TableAssignmentManager).

(** A match as [Match.__init__] leaves it. *)
Lemma Match_of_string_init teams s m :
  Match_of_string teams s = Some m →
  table_assigned m = None ∧ candidate_tables m = None.
Proof.
  unfold Match_of_string.
  destruct (split_dash s) as [|a [|b [|c l]]]; try done.
  destruct (find_team teams a); [|done].
  destruct (find_team teams b); [|done]. by intros [= <-].
Qed.

Lemma week_of_row_init teams row date w :
  week_of_row teams row = Some (date, w) →
  Forall (λ m, table_assigned m = None ∧ candidate_tables m = None)
         (matches w).
Proof.
  unfold week_of_row. destruct row as [|week_id [|d strs]]; try done.
  destruct (_ || _); [done|]. intros [= _ <-]. cbn.
  apply Forall_forall. intros m (s & _ & Hm)%list_elem_of_omap.
  by eapply Match_of_string_init.
Qed.

Lemma Manager_init_matches fs filename mgr :
  Manager_init fs filename = Ok mgr →
  Forall (λ w, Forall (λ m, table_assigned m = None
                            ∧ candidate_tables m = None) (matches w))
         (schedule mgr).*2.
Proof.
  unfold Manager_init.
  destruct (Filename.validate_filename filename) as [groups|]; cbn; [|done].
  destruct groups as [|g1 [|g2 [|g3 [|g4 [|g5 [|]]]]]]; try done.
  destruct (initialize_from_config fs g1 g4) as [config|]; cbn; [|done].
  unfold read_schedule.
  destruct (schedule_file fs) as [lines|]; cbn; [|done].
  intros [= <-]. cbn. apply Forall_fmap, Forall_forall.
  intros [date w] (row & _ & Hrow)%list_elem_of_omap. cbn.
  by eapply week_of_row_init.
Qed.

(** With no history at all, week "1" cannot get past a match. *)
Lemma assign_first_week_empty ms tables ms' h' :
  assign_first_week ms tables ∅ = (Ok (), ms', h') →
  ms = [] ∧ ms' = [] ∧ h' = ∅.
Proof.
  destruct ms as [|m ms]; cbn; [by intros [= <- <-]|].
  destruct (pop tables) as [[t av]|]; [|done].
  unfold assign_table, tables_assigned_append. cbn.
  by rewrite lookup_empty.
Qed.

Lemma assign_tables_empty rnd w tables w' h' :
  unassigned (matches w) →
  assign_tables rnd w tables ∅ = (Ok (), w', h') →
  unassigned (matches w') ∧ h' = ∅.
Proof.
  intros Hfresh Hrun.
  destruct (String.eqb (week_id w) "1") eqn:Hid.
  - revert Hrun. unfold assign_tables. rewrite Hid. cbn.
    destruct (assign_first_week _ _ ∅) as [[r1 ms1] h1] eqn:Hfw.
    intros [= -> <- <-].
    apply assign_first_week_empty in Hfw as (_ & -> & ->).
    by split; [constructor|].
  - apply String.eqb_neq in Hid.
    by apply assign_tables_later in Hrun as (_ & ? & ?).
Qed.

Lemma assign_weeks_empty rnd total tables weeks : ∀ i weeks' h',
  Forall (λ w, unassigned (matches w)) weeks →
  assign_weeks rnd i total tables weeks ∅ = (Ok (), weeks', h') →
  length weeks' = length weeks ∧
  Forall (λ w, unassigned (matches w)) weeks' ∧ h' = ∅.
Proof.
  induction weeks as [|w weeks IH]; intros i weeks' h' Hfresh; cbn.
  { by intros [= <- <-]. }
  apply Forall_cons in Hfresh as [Hw Hfresh].
  destruct (assign_tables (rnd i) (set_weeks_total total w) tables ∅)
    as [[[[]|e] w1] h1] eqn:Ha; [|done].
  apply assign_tables_empty in Ha as [Hw1 ->]; [|done].
  destruct (assign_weeks rnd (S i) total tables weeks ∅)
    as [[r2 ws2] h2] eqn:Hrec.
  intros [= -> <- <-].
  destruct (IH _ _ _ Hfresh Hrec) as (Hlen & Hall & ->).
  split; [cbn; by rewrite Hlen|]. by split; [constructor|].
Qed.

(** A team whose first match holds no table gets an empty cell. *)
Lemma table_cell_unassigned mgr w team :
  unassigned (matches w) → table_cell mgr w team = EmptyString.
Proof.
  intros Hfresh. unfold table_cell.
  destruct (list_find _ (matches w)) as [[i m]|] eqn:Hfind; [|done].
  apply list_find_Some in Hfind as (Hi & _ & _).
  unfold unassigned in Hfresh. rewrite Forall_forall in Hfresh.
  by rewrite (Hfresh m) by by eapply list_elem_of_lookup_2.
Qed.

(** X19. The program of v3 writes no table.  On a manager its constructor
    has built, a call of [assign_all_tables] that returns has left every
    team without history and every match without a table, and the rows of
    [output_table_stats] are the header and one row per week in which the
    cell of every team is empty. *)
Theorem v3_program_writes_no_table rnd fs filename mgr mgr' h rows :
  Manager_init fs filename = Ok mgr →
  V3Manager.assign_all_tables rnd mgr = (Ok (), mgr', h, rows) →
  h = ∅ ∧
  Forall (λ w, unassigned (matches w)) (schedule mgr').*2 ∧
  length rows = S (length (schedule mgr)) ∧
  Forall (λ row, Forall (λ cell, cell = EmptyString) (drop 2 row))
         (tail rows).
Proof.
  intros Hinit%Manager_init_matches. unfold V3Manager.assign_all_tables.
  destruct (V3.assign_all_tables rnd _ (schedule mgr).*2 ∅)
    as [[r weeks'] h1] eqn:Hrun.
  destruct r as [[]|e]; [|done]. intros [= <- <- <-].
  unfold V3.assign_all_tables in Hrun.
  apply assign_weeks_empty in Hrun as (Hlen & Hall & ->).
  2:{ eapply Forall_impl; [exact Hinit|]. intros w Hw.
      eapply Forall_impl; [exact Hw|]. by intros m [? _]. }
  rewrite length_fmap in Hlen.
  assert (Hsnd : (zip (schedule mgr).*1 weeks').*2 = weeks').
  { apply snd_zip. rewrite length_fmap. lia. }
  cbn [schedule]. rewrite Hsnd.
  split; [done|]. split; [done|]. split.
  - cbn. rewrite length_fmap, length_zip, length_fmap. lia.
  - cbn. apply Forall_fmap, Forall_forall. intros [date w] Hin. cbn.
    apply Forall_fmap, Forall_forall. intros team _. cbn.
    apply table_cell_unassigned.
    rewrite Forall_forall in Hall. apply Hall.
    rewrite <- Hsnd. apply list_elem_of_fmap. by exists (date, w).
Qed.

Lemma v3_program_writes_no_table_witness :
  ∃ mgr mgr' rows,
    Manager_init Examples.v3_files_crowded Examples.the_filename = Ok mgr ∧
    V3Manager.assign_all_tables (λ _, no_shuffle) mgr = (Ok (), mgr', ∅, rows) ∧
    Forall (λ w, unassigned (matches w)) (schedule mgr').*2 ∧
    length rows = S (length (schedule mgr)) ∧
    Forall (λ row, Forall (λ cell, cell = EmptyString) (drop 2 row))
           (tail rows).
Proof.
  eexists _, _, _. split; [vm_compute; reflexivity|].
  split; [vm_compute; reflexivity|].
  eapply (v3_program_writes_no_table (λ _, no_shuffle)
            Examples.v3_files_crowded Examples.the_filename).
  - vm_compute. reflexivity.
  - vm_compute. reflexivity.
Defined.

(** X20. On a manager of v3 as its constructor builds it, whose first week
    has a match and no more matches than there are tables,
    [assign_all_tables] raises [AttributeError] in that week: the teams'
    [tables_assigned] and the matches' [candidate_tables] are still
    [None]. *)
Theorem v3_program_raises rnd fs filename mgr date w rest :
  Manager_init fs filename = Ok mgr →
  schedule mgr = (date, w) :: rest →
  fair (rnd O) →
  matches w ≠ [] → (length (matches w) ≤ length (tables mgr))%nat →
  (V3Manager.assign_all_tables rnd mgr).1.1.1 = Raise AttributeError.
Proof.
  intros Hinit%Manager_init_matches Hs Hfair Hne Hle.
  unfold V3Manager.assign_all_tables, V3.assign_all_tables.
  rewrite Hs in *. cbn [fmap list_fmap snd assign_weeks].
  cbn in Hinit. apply Forall_cons in Hinit as [Hw _].
  match goal with |- context [assign_tables ?r ?w0 ?t ?h0] =>
    pose proof (assign_tables_as_built r w0 t h0 Hfair) as Hraise;
    destruct (assign_tables r w0 t h0) as [[r1 w1] h1] end.
  cbn in Hraise. rewrite Hraise; [done|done| |].
  - by rewrite length_seq.
  - eapply Forall_impl; [exact Hw|]. intros m [_ Hc]. cbn.
    by rewrite !lookup_empty.
Qed.

Lemma v3_program_raises_witness :
  ∃ mgr,
    Manager_init Examples.v3_files_first_week Examples.the_filename = Ok mgr ∧
    (V3Manager.assign_all_tables (λ _, reversing) mgr).1.1.1
    = Raise AttributeError.
Proof.
  eexists. split; [vm_compute; reflexivity|].
  eapply (v3_program_raises (λ _, reversing) Examples.v3_files_first_week
            Examples.the_filename).
  - vm_compute. reflexivity.
  - reflexivity.
  - split; intros l; apply reverse_Permutation.
  - discriminate.
  - cbn. lia.
Defined.

End V3Program.
(** ** A run of v2 succeeds exactly when the tables suffice every week *)

Section V2RunComplete.
Import V2.

Implicit Types (w : Week) (weeks : list Week) (tables : list Table).

Lemma v2_assign_weeks_succeeds set_order weeks : ∀ i tables,
  (∀ i, enumerates (set_order i)) →
  Forall settled tables →
  Forall (λ w, distinct_teams (bye_team_id w) (matches w)) weeks →
  Forall (suffices tables) weeks →
  ∃ weeks' tables',
    assign_weeks set_order i weeks tables = (Ok (), weeks', tables') ∧
    Forall2 (λ w w', Forall2 (assigned_from (bye_team_id w)
                                            (seq 0 (length tables)))
                             (matches w) (matches w')) weeks weeks' ∧
    Forall settled tables' ∧ length tables' = length tables.
Proof.
  induction weeks as [|w weeks IH]; intros i tables Henum Hset Hdist Hsuf; cbn.
  { eexists _, _. split; [done|]. by split; [constructor|]. }
  apply Forall_cons in Hdist as [Hw Hdist].
  apply Forall_cons in Hsuf as [Hsw Hsuf].
  destruct (v2_assign_tables_complete (set_order i) w tables (Henum i) Hset Hw)
    as [Hok _].
  destruct (Hok Hsw) as (w1 & t1 & Hrun & Hms & Hset1).
  pose proof (v2_assign_tables_grows (set_order i) w tables) as Hlen.
  rewrite Hrun in Hlen |- *. cbn in Hlen. apply grows_length in Hlen.
  destruct (IH (S i) t1 Henum Hset1 Hdist) as (ws2 & t2 & -> & Hws & Hset2 & Hl2).
  { eapply Forall_impl; [exact Hsuf|]. intros x. unfold suffices.
    by rewrite Hlen. }
  eexists _, _. split; [done|]. split; [|split; [done | congruence]].
  constructor; [done|]. by rewrite <- Hlen.
Qed.

Lemma v2_assign_weeks_runs_out set_order before : ∀ i tables w after m,
  (∀ i, enumerates (set_order i)) →
  Forall settled tables →
  Forall (λ w, distinct_teams (bye_team_id w) (matches w))
         (before ++ w :: after) →
  Forall (suffices tables) before →
  played (bye_team_id w) (matches w) !! length tables = Some m →
  (assign_weeks set_order i (before ++ w :: after) tables).1.1
  = Raise (ValueError (NoAvailableTable (V1.home_team m) (V1.away_team m)
                                        (week_id w))).
Proof.
  induction before as [|w0 before IH];
    intros i tables w after m Henum Hset Hdist Hsuf Hm; cbn.
  - apply Forall_cons in Hdist as [Hw _].
    destruct (v2_assign_tables_complete (set_order i) w tables (Henum i) Hset Hw)
      as [_ Hfail].
    specialize (Hfail m Hm).
    destruct (assign_tables (set_order i) w tables) as [[r1 w1] t1].
    cbn in Hfail. by rewrite Hfail.
  - apply Forall_cons in Hdist as [Hw0 Hdist].
    apply Forall_cons in Hsuf as [Hsw Hsuf].
    destruct (v2_assign_tables_complete (set_order i) w0 tables (Henum i)
                Hset Hw0) as [Hok _].
    destruct (Hok Hsw) as (w1 & t1 & Hrun & Hms & Hset1).
    pose proof (v2_assign_tables_grows (set_order i) w0 tables) as Hlen.
    rewrite Hrun in Hlen |- *. cbn in Hlen. apply grows_length in Hlen.
    specialize (IH (S i) t1 w after m Henum Hset1 Hdist).
    destruct (assign_weeks set_order (S i) (before ++ w :: after) t1)
      as [[r2 ws2] t2].
    cbn in *. apply IH.
    + eapply Forall_impl; [exact Hsuf|]. intros x. unfold suffices.
      by rewrite Hlen.
    + by rewrite Hlen.
Qed.

(** X21. A run of v2 over weeks whose played matches are between different
    teams, on tables whose last two entries differ.  If no week has more
    played matches than there are tables, [assign_all_tables] returns:
    every played match holds a table of the pool and every match with the
    bye team is as it was.  Otherwise it raises the [ValueError] of the
    first week that has too many, for the first played match beyond the
    number of tables, the weeks before having been assigned. *)
Theorem v2_run_succeeds_iff_tables_suffice set_order weeks tables :
  (∀ i, enumerates (set_order i)) →
  Forall settled tables →
  Forall (λ w, distinct_teams (bye_team_id w) (matches w)) weeks →
  (Forall (suffices tables) weeks →
   ∃ weeks' tables',
     assign_all_tables set_order weeks tables = (Ok (), weeks', tables') ∧
     Forall2 (λ w w', Forall2 (assigned_from (bye_team_id w)
                                             (seq 0 (length tables)))
                              (matches w) (matches w')) weeks weeks' ∧
     Forall settled tables') ∧
  (∀ before w after m,
     weeks = before ++ w :: after →
     Forall (suffices tables) before →
     played (bye_team_id w) (matches w) !! length tables = Some m →
     (assign_all_tables set_order weeks tables).1.1
     = Raise (ValueError (NoAvailableTable (V1.home_team m) (V1.away_team m)
                                           (week_id w)))).
Proof.
  intros Henum Hset Hdist. unfold assign_all_tables. split.
  - intros Hsuf.
    destruct (v2_assign_weeks_succeeds set_order weeks O tables Henum Hset
                Hdist Hsuf) as (ws & ts & -> & Hws & Hts & _).
    by eexists _, _.
  - intros before w after m -> Hsuf Hm.
    by apply v2_assign_weeks_runs_out.
Qed.

Lemma v2_run_succeeds_iff_tables_suffice_witness :
  (∃ weeks' tables',
     assign_all_tables (λ _, id) [Examples.v2_week 1; Examples.v2_week 2]
                       Examples.tables_AB = (Ok (), weeks', tables') ∧
     Forall2 (λ w w', Forall2 (assigned_from (bye_team_id w) (seq 0 2))
                              (matches w) (matches w'))
             [Examples.v2_week 1; Examples.v2_week 2] weeks' ∧
     Forall settled tables') ∧
  (assign_all_tables (λ _, id)
     [Examples.v2_week_one_match 1; Examples.v2_week 2] Examples.table_A).1.1
  = Raise (ValueError (NoAvailableTable 3 4 2)).
Proof.
  split.
  - apply (v2_run_succeeds_iff_tables_suffice (λ _, id)
             [Examples.v2_week 1; Examples.v2_week 2] Examples.tables_AB).
    + intros i l. reflexivity.
    + repeat constructor.
    + repeat constructor; discriminate.
    + repeat constructor.
  - apply (proj2 (v2_run_succeeds_iff_tables_suffice (λ _, id)
                    [Examples.v2_week_one_match 1; Examples.v2_week 2]
                    Examples.table_A ltac:(intros i l; reflexivity)
                    ltac:(repeat constructor)
                    ltac:(repeat constructor; discriminate))
                 [Examples.v2_week_one_match 1] (Examples.v2_week 2) []
                 (V1.Match_init 3 4)).
    + reflexivity.
    + repeat constructor.
    + reflexivity.
Defined.

End V2RunComplete.
(** ** v1: the table of the least score *)

Section V1Choice.
Import V1.

Implicit Types (m : Match) (self : Week) (tables : list Table)
  (u v : score) (x best : TableRef * score).

Lemma score_lt_le_lt u v w :
  V1.score_lt u v = false → V1.score_lt u w = true → V1.score_lt v w = true.
Proof.
  destruct u as [[? ?] ?], v as [[? ?] ?], w as [[? ?] ?]. unfold score_lt.
  rewrite !orb_true_iff, !andb_true_iff, !orb_false_iff, !andb_false_iff,
          !Z.ltb_lt, !Z.eqb_eq, !Z.ltb_ge, !Z.eqb_neq.
  lia.
Qed.

(** [min(table_scores, key=...)]: the first entry of the least key. *)
Lemma min_by_score_spec rest : ∀ best,
  ∃ i : nat,
    (best :: rest) !! i = Some (min_by_score best rest) ∧
    ∀ (j : nat) x, (best :: rest) !! j = Some x →
      score_lt x.2 (min_by_score best rest).2 = false ∧
      ((j < i)%nat → score_lt (min_by_score best rest).2 x.2 = true).
Proof.
  induction rest as [|y rest IH]; intros best.
  { exists O. split; [done|]. intros [|j] x Hx; [|done].
    injection Hx as <-. split; [apply score_lt_irrefl | lia]. }
  change (min_by_score best (y :: rest))
    with (min_by_score (if score_lt y.2 best.2 then y else best) rest).
  destruct (score_lt y.2 best.2) eqn:Hlt.
  - destruct (IH y) as (i & Hi & Hall). exists (S i). split; [done|].
    intros [|j] x Hx; cbn in Hx.
    + injection Hx as <-.
      destruct (Hall O y eq_refl) as [Hge _].
      assert (score_lt (min_by_score y rest).2 best.2 = true)
        by by eapply score_lt_le_lt.
      split; [by apply score_lt_asym | done].
    + destruct (Hall j x Hx) as [Hge Hbefore].
      split; [done|]. intros ?. apply Hbefore. lia.
  - destruct (IH best) as (i & Hi & Hall). destruct i as [|i].
    + exists O. split; [done|]. cbn in Hi. injection Hi as Hi.
      intros [|[|j]] x Hx; cbn in Hx.
      * injection Hx as <-. by apply (Hall O).
      * injection Hx as <-. rewrite <- Hi. split; [done | lia].
      * destruct (Hall (S j) x Hx) as [Hge _]. split; [done | lia].
    + exists (S (S i)). split; [done|].
      intros [|[|j]] x Hx; cbn in Hx.
      * injection Hx as <-. destruct (Hall O best eq_refl) as [Hge Hb].
        split; [done|]. intros _. apply Hb. lia.
      * injection Hx as <-. destruct (Hall O best eq_refl) as [_ Hb].
        assert (score_lt (min_by_score best rest).2 y.2 = true).
        { eapply score_lt_below; [exact Hlt|]. apply Hb. lia. }
        split; [by apply score_lt_asym | done].
      * destruct (Hall (S j) x Hx) as [Hge Hb].
        split; [done|]. intros ?. apply Hb. lia.
Qed.

Lemma table_scores_spec self m bye ideal tables scores :
  table_scores self m bye ideal tables = Ok scores → scores ≠ [] →
  Forall2 (λ t p, p.1 = t ∧ score_table self m bye ideal tables t = Ok p.2)
          (available_tables self) scores.
Proof.
  unfold table_scores. destruct (bye_match bye m).
  { by intros [= <-]. }
  intros Hm%mapM_Ok_Forall2 _.
  eapply Forall2_impl; [exact Hm|]. intros t p. cbn.
  destruct (score_table self m bye ideal tables t); cbn; [|done].
  by intros [= <-].
Qed.

(** X22. The scorer of v1, on a week that has been given the attribute
    [tables]: the table [find_best_table] returns is an available table
    whose score [(penalties, usage_spread, total)] no available table
    undercuts, and the first such table in iteration order. *)
Theorem v1_find_best_table_minimal self m bye tables t :
  find_best_table self m bye tables = Ok (Some t) →
  ∃ ideal (i : nat) v,
    ideal_usage_per_table self = Ok ideal ∧
    available_tables self !! i = Some t ∧
    score_table self m bye ideal tables t = Ok v ∧
    ∀ (j : nat) t', available_tables self !! j = Some t' →
      ∃ u, score_table self m bye ideal tables t' = Ok u ∧
           score_lt u v = false ∧ ((j < i)%nat → score_lt v u = true).
Proof.
  unfold find_best_table.
  destruct (available_tables self) as [|a av] eqn:Hav; [done|].
  destruct (ideal_usage_per_table self) as [ideal|]; cbn; [|done].
  destruct (table_scores self m bye ideal tables) as [scores|] eqn:Hs;
    cbn; [|done].
  destruct scores as [|x rest]; [done|]. intros [= <-].
  apply table_scores_spec in Hs; [|done]. rewrite Hav in Hs.
  destruct (min_by_score_spec rest x) as (i & Hi & Hall).
  exists ideal, i, (min_by_score x rest).2. split; [done|].
  destruct (Forall2_lookup_r _ _ _ _ _ Hs Hi) as (t & Ht & Ht1 & Ht2).
  rewrite Ht1. split; [done|]. split; [done|].
  intros j t' Hj.
  destruct (Forall2_lookup_l _ _ _ _ _ Hs Hj) as (p & Hp & Hp1 & Hp2).
  exists p.2. split; [done|]. by apply (Hall j p).
Qed.

Lemma v1_find_best_table_minimal_witness :
  ∃ ideal (i : nat) v,
    ideal_usage_per_table (snd (Examples.v1_scoring_week)) = Ok ideal ∧
    available_tables (snd (Examples.v1_scoring_week)) !! i = Some 1%nat ∧
    score_table (snd (Examples.v1_scoring_week)) (Match_init 1 2) ByeNone ideal
                (Examples.table_A_used ++ [Table_init "B"]) 1%nat = Ok v ∧
    ∀ (j : nat) t',
      available_tables (snd (Examples.v1_scoring_week)) !! j = Some t' →
      ∃ u, score_table (snd (Examples.v1_scoring_week)) (Match_init 1 2)
                       ByeNone ideal
                       (Examples.table_A_used ++ [Table_init "B"]) t' = Ok u ∧
           score_lt u v = false ∧ ((j < i)%nat → score_lt v u = true).
Proof.
  apply (v1_find_best_table_minimal (snd (Examples.v1_scoring_week))
           (Match_init 1 2) ByeNone
           (Examples.table_A_used ++ [Table_init "B"]) 1%nat).
  vm_compute. reflexivity.
Defined.

End V1Choice.
(** ** v2: counting recent use *)

Section V2Recent.
Import V2.

Implicit Types (t : Table) (team : Z).

Lemma count_back_run team (k : nat) x r :
  x ≠ team → count_back team (replicate k team ++ x :: r) = Ok (Z.of_nat k).
Proof.
  intros Hne. induction k as [|k IH]; cbn -[Z.of_nat].
  - by rewrite bool_decide_false by congruence.
  - rewrite bool_decide_true by done. rewrite IH. cbn -[Z.of_nat].
    f_equal. lia.
Qed.

Lemma count_back_all team (k : nat) :
  count_back team (replicate k team) = Raise IndexError.
Proof.
  induction k as [|k IH]; cbn; [done|].
  rewrite bool_decide_true by done. by rewrite IH.
Qed.

(** X23. [Table.was_recently_used_by] of v2 counts the entries of [team]
    at the end of [last_used_by]: it returns 0 for a table never used and
    the length of the run of [team] that ends the list when some other
    team precedes the run; when every entry of a used table is [team] the
    loop indexes past the start of the list and raises [IndexError]. *)
Theorem v2_was_recently_used_by_counts t team :
  (V1.last_used_by t = [] → was_recently_used_by t team = Ok 0) ∧
  (∀ l x (k : nat),
     V1.last_used_by t = l ++ x :: replicate k team → x ≠ team →
     was_recently_used_by t team = Ok (Z.of_nat k)) ∧
  (∀ k : nat,
     V1.last_used_by t = replicate (S k) team →
     was_recently_used_by t team = Raise IndexError).
Proof.
  unfold was_recently_used_by. split; [by intros ->|]. split.
  - intros l x k Hl Hne. rewrite Hl.
    destruct (l ++ x :: replicate k team) as [|y r] eqn:Hnil.
    { by destruct l. }
    rewrite <- Hnil, reverse_app, reverse_cons, reverse_replicate.
    rewrite <- app_assoc. cbn. by apply count_back_run.
  - intros k ->. cbn [replicate].
    change (team :: replicate k team) with (replicate (S k) team).
    rewrite reverse_replicate. apply count_back_all.
Qed.

Lemma v2_was_recently_used_by_counts_witness :
  was_recently_used_by (V1.mkTable "A" ∅ [1; 2; 2]) 2 = Ok 2 ∧
  was_recently_used_by (V1.mkTable "A" ∅ [2; 2]) 2 = Raise IndexError.
Proof.
  split.
  - apply (proj1 (proj2 (v2_was_recently_used_by_counts
                           (V1.mkTable "A" ∅ [1; 2; 2]) 2)) [] 1 2%nat).
    + reflexivity.
    + discriminate.
  - apply (proj2 (proj2 (v2_was_recently_used_by_counts
                           (V1.mkTable "A" ∅ [2; 2]) 2)) 1%nat).
    reflexivity.
Defined.

End V2Recent.
